(** * Justia regulations scraper and validator: a shallow embedding

    The development follows [regscraper.py] (the resumable tree crawler) and
    [validate_regs.py] (the independent verification pass).

    - Text is [string]; Python's [str] methods [in], [endswith] and
      [replace] are functions on it.  [str.upper], the Unicode case
      mapping, is a parameter of the development (the class [Upper]):
      every general statement holds for any upper-casing.  The sample
      sites, whose texts are ASCII, are run with the ASCII case mapping
      [Str.ascii_upper].
    - A lex_path is a [list nat]; Python's list comparison is [list_ltb].
    - The web site is a function from absolute URLs to what a request for
      them yields ([Page]); retries and pacing stay inside
      [fetch_with_retry].
    - The crawler's mutable world (visited set, output file, failure log,
      console warnings, requests sent) is the record [State], threaded
      through the recursion.  Python sets are [gset string].
    - [scrape_branch] recurses on a budget of nested calls; the depth guard
      of line 540 keeps it within 21 ([scrape_branch_total]).
    - The run is the one with a single worker thread, the default of
      [num_threads]: the jobs of the queue are crawled one after the
      other.
    - [json.loads] is a parameter of the start-up.
    - [fetch_with_retry] itself is modelled in the module [Retry]: the
      server is a function from the attempt number to what that request
      meets, the retry policy of lines 173-178 is a loop over the attempts,
      and what happens (requests, pauses, printed lines) is a list of
      events.  [int] and [time.sleep] are parameters.
    - Of the leaf extraction, the text processing (the breadcrumb path
      and the clean-up of the content lines) is modelled as it is written,
      with [str.strip] as a parameter; the markup lookups are not.
    - The verdict of [validate_state] is the counters of its loop
      ([totals]). *)

From stdpp Require Import base option list sets gmap strings sorting.
From Stdlib Require Import Ascii.

Local Open Scope string_scope.
Local Open Scope list_scope.

(** ** Python string primitives *)

Module Str.

(** The ASCII case mapping of one character: a to z go to A to Z. *)
Definition ascii_upper_char (c : ascii) : ascii :=
  let n := nat_of_ascii c in
  if (97 <=? n)%nat && (n <=? 122)%nat then ascii_of_nat (n - 32) else c.

(** The ASCII case mapping: what [s.upper()] is on ASCII text.  It is
    used to run the sample sites and to state what "without regard to
    case" means. *)
Fixpoint ascii_upper (s : string) : string :=
  match s with
  | EmptyString => EmptyString
  | String c s' => String (ascii_upper_char c) (ascii_upper s')
  end.

(** [s.startswith(p)] *)
Fixpoint startswith (p s : string) : bool :=
  match p, s with
  | EmptyString, _ => true
  | String _ _, EmptyString => false
  | String a p', String b s' => if decide (a = b) then startswith p' s' else false
  end.

(** [needle in hay] *)
Fixpoint contains (needle hay : string) : bool :=
  if startswith needle hay then true
  else match hay with
       | EmptyString => false
       | String _ hay' => contains needle hay'
       end.

(** [s.endswith(p)] *)
Fixpoint endswith (p s : string) : bool :=
  if decide (s = p) then true
  else match s with
       | EmptyString => false
       | String _ s' => endswith p s'
       end.

(** [s.replace(old, new)] for a non-empty [old]: occurrences are replaced
    left to right without overlap; [skip] counts the characters of a
    matched occurrence still to be dropped. *)
Fixpoint replace_from (old new : string) (skip : nat) (s : string) : string :=
  match s with
  | EmptyString => EmptyString
  | String c s' =>
      match skip with
      | S k => replace_from old new k s'
      | O =>
          if startswith old s
          then new +:+ replace_from old new (String.length old - 1) s'
          else String c (replace_from old new 0 s')
      end
  end.

Definition replace (old new s : string) : string := replace_from old new 0 s.

(** [s[n:]] *)
Fixpoint drop (n : nat) (s : string) : string :=
  match n, s with
  | O, _ => s
  | S _, EmptyString => EmptyString
  | S n', String _ s' => drop n' s'
  end.

End Str.

(** [s.upper()]: Python's upper-casing of a text, the Unicode case mapping.
    It is a parameter: nothing is assumed of it. *)
Class Upper := upper : string -> string.

(** ** Positional paths *)

(** A lex_path: the sibling index chosen at each depth. *)
Abbreviation LexPath := (list nat).

(** Python's [a < b] on lists of integers: the first differing element
    decides; if there is none, the shorter list is the smaller. *)
Fixpoint list_ltb (a b : LexPath) : bool :=
  match a, b with
  | [], [] => false
  | [], _ :: _ => true
  | _ :: _, [] => false
  | x :: a', y :: b' =>
      if (x <? y)%nat then true
      else if (y <? x)%nat then false
      else list_ltb a' b'
  end.

(** [a > b] is [b < a]. *)
Definition list_gtb (a b : LexPath) : bool := list_ltb b a.

(** ** Helper functions of [regscraper.py] *)

Definition is_reserved_or_repealed {Up : Upper} (text : string) : bool :=
  let text_upper := upper text in
  Str.contains "(REPEALED)" text_upper
  || Str.contains "(RESERVED)" text_upper
  || Str.contains "RESERVED" text_upper.

(** The test of lines 534 and (in the validator) 72 and 117:
    [href.endswith("//") or "//" in href.replace("://", "")]. *)
Definition malformed_href (href : string) : bool :=
  Str.endswith "//" href || Str.contains "//" (Str.replace "://" "" href).

(** ** Data model *)

(** One anchor of a navigation region: [{"text": ..., "href": ...}]. *)
Record NodeLink := { text : string; href : string }.

(** What the leaf extraction reads off a regulation page. *)
Record LeafData := {
  clean_path : string;
  title_str : string;
  has_univ_cite : bool;
  citation : option string;
  content : string }.

(** The persisted record, one JSON object per line. *)
Record Rec := {
  rec_url : string;
  rec_state : string;
  rec_path : string;
  rec_title : string;
  rec_univ_cite : bool;
  rec_citation : option string;
  rec_content : string;
  rec_lex_path : LexPath }.

(** What [process_regulation_leaf] meets on a page without navigation
    region: the extraction goes through, a lookup in the markup raises, or
    its own request (line 281) fails although the first one went through. *)
Inductive LeafBody :=
| Extracted (d : LeafData)
| ExtractRaises (e : string)
| ExtractNoPage (status : string).

(** What a request for a URL yields to [scrape_branch]: no usable response
    ([None] or a status other than 200), a page with an element of class
    [codes-listing] and its anchors in document order, or a page without. *)
Inductive Page :=
| NoPage (status : string)
| Listing (links : list NodeLink)
| Regulation (body : LeafBody).

(** Who sent a request: line 724, line 506 or line 281. *)
Inductive Caller := Startup | Classify | Extract.

(** The lines appended to [failed_<state>.txt]: lines 611, 601 and 449. *)
Inductive FailEntry :=
| FailedStatus (url status : string)
| FailedLeaf (url err : string)
| FailedLeafFetch (url : string).

(** The two [WARNING:] lines printed by [scrape_branch]. *)
Inductive Warning :=
| MalformedURL (url : string)
| ExcessiveDepth (depth : nat) (url : string).

(** The world the crawler mutates. *)
Record State := {
  visited_urls : gset string;
  jsonl : list Rec;
  failed_file : list FailEntry;
  warnings : list Warning;
  requests : list (Caller * string) }.

Definition init_state : State :=
  {| visited_urls := ∅; jsonl := []; failed_file := []; warnings := []; requests := [] |}.

Definition add_visited (u : string) (st : State) : State :=
  {| visited_urls := {[u]} ∪ visited_urls st; jsonl := jsonl st;
     failed_file := failed_file st; warnings := warnings st; requests := requests st |}.

Definition write_record (r : Rec) (st : State) : State :=
  {| visited_urls := visited_urls st; jsonl := jsonl st ++ [r];
     failed_file := failed_file st; warnings := warnings st; requests := requests st |}.

Definition log_failure (e : FailEntry) (st : State) : State :=
  {| visited_urls := visited_urls st; jsonl := jsonl st;
     failed_file := failed_file st ++ [e]; warnings := warnings st; requests := requests st |}.

Definition print_warning (w : Warning) (st : State) : State :=
  {| visited_urls := visited_urls st; jsonl := jsonl st;
     failed_file := failed_file st; warnings := warnings st ++ [w]; requests := requests st |}.

Definition note_request (who : Caller) (u : string) (st : State) : State :=
  {| visited_urls := visited_urls st; jsonl := jsonl st;
     failed_file := failed_file st; warnings := warnings st;
     requests := requests st ++ [(who, u)] |}.

Definition REGULATIONS_BASE_URL : string := "https://regulations.justia.com".

(** Python truthiness of an [Optional[list[int]]]. *)
Definition truthy (continue_from : option LexPath) : bool :=
  match continue_from with
  | Some (_ :: _) => true
  | _ => false
  end.

(** [enumerate(links)] *)
Definition enumerate {A} (l : list A) : list (nat * A) := imap (fun i x => (i, x)) l.

(** ** The crawler *)

Section Crawler.

Context {Up : Upper}.

(** The site: what each absolute URL answers. *)
Variable site : string -> Page.
Variable state_abb : string.
Variable site_url : string.

Definition fetch_with_retry (who : Caller) (url : string) (st : State) : Page * State :=
  (site url, note_request who url st).

(** [process_regulation_leaf] on a page for which its request and the
    extraction go as [body] says; [inr e] is an exception raised to the
    caller. *)
Definition process_regulation_leaf (body : LeafBody) (url : string) (lex_path : LexPath)
    (st : State) : State + (string * State) :=
  let '(_, st) := fetch_with_retry Extract url st in
  match body with
  | Extracted d =>
      inl (write_record
             {| rec_url := url; rec_state := state_abb; rec_path := clean_path d;
                rec_title := title_str d; rec_univ_cite := has_univ_cite d;
                rec_citation := citation d; rec_content := content d;
                rec_lex_path := lex_path |} st)
  | ExtractRaises e => inr (e, st)
  | ExtractNoPage _ => inl (log_failure (FailedLeafFetch url) st)
  end.

(** The index at which the loop over the links starts (lines 515-520). *)
Definition start_index (path : LexPath) (continue_from : option LexPath) : nat :=
  match continue_from with
  | Some cf =>
      if truthy continue_from && bool_decide (path = take (length path) cf)
      then if (length path <? length cf)%nat then default 0%nat (cf !! length path) else 0%nat
      else 0%nat
  | None => 0%nat
  end.

(** The loop of lines 522-583 over [enumerate(links)], with the recursive
    call as a parameter.  The handler of line 568 has nothing to catch in
    this model: every raising operation of [scrape_branch] is inside a
    handler of its own. *)
Fixpoint scrape_links
    (self : string -> LexPath -> option LexPath -> State -> option State)
    (url : string) (path : LexPath) (continue_from : option LexPath) (start_idx : nat)
    (links : list (nat * NodeLink)) (st : State) : option State :=
  match links with
  | [] => Some st
  | (i, link) :: rest =>
      if (i <? start_idx)%nat then
        scrape_links self url path continue_from start_idx rest st
      else if is_reserved_or_repealed (text link) then
        scrape_links self url path continue_from start_idx rest st
      else if malformed_href (href link) then
        scrape_links self url path continue_from start_idx rest
          (print_warning (MalformedURL (site_url +:+ href link)) st)
      else if (20 <=? length path)%nat then
        Some (print_warning (ExcessiveDepth (length path) url) st)
      else
        let new_path := path ++ [i] in
        let new_continue_from :=
          if truthy continue_from && (start_idx <? i)%nat then None else continue_from in
        match self (site_url +:+ href link) new_path new_continue_from st with
        | Some st' => scrape_links self url path continue_from start_idx rest st'
        | None => None
        end
  end.

(** [scrape_branch]; [None] only when the recursion budget [fuel] is
    used up. *)
Fixpoint scrape_branch (fuel : nat) (url : string) (path : LexPath)
    (continue_from : option LexPath) (st : State) : option State :=
  match fuel with
  | O => None
  | S fuel' =>
      if bool_decide (url ∈ visited_urls st) then Some st
      else
        let st := add_visited url st in
        let '(response, st) := fetch_with_retry Classify url st in
        match response with
        | Listing links =>
            scrape_links (scrape_branch fuel') url path continue_from
              (start_index path continue_from) (enumerate links) st
        | Regulation body =>
            if truthy continue_from && bool_decide (continue_from = Some path) then Some st
            else
              match process_regulation_leaf body url path st with
              | inl st' => Some st'
              | inr (e, st') => Some (log_failure (FailedLeaf url e) st')
              end
        | NoPage status => Some (log_failure (FailedStatus url status) st)
        end
  end.

End Crawler.

(** ** Start-up, work queue and the run *)

Definition JUR_URL_MAP : gmap string string :=
  list_to_map
    [("AL", "alabama"); ("AK", "alaska"); ("AZ", "arizona"); ("AR", "arkansas");
     ("CA", "california"); ("CO", "colorado"); ("CT", "connecticut"); ("DE", "delaware");
     ("FL", "florida"); ("GA", "georgia"); ("HI", "hawaii"); ("ID", "idaho");
     ("IL", "illinois"); ("IN", "indiana"); ("IA", "iowa"); ("KS", "kansas");
     ("KY", "kentucky"); ("LA", "louisiana"); ("ME", "maine"); ("MD", "maryland");
     ("MA", "massachusetts"); ("MI", "michigan"); ("MN", "minnesota");
     ("MS", "mississippi"); ("MO", "missouri"); ("MT", "montana"); ("NE", "nebraska");
     ("NV", "nevada"); ("NH", "new-hampshire"); ("NJ", "new-jersey");
     ("NM", "new-mexico"); ("NY", "new-york"); ("NC", "north-carolina");
     ("ND", "north-dakota"); ("OH", "ohio"); ("OK", "oklahoma"); ("OR", "oregon");
     ("PA", "pennsylvania"); ("RI", "rhode-island"); ("SC", "south-carolina");
     ("SD", "south-dakota"); ("TN", "tennessee"); ("TX", "texas"); ("UT", "utah");
     ("VT", "vermont"); ("VA", "virginia"); ("WA", "washington");
     ("WV", "west-virginia"); ("WI", "wisconsin"); ("WY", "wyoming");
     ("DC", "district-of-columbia"); ("AS", "american-samoa"); ("GU", "guam");
     ("MP", "northern-mariana-islands"); ("PR", "puerto-rico");
     ("VI", "us-virgin-islands")].

(** The newline byte. *)
Definition nl : ascii := "010"%char.

(** [f.readline()] on the rest of the file: up to and including the first
    newline, or to the end. *)
Fixpoint readline (s : string) : string :=
  match s with
  | EmptyString => EmptyString
  | String c s' => if decide (c = nl) then String c EmptyString else String c (readline s')
  end.

(** The loop of lines 470-473 with the file position at [p]: read one byte;
    if it is a newline stop just behind it, else step back two bytes (one
    before [p]); stepping before the start of the file raises [OSError] and
    the handler seeks to 0. *)
Fixpoint scan_back (data : string) (p : nat) : nat :=
  match String.get p data with
  | Some c =>
      if decide (c = nl) then S p
      else match p with O => O | S p' => scan_back data p' end
  | None => match p with O => O | S p' => scan_back data p' end
  end.

(** Lines 467-474: the text of the last line. *)
Definition last_line (data : string) : string :=
  let size := String.length data in
  let pos := if (size <? 2)%nat then 0%nat else scan_back data (size - 2) in
  readline (Str.drop pos data).

(** What [json.loads(line).get("lex_path")] does on a line: raises, yields
    [None] (no such key, or null), or yields the list. *)
Inductive Loaded := NotJson | NoLexPath | LexPathIs (p : LexPath).

(** How the output file is opened. *)
Inductive OpenMode := Truncate | Append.

(** One entry of the work queue: [(href, path, continue_from, dept_name)]. *)
Definition Job : Type := string * LexPath * option LexPath * string.

(** How [collect_regulations_for_state] ends.  [Crashed] is an exception
    that leaves the function. *)
Inductive Outcome :=
| UnknownState
| Crashed
| Finished (mode : OpenMode) (continue_from : option LexPath) (st : State).

Section Run.

Context {Up : Upper}.

Variable site : string -> Page.
(** [json.loads(line).get("lex_path")] *)
Variable loads_lex_path : string -> Loaded.

(** [get_last_lex_path] on the prior output file ([None]: no such file);
    [inr tt] is an exception. *)
Definition get_last_lex_path (prior : option string) : option LexPath + unit :=
  match prior with
  | None => inl None
  | Some data =>
      if (String.length data =? 0)%nat then inl None
      else match loads_lex_path (last_line data) with
           | NotJson => inr tt
           | NoLexPath => inl None
           | LexPathIs p => inl (Some p)
           end
  end.

(** Lines 696-702: the cursor and the mode of the output file. *)
Definition resume_setup (resume : bool) (prior : option string)
  : (option LexPath * OpenMode) + unit :=
  if resume then
    match get_last_lex_path prior with
    | inl (Some p) => inl (Some p, Append)
    | inl None => inl (None, Truncate)
    | inr e => inr e
    end
  else inl (None, Truncate).

(** Lines 751-753. *)
Definition start_branch_index (continue_from : option LexPath) : nat :=
  if truthy continue_from then default 0%nat (default [] continue_from !! 0%nat) else 0%nat.

(** The body of the loop of lines 755-763: the job put on the queue for
    one link, if any. *)
Definition enqueue_one (continue_from : option LexPath) (start_branch_idx : nat)
    (item : nat * NodeLink) : option Job :=
  let '(i, link) := item in
  if (i <? start_branch_idx)%nat then None
  else
    let branch_continue_from :=
      if (i =? start_branch_idx)%nat && truthy continue_from
      then continue_from else None in
    Some (href link, [i], branch_continue_from, text link).

(** Lines 751-763: the jobs put on the queue. *)
Definition enqueue_jobs (continue_from : option LexPath) (links : list NodeLink) : list Job :=
  omap (enqueue_one continue_from (start_branch_index continue_from)) (enumerate links).

(** [worker], alone on the queue. *)
Fixpoint worker (fuel : nat) (state_abb : string) (work_queue : list Job) (st : State)
  : option State :=
  match work_queue with
  | [] => Some st
  | (href, path, continue_from, dept_name) :: rest =>
      match scrape_branch site state_abb REGULATIONS_BASE_URL fuel
              (REGULATIONS_BASE_URL +:+ href) path continue_from st with
      | Some st' => worker fuel state_abb rest st'
      | None => None
      end
  end.

(** [collect_regulations_for_state] with one worker thread (the default
    of [num_threads]); [None] only when the recursion budget is used up. *)
Definition collect_regulations_for_state (fuel : nat) (state_abb : string)
    (resume : bool) (prior : option string) : option Outcome :=
  match JUR_URL_MAP !! state_abb with
  | None => Some UnknownState
  | Some state_name =>
      let state_init_url := REGULATIONS_BASE_URL +:+ "/states/" +:+ state_name +:+ "/" in
      match resume_setup resume prior with
      | inr _ => Some Crashed
      | inl (continue_from, mode) =>
          let '(response, st) := fetch_with_retry site Startup state_init_url init_state in
          match response with
          | Listing links =>
              let links := filter (fun link => is_reserved_or_repealed (text link) = false) links in
              match worker fuel state_abb (enqueue_jobs continue_from links) st with
              | Some st' => Some (Finished mode continue_from st')
              | None => None
              end
          | _ => Some (Finished mode continue_from st)
          end
      end
  end.

End Run.

(** ** The verification pass ([validate_regs.py]) *)

(** One entry of [get_top_level_sections]: [{"name", "url", "index"}]. *)
Record TopSection := { sec_name : string; sec_url : string; sec_index : nat }.

(** One line of the order check's report: the record index and the two
    paths of "Out of order at record i: prev > current". *)
Record OrderIssue := { at_record : nat; prev_path : LexPath; current_path : LexPath }.

(** What [validate_state] finds for one section. *)
Record SectionReport := {
  rep_name : string;
  rep_index : nat;
  is_complete : bool;
  missing : list string;
  extra : list string;
  is_ordered : bool;
  order_issues : list OrderIssue }.

(** [sorted(...)] of a set of strings. *)
Definition sorted (s : gset string) : list string := merge_sort String.le (elements s).

(** [url + '/'] unless it already ends with one (lines 76-77, 121-122). *)
Definition with_trailing_slash (url : string) : string :=
  if Str.endswith "/" url then url else url +:+ "/".

Definition validate_section_completeness (section_name : string)
    (expected_urls actual_urls : gset string) : bool * list string * list string :=
  let missing := sorted (expected_urls ∖ actual_urls) in
  let extra := sorted (actual_urls ∖ expected_urls) in
  let is_complete := (length missing =? 0)%nat in
  (is_complete, missing, extra).

(** The loop of [validate_section_order], with [prev_path] and [issues] as
    its state. *)
Fixpoint order_loop (records : list (nat * Rec)) (prev : option LexPath)
    (issues : list OrderIssue) : list OrderIssue :=
  match records with
  | [] => issues
  | (i, record) :: rest =>
      let current := rec_lex_path record in
      let issues :=
        match prev with
        | Some prev =>
            if list_gtb prev current
            then issues ++ [{| at_record := i; prev_path := prev; current_path := current |}]
            else issues
        | None => issues
        end in
      order_loop rest (Some current) issues
  end.

Definition validate_section_order (section_records : list Rec) : bool * list OrderIssue :=
  let issues := order_loop (enumerate section_records) None [] in
  ((length issues =? 0)%nat, issues).

Section Validator.

Context {Up : Upper}.

Variable site : string -> Page.

Definition get_top_level_sections (base_url : string) : list TopSection :=
  match site base_url with
  | Listing links =>
      omap (fun '(i, link) =>
              if is_reserved_or_repealed (text link) then None
              else if malformed_href (href link) then None
              else Some {| sec_name := text link;
                           sec_url := with_trailing_slash
                                        ("https://regulations.justia.com" +:+ href link);
                           sec_index := i |})
           (enumerate links)
  | _ => []
  end.

(** The loop of [_walk] over [enumerate(links)], with the recursive call
    as a parameter; the URLs found are appended to [urls]. *)
Fixpoint walk_links (self : string -> LexPath -> nat -> list string -> option (list string))
    (path : LexPath) (depth : nat) (links : list (nat * NodeLink)) (urls : list string)
  : option (list string) :=
  match links with
  | [] => Some urls
  | (i, link) :: rest =>
      if is_reserved_or_repealed (text link) then walk_links self path depth rest urls
      else if malformed_href (href link) then walk_links self path depth rest urls
      else
        let child_url := with_trailing_slash ("https://regulations.justia.com" +:+ href link) in
        match self child_url (path ++ [i]) (depth + 1)%nat urls with
        | Some urls' => walk_links self path depth rest urls'
        | None => None
        end
  end.

(** [_walk]; [None] only when the recursion budget is used up. *)
Fixpoint _walk (fuel : nat) (max_depth : nat) (url : string) (path : LexPath) (depth : nat)
    (urls : list string) : option (list string) :=
  match fuel with
  | O => None
  | S fuel' =>
      if (max_depth <=? depth)%nat then Some urls
      else match site url with
           | NoPage _ => Some urls
           | Listing links =>
               walk_links (_walk fuel' max_depth) path depth (enumerate links) urls
           | Regulation _ => Some (urls ++ [url])
           end
  end.

Definition walk_section (fuel : nat) (section_url : string) (section_path : LexPath)
  : option (list string) :=
  _walk fuel 20 section_url section_path 0 [].

(** Lines 355-359: group the records by the first element of their
    lex_path. *)
Definition group_by_section (all_records : list Rec) : gmap nat (list Rec) :=
  foldl (fun records_by_section record =>
           match rec_lex_path record with
           | section_idx :: _ =>
               <[section_idx := default [] (records_by_section !! section_idx) ++ [record]]>
                 records_by_section
           | [] => records_by_section
           end)
        ∅ all_records.

(** The body of the loop of lines 379-433 for one section. *)
Definition validate_one (fuel : nat) (records_by_section : gmap nat (list Rec))
    (section : TopSection) : option SectionReport :=
  match walk_section fuel (sec_url section) [sec_index section] with
  | None => None
  | Some expected_urls =>
      let actual_section_records := default [] (records_by_section !! sec_index section) in
      let actual_urls : gset string := list_to_set (rec_url <$> actual_section_records) in
      let '(is_complete, missing, extra) :=
        validate_section_completeness (sec_name section) (list_to_set expected_urls) actual_urls in
      let '(is_ordered, order_issues) := validate_section_order actual_section_records in
      Some {| rep_name := sec_name section; rep_index := sec_index section;
              is_complete := is_complete; missing := missing; extra := extra;
              is_ordered := is_ordered; order_issues := order_issues |}
  end.

(** [validate_state] for a known state: the report of every section. *)
Definition validate_state (fuel : nat) (state_name_lower : string) (all_records : list Rec)
  : option (list SectionReport) :=
  let base_url := "https://regulations.justia.com/states/" +:+ state_name_lower +:+ "/" in
  let records_by_section := group_by_section all_records in
  mapM (validate_one fuel records_by_section) (get_top_level_sections base_url).

End Validator.

(** ** Notions used to state the properties *)

(** The total order of the data model, in the spec's words: compare
    element-wise; a strict prefix sorts before its extensions. *)
Inductive lex_lt : LexPath -> LexPath -> Prop :=
| lex_lt_prefix y b : lex_lt [] (y :: b)
| lex_lt_head x y a b : x < y -> lex_lt (x :: a) (y :: b)
| lex_lt_tail x a b : lex_lt a b -> lex_lt (x :: a) (x :: b).

(** The issues reported when the records from position [k] on, with paths
    [paths], follow a record with path [prev]. *)
Fixpoint issues_from (k : nat) (prev : LexPath) (paths : list LexPath) : list OrderIssue :=
  match paths with
  | [] => []
  | c :: rest =>
      (if list_ltb c prev then [{| at_record := k; prev_path := prev; current_path := c |}] else [])
      ++ issues_from (S k) c rest
  end.


(** A record that carries the path [p] and nothing else. *)
Definition bare_record (p : LexPath) : Rec :=
  {| rec_url := ""; rec_state := ""; rec_path := ""; rec_title := "";
     rec_univ_cite := false; rec_citation := None; rec_content := "";
     rec_lex_path := p |}.

(** No newline byte in a line. *)
Fixpoint newline_free (s : string) : bool :=
  match s with
  | EmptyString => true
  | String c s' => if decide (c = nl) then false else newline_free s'
  end.

(** The line terminator, if the line has one. *)
Definition terminator (terminated : bool) : string :=
  if terminated then String nl EmptyString else EmptyString.

(** [enumerate] from index [k] on: the part of the loop still to run. *)
Definition enumerate_from {A} (k : nat) (l : list A) : list (nat * A) :=
  imap (fun i x => (k + i, x)) l.

(** The state once [scrape_branch] has marked [url] visited and sent its
    request (lines 504-506). *)
Definition entered (url : string) (st : State) : State :=
  note_request Classify url (add_visited url st).

(** The record written for a leaf. *)
Definition leaf_record (state_abb url : string) (lex_path : LexPath) (d : LeafData) : Rec :=
  {| rec_url := url; rec_state := state_abb; rec_path := clean_path d;
     rec_title := title_str d; rec_univ_cite := has_univ_cite d;
     rec_citation := citation d; rec_content := content d;
     rec_lex_path := lex_path |}.

(** The cursor handed to child [i] (lines 547-549). *)
Definition child_cursor (continue_from : option LexPath) (start_idx i : nat) : option LexPath :=
  if truthy continue_from && (start_idx <? i)%nat then None else continue_from.

(** Records compared by their paths. *)
Definition rec_lt (r1 r2 : Rec) : Prop := lex_lt (rec_lex_path r1) (rec_lex_path r2).

(** The records written by a call at [path]: all below [path], none
    deeper than 20 unless [path] itself is, in increasing order. *)
Definition writes_below (path : LexPath) (st st' : State) : Prop :=
  exists new, jsonl st' = jsonl st ++ new
    /\ Forall (fun r => exists rest, rec_lex_path r = path ++ rest
                 /\ length (rec_lex_path r) <= max 20 (length path)) new
    /\ StronglySorted rec_lt new.

(** The records written by the loop from child [k] on. *)
Definition writes_from (path : LexPath) (k : nat) (st st' : State) : Prop :=
  exists new, jsonl st' = jsonl st ++ new
    /\ Forall (fun r => exists i rest, k <= i /\ rec_lex_path r = path ++ i :: rest
                 /\ length (rec_lex_path r) <= 20) new
    /\ StronglySorted rec_lt new.

(** ** Sample sites *)

(** A site given by its pages; every other URL answers 404. *)
Definition site_of (pages : list (string * Page)) : string -> Page :=
  fun url => default (NoPage "404") ((list_to_map pages : gmap string Page) !! url).

Definition link (text href : string) : NodeLink := {| text := text; href := href |}.

(** A regulation page whose extraction succeeds. *)
Definition regulation (title : string) : Page :=
  Regulation (Extracted {| clean_path := "Administrative Rules of Montana"; title_str := title;
                           has_univ_cite := false; citation := None; content := title |}).

Definition montana : string := "https://regulations.justia.com/states/montana/".

(** Two departments with two rules each. *)
Definition two_departments : string -> Page :=
  site_of
    [(montana, Listing [link "Department 1" "/states/montana/d1/";
                        link "Department 2" "/states/montana/d2/"]);
     (montana +:+ "d1/", Listing [link "Rule 1.1" "/states/montana/d1/r1/";
                                   link "Rule 1.2" "/states/montana/d1/r2/"]);
     (montana +:+ "d2/", Listing [link "Rule 2.1" "/states/montana/d2/r1/";
                                   link "Rule 2.2" "/states/montana/d2/r2/"]);
     (montana +:+ "d1/r1/", regulation "Rule 1.1");
     (montana +:+ "d1/r2/", regulation "Rule 1.2");
     (montana +:+ "d2/r1/", regulation "Rule 2.1");
     (montana +:+ "d2/r2/", regulation "Rule 2.2")].

(** A parser of the last line that stands for [json.loads] on a file
    whose last record carries the path [p]. *)
Definition loads_const (p : LexPath) : string -> Loaded := fun _ => LexPathIs p.

#[global] Instance Caller_eq_dec : EqDecision Caller.
Proof. solve_decision. Defined.

(** The checks of lines 523-536 that come before the depth check: the
    link is at or after the start index, not excluded, not malformed. *)
Definition passes_filters {Up : Upper} (start_idx : nat) (item : nat * NodeLink) : bool :=
  negb (item.1 <? start_idx)%nat
  && negb (is_reserved_or_repealed (text item.2))
  && negb (malformed_href (href item.2)).

Definition is_malformed_warning (w : Warning) : Prop := exists url, w = MalformedURL url.

(** The path of the department at the head of a chain, and below. *)
Definition chain_href (k : nat) : string :=
  "/states/montana/" +:+ String.concat "" (replicate k "d/").

(** A chain: for [k < depth] the page at level [k] lists one link, to level
    [k + 1]; the page at level [depth] is [bottom].  Level 0 is the state's
    start page; the page at level [k] gets a path of length [k]. *)
Definition chain (depth : nat) (bottom : Page) : string -> Page :=
  site_of
    ((fun k => (REGULATIONS_BASE_URL +:+ chain_href k,
                if (k <? depth)%nat then Listing [link "Part" (chain_href (S k))] else bottom))
       <$> seq 0 (S depth)).

(** The synthetic hierarchy of depth 25, with a regulation at the bottom. *)
Definition chain_25 : string -> Page := chain 25 (regulation "Rule").

(** A chain whose page at level 20 lists only a reserved part. *)
Definition chain_20_reserved : string -> Page :=
  chain 20 (Listing [link "Part 21 (Reserved)" (chain_href 21)]).

(** The state a finished run leaves. *)
Definition final_state (outcome : option Outcome) : option State :=
  match outcome with
  | Some (Finished _ _ st) => Some st
  | _ => None
  end.



(** A department that links back to itself and to the state's start page. *)
Definition cyclic_site : string -> Page :=
  site_of
    [(montana, Listing [link "Department 1" "/states/montana/d1/"]);
     (montana +:+ "d1/", Listing [link "Department 1" "/states/montana/d1/";
                                   link "Montana" "/states/montana/";
                                   link "Rule 1.1" "/states/montana/d1/r1/"]);
     (montana +:+ "d1/r1/", regulation "Rule 1.1")].

(** A reserved title listed before a title in force. *)
Definition reserved_first : string -> Page :=
  site_of
    [(montana, Listing [link "Title 1 (Reserved)" "/states/montana/t1/";
                        link "Title 2" "/states/montana/t2/"]);
     (montana +:+ "t2/", Listing [link "Rule 2.1" "/states/montana/t2/r1/"]);
     (montana +:+ "t2/r1/", regulation "Rule 2.1")].

(** A start page whose first link has a doubled slash; the department
    behind its second link has one as well. *)
Definition malformed_top : string -> Page :=
  site_of
    [(montana, Listing [link "Department 1" "/states/montana//d1/";
                        link "Department 2" "/states/montana/d2/"]);
     (montana +:+ "d2/", Listing [link "Rule 2.1" "/states/montana/d2//r1/"])].

(** ** The hierarchy of a site *)

(** The start page of a state (line 688). *)
Definition state_init_url (state_name : string) : string :=
  REGULATIONS_BASE_URL +:+ "/states/" +:+ state_name +:+ "/".

Section Hierarchy.

Context {Up : Upper}.

Variable site : string -> Page.
(** The start page. *)
Variable root : string.

(** [reaches path url]: the page [url] sits at position [path] of the
    hierarchy below the start page.  A top-level section gets its index
    among the links of the start page that are not excluded; deeper, a
    child gets its index among all links of its parent, and is part of
    the hierarchy if its link is neither excluded nor malformed and the
    parent is less than 20 levels down. *)
Inductive reaches : LexPath -> string -> Prop :=
| reach_section links i link :
    site root = Listing links ->
    filter (fun l => is_reserved_or_repealed (text l) = false) links !! i = Some link ->
    reaches [i] (REGULATIONS_BASE_URL +:+ href link)
| reach_child path url links i link :
    reaches path url -> length path < 20 ->
    site url = Listing links -> links !! i = Some link ->
    is_reserved_or_repealed (text link) = false -> malformed_href (href link) = false ->
    reaches (path ++ [i]) (REGULATIONS_BASE_URL +:+ href link).

(** Every page has one position: no URL is linked from two places. *)
Definition tree_like : Prop :=
  forall p q u, reaches p u -> reaches q u -> p = q.

(** A leaf: a page without navigation region whose extraction succeeds. *)
Definition leaf_at (path : LexPath) (url : string) (d : LeafData) : Prop :=
  reaches path url /\ site url = Regulation (Extracted d).

(** The pages at and below [(path, url)], unfolded [n] levels deep. *)
Fixpoint nodes_below (n : nat) (url : string) (path : LexPath) : list (LexPath * string) :=
  (path, url) ::
  match n with
  | O => []
  | S n' =>
      match site url with
      | Listing links =>
          if (20 <=? length path)%nat then []
          else
            '(i, link) ← enumerate links;
            if is_reserved_or_repealed (text link) || malformed_href (href link) then []
            else nodes_below n' (REGULATIONS_BASE_URL +:+ href link) (path ++ [i])
      | _ => []
      end
  end.

(** All positions and pages of the hierarchy. *)
Definition hierarchy : list (LexPath * string) :=
  match site root with
  | Listing links =>
      '(i, link) ← enumerate (filter (fun l => is_reserved_or_repealed (text l) = false) links);
      nodes_below 20 (REGULATIONS_BASE_URL +:+ href link) [i]
  | _ => []
  end.

End Hierarchy.

(** The cursor [cf], if active, is strictly before [p]. *)
Definition after (cf : option LexPath) (p : LexPath) : Prop :=
  forall c, cf = Some c -> c ≠ [] -> lex_lt c p.

(** The cursor [cf], if active, lies on the branch of [path]. *)
Definition cursor_fits (cf : option LexPath) (path : LexPath) : Prop :=
  forall c, cf = Some c -> c ≠ [] -> path `prefix_of` c \/ c `prefix_of` path.

(** [q] lies below child [k] or a later child of [path]. *)
Definition below_from (path : LexPath) (k : nat) (q : LexPath) : Prop :=
  exists i rest, k <= i /\ q = path ++ i :: rest.

Section CrawlSpec.

Context {Up : Upper}.

Variable site : string -> Page.
Variables state_abb root : string.

(** [new] holds the records of exactly the leaves whose position
    satisfies [sel]. *)
Definition records_of (sel : LexPath -> Prop) (new : list Rec) : Prop :=
  forall r, r ∈ new <->
    exists p u d, r = leaf_record state_abb u p d /\ leaf_at site root p u d /\ sel p.

(** No page visited so far lies at or below [path]. *)
Definition unvisited_below (path : LexPath) (st : State) : Prop :=
  forall u, u ∈ visited_urls st -> exists q, reaches site root q u /\ ¬ path `prefix_of` q.

(** No page visited so far lies below child [k] or a later child of
    [path]. *)
Definition unvisited_from (path : LexPath) (k : nat) (st : State) : Prop :=
  forall u, u ∈ visited_urls st -> exists q, reaches site root q u /\ ¬ below_from path k q.

(** From [st] to [st'] the leaves at or below [path] that the cursor
    does not prune were written, and only pages at or below [path] were
    visited. *)
Definition call_result (path : LexPath) (cf : option LexPath) (st st' : State) : Prop :=
  exists new, jsonl st' = jsonl st ++ new
    /\ records_of (fun p => path `prefix_of` p /\ after cf p) new
    /\ (forall u, u ∈ visited_urls st' ->
          u ∈ visited_urls st \/ exists q, reaches site root q u /\ path `prefix_of` q).

(** The same for the children of [path] from [k] on. *)
Definition loop_result (path : LexPath) (cf : option LexPath) (k : nat) (st st' : State)
  : Prop :=
  exists new, jsonl st' = jsonl st ++ new
    /\ records_of (fun p => below_from path k p /\ after cf p) new
    /\ (forall u, u ∈ visited_urls st' ->
          u ∈ visited_urls st \/ exists q, reaches site root q u /\ below_from path k q).

(** What a call at a page of the hierarchy does, for a cursor that is
    none or [c] and fits. *)
Definition call_spec (c : LexPath) (url : string) (path : LexPath) (cf : option LexPath)
    (st st' : State) : Prop :=
  reaches site root path url -> (cf = None \/ cf = Some c) -> cursor_fits cf path ->
  unvisited_below path st -> call_result path cf st st'.

(** What the loop of that call does from child [k] on. *)
Definition loop_spec (c : LexPath) (url : string) (path : LexPath) (cf : option LexPath)
    (s k : nat) (st st' : State) : Prop :=
  reaches site root path url -> (cf = None \/ cf = Some c) -> cursor_fits cf path ->
  s = start_index path cf ->
  unvisited_from path k st -> loop_result path cf k st st'.

End CrawlSpec.

(** Four titles: a branch with one rule, a title that is itself a
    regulation, a title with three chapters (of one, five and one rules),
    and a branch with one rule.  The leaf at position [2, 1, 3] is the
    fourth rule of the second chapter of the third title. *)
Definition four_titles : string -> Page :=
  site_of
    [(montana, Listing [link "Title 0" "/states/montana/t0/"; link "Title 1" "/states/montana/t1/";
                        link "Title 2" "/states/montana/t2/"; link "Title 3" "/states/montana/t3/"]);
     (montana +:+ "t0/", Listing [link "Rule 0.0" "/states/montana/t0/r0/"]);
     (montana +:+ "t0/r0/", regulation "Rule 0.0");
     (montana +:+ "t1/", regulation "Title 1");
     (montana +:+ "t2/", Listing [link "Chapter 0" "/states/montana/t2/c0/";
                                   link "Chapter 1" "/states/montana/t2/c1/";
                                   link "Chapter 2" "/states/montana/t2/c2/"]);
     (montana +:+ "t2/c0/", Listing [link "Rule 2.0.0" "/states/montana/t2/c0/r0/"]);
     (montana +:+ "t2/c0/r0/", regulation "Rule 2.0.0");
     (montana +:+ "t2/c1/", Listing [link "Rule 2.1.0" "/states/montana/t2/c1/r0/";
                                      link "Rule 2.1.1" "/states/montana/t2/c1/r1/";
                                      link "Rule 2.1.2" "/states/montana/t2/c1/r2/";
                                      link "Rule 2.1.3" "/states/montana/t2/c1/r3/";
                                      link "Rule 2.1.4" "/states/montana/t2/c1/r4/"]);
     (montana +:+ "t2/c1/r0/", regulation "Rule 2.1.0");
     (montana +:+ "t2/c1/r1/", regulation "Rule 2.1.1");
     (montana +:+ "t2/c1/r2/", regulation "Rule 2.1.2");
     (montana +:+ "t2/c1/r3/", regulation "Rule 2.1.3");
     (montana +:+ "t2/c1/r4/", regulation "Rule 2.1.4");
     (montana +:+ "t2/c2/", Listing [link "Rule 2.2.0" "/states/montana/t2/c2/r0/"]);
     (montana +:+ "t2/c2/r0/", regulation "Rule 2.2.0");
     (montana +:+ "t3/", Listing [link "Rule 3.0" "/states/montana/t3/r0/"]);
     (montana +:+ "t3/r0/", regulation "Rule 3.0")].

(** [needle] occurs in [text] up to the case of ASCII letters. *)
Definition occurs_ci (needle text : string) : Prop :=
  exists pre mid post, text = pre +:+ mid +:+ post /\ Str.ascii_upper mid = Str.ascii_upper needle.


(** [u] is the target of a link of the listing page [parent] whose text is
    not excluded. *)
Definition followed {Up : Upper} (site : string -> Page) (site_url parent u : string) : Prop :=
  exists links l, site parent = Listing links /\ l ∈ links
    /\ is_reserved_or_repealed (text l) = false /\ u = site_url +:+ href l.



(** ** Requests with retry ([fetch_with_retry], lines 126-227) *)

Module Retry.

(** What the caller sees of a response: its status code and its
    [Retry-After] header, if any. *)
Record Response := { status_code : Z; retry_after : option string }.

(** What [scraper.get(url, timeout=30)] does on one attempt: it raises an
    exception of type [error_type] whose text is [e], or it answers. *)
Inductive Attempt :=
| Raises (error_type e : string)
| Answers (response : Response).

(** What [time.sleep(n)] does for an integer [n]: it sleeps, raises
    [ValueError] (a negative [n]), or raises another exception (an [n] too
    large for the clock). *)
Inductive SleepOutcome :=
| Sleeps
| SleepValueError
| SleepRaises (error_type e : string).

(** The lines printed. *)
Inductive Message :=
| HttpError (status_code : Z) (url note : string)
| RateLimitedWaiting (wait_time : Z)
| RateLimitedWaiting60
| TimeoutError (url : string)
| ConnectionError (url e : string)
| RequestError (url error_type e : string)
| UnexpectedError (url : string).

(** What happens, in order: the pause before a request (line 182), the
    request itself, a printed line, a pause of [n] seconds (lines 207 and
    210), and the pause of the retry policy after attempt
    [attempt_number]. *)
Inductive Event :=
| SleepRequestDelay
| Get (url : string)
| Print (m : Message)
| SleepSeconds (n : Z)
| SleepBackoff (attempt_number : nat).

Definition _is_good_response (response : option Response) : bool :=
  match response with
  | Some response => (status_code response =? 200)%Z
  | None => false
  end.

(** The text appended to "HTTP <status> error for <url>" (lines 188-197). *)
Definition status_note (status_code : Z) : string :=
  if (status_code =? 403)%Z then " - FORBIDDEN: Access denied"
  else if (status_code =? 404)%Z then " - NOT FOUND: Page doesn't exist"
  else if (status_code =? 429)%Z then " - RATE LIMITED: Too many requests"
  else if (status_code =? 500)%Z then " - SERVER ERROR: Internal server error"
  else if (status_code =? 503)%Z then " - SERVICE UNAVAILABLE: Server temporarily unavailable"
  else "".

Section Fetch.

Variable url : string.
(** [int(retry_after)]; [None] is [ValueError]. *)
Variable parse_int : string -> option Z.
Variable sleep : Z -> SleepOutcome.

(** The handler of lines 213-221. *)
Definition exception_message (error_type e : string) : Message :=
  if Str.contains "Timeout" error_type then TimeoutError url
  else if Str.contains "Connection" error_type then ConnectionError url e
  else RequestError url error_type e.

(** Lines 201-210: what a 429 answer with the header [retry_after] does;
    [inr] is an exception that is not a [ValueError]. *)
Definition rate_limit_wait (retry_after : option string)
  : list Event + (list Event * (string * string)) :=
  match retry_after with
  | Some header =>
      if bool_decide (header = "") then inl []
      else
        match parse_int header with
        | Some wait_time =>
            match sleep wait_time with
            | Sleeps => inl [Print (RateLimitedWaiting wait_time); SleepSeconds wait_time]
            | SleepValueError =>
                inl [Print (RateLimitedWaiting wait_time); Print RateLimitedWaiting60;
                     SleepSeconds 60]
            | SleepRaises error_type e =>
                inr ([Print (RateLimitedWaiting wait_time)], (error_type, e))
            end
        | None => inl [Print RateLimitedWaiting60; SleepSeconds 60]
        end
  | None => inl []
  end.

(** [_fetch] on an attempt that goes as [a] says: the value returned and
    what happened. *)
Definition _fetch (a : Attempt) : option Response * list Event :=
  match a with
  | Raises error_type e =>
      (None, [SleepRequestDelay; Get url; Print (exception_message error_type e)])
  | Answers response =>
      let printed :=
        if (status_code response =? 200)%Z then []
        else [Print (HttpError (status_code response) url (status_note (status_code response)))] in
      if (status_code response =? 429)%Z then
        match rate_limit_wait (retry_after response) with
        | inl waited => (Some response, [SleepRequestDelay; Get url] ++ printed ++ waited)
        | inr (waited, (error_type, e)) =>
            (None, [SleepRequestDelay; Get url] ++ printed ++ waited
                     ++ [Print (exception_message error_type e)])
        end
      else (Some response, [SleepRequestDelay; Get url] ++ printed)
  end.

(** [_fetch] under its retry policy (lines 173-178): attempts are numbered
    from 1; a good result is returned; after another one the policy gives
    up with [RetryError] ([inr tt]) once [attempt_number >= max_retries + 1]
    and otherwise waits and tries again.  [server k] is what the [k]-th
    request meets.  [None] only when the budget [fuel] of attempts is used
    up. *)
Fixpoint retrying (fuel : nat) (max_retries : Z) (server : nat -> Attempt)
    (attempt_number : nat) : option ((option Response + unit) * list Event) :=
  match fuel with
  | O => None
  | S fuel' =>
      let '(result, events) := _fetch (server attempt_number) in
      if _is_good_response result then Some (inl result, events)
      else if (max_retries + 1 <=? Z.of_nat attempt_number)%Z then Some (inr tt, events)
      else
        match retrying fuel' max_retries server (S attempt_number) with
        | Some (r, events') => Some (r, events ++ [SleepBackoff attempt_number] ++ events')
        | None => None
        end
  end.

(** [fetch_with_retry]: lines 223-227 around the retried [_fetch]. *)
Definition fetch_with_retry (fuel : nat) (max_retries : Z) (server : nat -> Attempt)
  : option (option Response * list Event) :=
  match retrying fuel max_retries server 1 with
  | Some (inl response, events) => Some (response, events)
  | Some (inr _, events) => Some (None, events ++ [Print (UnexpectedError url)])
  | None => None
  end.

End Fetch.

(** The number of requests among the events. *)
Definition is_get (ev : Event) : bool :=
  match ev with
  | Get _ => true
  | _ => false
  end.

Definition gets (events : list Event) : nat := length (List.filter is_get events).

(** The number of pauses of the retry policy among the events. *)
Definition is_backoff (ev : Event) : bool :=
  match ev with
  | SleepBackoff _ => true
  | _ => false
  end.

Definition backoffs (events : list Event) : nat := length (List.filter is_backoff events).

(** An attempt that yields a good response: an answer with status 200. *)
Definition good_attempt (a : Attempt) : bool :=
  match a with
  | Answers response => (status_code response =? 200)%Z
  | Raises _ _ => false
  end.

(** The number of attempts the retry policy allows: [max_retries + 1], and
    one if that is less. *)
Definition attempts_allowed (max_retries : Z) : nat := Z.to_nat (Z.max 1 (max_retries + 1)).

End Retry.

(** ** The text of a regulation page ([process_regulation_leaf]) *)

(** [s.split('\n')] *)
Fixpoint split_lines (s : string) : list string :=
  match s with
  | EmptyString => [EmptyString]
  | String c s' =>
      if decide (c = nl) then EmptyString :: split_lines s'
      else match split_lines s' with
           | line :: lines => String c line :: lines
           | [] => [String c EmptyString]
           end
  end.

(** The breadcrumb separator, U+203A. *)
Definition breadcrumb_sep : string := "›".

Section LeafText.

(** [s.strip()] *)
Variable strip : string -> string.

(** The test of line 298 on a stripped segment, apart from
    [not start_collecting]. *)
Definition starts_path (segment : string) : bool :=
  (Str.contains "Rules" segment || Str.contains "Code" segment)
  && negb (bool_decide (segment = "U.S. Regulations")).

(** The loop of lines 295-301, with [start_collecting] and [filtered_path]
    as its state. *)
Fixpoint filter_path_loop (path_arr : list string) (start_collecting : bool)
    (filtered_path : list string) : list string :=
  match path_arr with
  | [] => filtered_path
  | segment :: rest =>
      let segment := strip segment in
      let start_collecting :=
        if negb start_collecting && starts_path segment then true else start_collecting in
      let filtered_path :=
        if start_collecting then filtered_path ++ [segment] else filtered_path in
      filter_path_loop rest start_collecting filtered_path
  end.

(** Lines 293-301: the breadcrumb segments kept. *)
Definition filtered_path (path_arr : list string) : list string :=
  filter_path_loop path_arr false [].

(** Line 304: the [path] field of the record. *)
Definition clean_path_of (path_arr : list string) : string :=
  String.concat breadcrumb_sep (filtered_path path_arr).

(** The loop of lines 406-411, with [cleaned_lines] as its state. *)
Fixpoint clean_loop (lines : list string) (cleaned_lines : list string) : list string :=
  match lines with
  | [] => cleaned_lines
  | line :: rest =>
      let stripped := strip line in
      let cleaned_lines :=
        if negb (bool_decide (stripped = "")) then cleaned_lines ++ [stripped]
        else if negb (bool_decide (cleaned_lines = []))
                && negb (bool_decide (last cleaned_lines = Some ""))
        then cleaned_lines ++ [""]
        else cleaned_lines in
      clean_loop rest cleaned_lines
  end.

(** The loop of lines 413-414: drop the last line while it is empty;
    [fuel] bounds the number of rounds. *)
Fixpoint pop_blank (fuel : nat) (cleaned_lines : list string) : list string :=
  match fuel with
  | O => cleaned_lines
  | S fuel' =>
      if negb (bool_decide (cleaned_lines = [])) && bool_decide (last cleaned_lines = Some "")
      then pop_blank fuel' (removelast cleaned_lines)
      else cleaned_lines
  end.

(** Lines 404-414: the lines kept. *)
Definition cleaned_lines (lines : list string) : list string :=
  let cleaned_lines := clean_loop lines [] in
  pop_blank (length cleaned_lines) cleaned_lines.

(** Lines 404-416: the [content] field from the text of the collected
    markup. *)
Definition clean_content (content : string) : string :=
  String.concat (String nl EmptyString) (cleaned_lines (split_lines content)).

End LeafText.

(** ASCII white space: the characters 9 to 13, 28 to 32. *)
Definition is_space (c : ascii) : bool :=
  let n := nat_of_ascii c in
  ((9 <=? n)%nat && (n <=? 13)%nat) || ((28 <=? n)%nat && (n <=? 32)%nat).

Fixpoint lstrip (s : string) : string :=
  match s with
  | EmptyString => EmptyString
  | String c s' => if is_space c then lstrip s' else s
  end.

Fixpoint rstrip (s : string) : string :=
  match s with
  | EmptyString => EmptyString
  | String c s' =>
      match rstrip s' with
      | EmptyString => if is_space c then EmptyString else String c EmptyString
      | r => String c r
      end
  end.

(** [s.strip()] on ASCII text. *)
Definition strip_ascii (s : string) : string := rstrip (lstrip s).

(** Every empty line of [l] stands between two lines that are not
    empty. *)
Definition blanks_separate (l : list string) : Prop :=
  forall i, l !! i = Some "" ->
    exists j a b, i = S j /\ l !! j = Some a /\ l !! S i = Some b /\ a ≠ "" /\ b ≠ "".

(** The lines of [l] that are not empty. *)
Definition nonblank (l : list string) : list string := filter (fun s => s ≠ "") l.

(** The lines [clean_loop] adds for [lines], given whether an empty line
    may not come next ([no_blank]: nothing is kept so far, or the line kept
    last is empty). *)
Fixpoint collapse (strip : string -> string) (no_blank : bool) (lines : list string)
  : list string :=
  match lines with
  | [] => []
  | line :: rest =>
      if bool_decide (strip line = "") then
        if no_blank then collapse strip no_blank rest else "" :: collapse strip true rest
      else strip line :: collapse strip false rest
  end.

(** No empty line comes first ([no_blank]) or follows an empty line. *)
Fixpoint separated (no_blank : bool) (l : list string) : Prop :=
  match l with
  | [] => True
  | x :: rest =>
      if bool_decide (x = "") then no_blank = false /\ separated true rest
      else separated false rest
  end.

(** A breadcrumb segment that mentions "Rules" or "Code". *)
Definition mentions_code (segment : string) : bool :=
  Str.contains "Rules" segment || Str.contains "Code" segment.

(** The records whose lex_path starts with [section_idx]. *)
Definition in_section (section_idx : nat) (all_records : list Rec) : list Rec :=
  filter (fun record => head (rec_lex_path record) = Some section_idx) all_records.

(** ** What becomes of a page requested *)

(** The page [u] is accounted for by the records [recs] and the failure
    entries [fails]: a listing is followed; a page that does not answer, a
    regulation whose extraction raises and one whose second request fails
    leave the failure entry of their kind; a regulation whose extraction
    succeeds leaves its record. *)
Definition accounted_for (site : string -> Page) (state_abb : string)
    (recs : list Rec) (fails : list FailEntry) (u : string) : Prop :=
  match site u with
  | NoPage status => FailedStatus u status ∈ fails
  | Listing _ => True
  | Regulation (Extracted d) => exists p, leaf_record state_abb u p d ∈ recs
  | Regulation (ExtractRaises e) => FailedLeaf u e ∈ fails
  | Regulation (ExtractNoPage _) => FailedLeafFetch u ∈ fails
  end.

(** From [st] to [st'] every page requested by [scrape_branch] is
    accounted for by what was written and logged in between, apart from
    the regulation pages [skipped]. *)
Definition accounted (site : string -> Page) (state_abb : string) (skipped : list string)
    (st st' : State) : Prop :=
  exists reqs recs fails,
    requests st' = requests st ++ reqs
    /\ jsonl st' = jsonl st ++ recs
    /\ failed_file st' = failed_file st ++ fails
    /\ (forall u, (Classify, u) ∈ reqs ->
          u ∈ skipped \/ accounted_for site state_abb recs fails u)
    /\ Forall (fun u => exists body, site u = Regulation body) skipped.

(** The number of pages a call with the cursor [cf] may skip. *)
Definition skips_allowed (cf : option LexPath) : nat := if truthy cf then 1 else 0.



(** ** The verdict of [validate_state] *)

(** The counters of lines 367-372. *)
Record Totals := {
  total_complete : nat;
  total_incomplete : nat;
  total_ordered : nat;
  total_unordered : nat;
  total_missing : nat;
  total_extra : nat }.

(** What the loop of lines 379-433 adds to the counters for one section. *)
Definition count_section (t : Totals) (report : SectionReport) : Totals :=
  let t :=
    if is_complete report then
      {| total_complete := total_complete t + 1; total_incomplete := total_incomplete t;
         total_ordered := total_ordered t; total_unordered := total_unordered t;
         total_missing := total_missing t; total_extra := total_extra t |}
    else
      {| total_complete := total_complete t; total_incomplete := total_incomplete t + 1;
         total_ordered := total_ordered t; total_unordered := total_unordered t;
         total_missing := total_missing t + length (missing report);
         total_extra := total_extra t + length (extra report) |} in
  if is_ordered report then
    {| total_complete := total_complete t; total_incomplete := total_incomplete t;
       total_ordered := total_ordered t + 1; total_unordered := total_unordered t;
       total_missing := total_missing t; total_extra := total_extra t |}
  else
    {| total_complete := total_complete t; total_incomplete := total_incomplete t;
       total_ordered := total_ordered t; total_unordered := total_unordered t + 1;
       total_missing := total_missing t; total_extra := total_extra t |}.

Definition totals (reports : list SectionReport) : Totals :=
  foldl count_section
    {| total_complete := 0; total_incomplete := 0; total_ordered := 0; total_unordered := 0;
       total_missing := 0; total_extra := 0 |}
    reports.

(** Line 452: the file is reported valid. *)
Definition all_good (t : Totals) : bool :=
  (total_incomplete t =? 0)%nat && (total_unordered t =? 0)%nat.

(** ** What the walk of a section finds *)

Section Walk.

Context {Up : Upper}.

Variable site : string -> Page.

(** [found depth url u]: the walk that enters the page [url] at [depth]
    reports [u]: [url] itself if it answers without a listing, and else
    what is found one level down behind a link of [url] that is neither
    excluded nor malformed; nothing from depth 20 on. *)
Inductive found : nat -> string -> string -> Prop :=
| found_here depth url body :
    depth < 20 -> site url = Regulation body -> found depth url url
| found_below depth url links link u :
    depth < 20 -> site url = Listing links -> link ∈ links ->
    is_reserved_or_repealed (text link) = false -> malformed_href (href link) = false ->
    found (S depth) (with_trailing_slash ("https://regulations.justia.com" +:+ href link)) u ->
    found depth url u.

End Walk.

(** The body of the loop of lines 67-83: the section made of one link, if
    any. *)
Definition top_section {Up : Upper} (item : nat * NodeLink) : option TopSection :=
  let '(i, link) := item in
  if is_reserved_or_repealed (text link) then None
  else if malformed_href (href link) then None
  else Some {| sec_name := text link;
               sec_url := with_trailing_slash ("https://regulations.justia.com" +:+ href link);
               sec_index := i |}.

(** ** When crawler and verifier agree *)

(** Every link of every listing page ends with a slash. *)
Definition hrefs_end_in_slash (site : string -> Page) : Prop :=
  forall url links l, site url = Listing links -> l ∈ links -> Str.endswith "/" (href l) = true.

(** The extraction succeeds on every regulation page. *)
Definition all_extracted (site : string -> Page) : Prop :=
  forall u body, site u = Regulation body -> exists d, body = Extracted d.

(** No link of the start page is excluded. *)
Definition no_section_excluded {Up : Upper} (site : string -> Page) (root : string) : Prop :=
  forall links, site root = Listing links ->
    Forall (fun l => is_reserved_or_repealed (text l) = false) links.

(** The report of a section that is complete and ordered. *)
Definition clean_report (section : TopSection) : SectionReport :=
  {| rep_name := sec_name section; rep_index := sec_index section;
     is_complete := true; missing := []; extra := [];
     is_ordered := true; order_issues := [] |}.

(** The two conditions on the links, checked on the pages of a site given
    by its pages. *)
Definition pages_well_formed (pages : list (string * Page)) : bool :=
  forallb (fun entry : string * Page =>
             match entry.2 with
             | Listing links => forallb (fun l => Str.endswith "/" (href l)) links
             | Regulation (Extracted _) => true
             | Regulation _ => false
             | NoPage _ => true
             end) pages.



(** ** Malformed links and warnings *)

(** [u] is the target of a link of the listing page [parent] that is
    neither excluded nor malformed. *)
Definition followed_clean {Up : Upper} (site : string -> Page) (site_url parent u : string) : Prop :=
  exists links l, site parent = Listing links /\ l ∈ links
    /\ is_reserved_or_repealed (text l) = false /\ malformed_href (href l) = false
    /\ u = site_url +:+ href l.

(** A warning is justified by a page among [known]: a malformed-URL
    warning names a malformed link, not excluded, of a listing page; a
    depth warning names a listing page and the depth 20. *)
Definition justified {Up : Upper} (site : string -> Page) (site_url : string) (known : string -> Prop)
    (w : Warning) : Prop :=
  match w with
  | MalformedURL u =>
      exists parent links l, known parent /\ site parent = Listing links /\ l ∈ links
        /\ is_reserved_or_repealed (text l) = false /\ malformed_href (href l) = true
        /\ u = site_url +:+ href l
  | ExcessiveDepth depth url =>
      depth = 20 /\ known url /\ exists links, site url = Listing links
  end.

(** From [st] to [st'] every page requested is one that [entry] admits or
    the target of a link, neither excluded nor malformed, of a listing
    page requested in between; every warning printed is justified by a
    page of [before] or one requested in between. *)
Definition careful {Up : Upper} (site : string -> Page) (site_url : string)
    (entry before : string -> Prop) (st st' : State) : Prop :=
  exists reqs warns,
    requests st' = requests st ++ reqs
    /\ warnings st' = warnings st ++ warns
    /\ Forall (fun r => entry r.2
                 \/ exists parent, (Classify, parent) ∈ reqs
                      /\ followed_clean site site_url parent r.2) reqs
    /\ Forall (justified site site_url (fun p => before p \/ (Classify, p) ∈ reqs)) warns.



(** ** What the logs say is true of the site *)






(** The double quote. *)
Definition dq : string := String "034"%char EmptyString.

(** A line of the output, reduced to its lex_path field:
    the JSON object with the one key lex_path and the value [2, 1, 3]. *)
Definition sample_line : string := "{" +:+ dq +:+ "lex_path" +:+ dq +:+ ": [2, 1, 3]}".

(** [json.loads(line).get("lex_path")] on the lines of the examples:
    [sample_line] carries the path [2, 1, 3]; the empty object carries
    none; every other line used, a blank one or a record cut off, is not
    a JSON document. *)
Definition loads_sample (line : string) : Loaded :=
  if bool_decide (line = sample_line) || bool_decide (line = sample_line +:+ String nl "")
  then LexPathIs [2; 1; 3]
  else if bool_decide (line = "{}") || bool_decide (line = "{}" +:+ String nl "")
  then NoLexPath
  else NotJson.

(** The upper-casing the sample sites are run with: their texts are
    ASCII. *)
#[global] Instance ascii_upper : Upper := Str.ascii_upper.

(** * Properties *)

(** ** The string primitives and the path order on examples *)

Example upper_ex : Str.ascii_upper "Chapter 5 (Repealed)" = "CHAPTER 5 (REPEALED)".
Proof. reflexivity. Qed.

Example replace_ex : Str.replace "://" "" "https://a//b" = "httpsa//b".
Proof. reflexivity. Qed.

Example malformed_ex1 : malformed_href "/states/montana//" = true.
Proof. reflexivity. Qed.

Example malformed_ex2 : malformed_href "https://x/states/montana/" = false.
Proof. reflexivity. Qed.

Example list_ltb_ex : list_ltb [0;0] [0;1] = true /\ list_ltb [0] [0;0] = true /\ list_ltb [0;1] [0;0] = false.
Proof. repeat split. Qed.

(** ** The order on paths *)

Lemma list_ltb_spec a b : list_ltb a b = true <-> lex_lt a b.
Proof.
  revert b. induction a as [|x a IH]; intros [|y b]; simpl.
  - split; [discriminate | inversion 1].
  - split; [constructor | done].
  - split; [discriminate | inversion 1].
  - destruct (Nat.ltb_spec x y) as [Hxy|Hxy].
    + split; [intros _; by constructor | done].
    + destruct (Nat.ltb_spec y x) as [Hyx|Hyx].
      * split; [discriminate | inversion 1; subst; lia].
      * assert (x = y) as -> by lia. rewrite IH.
        split; [by constructor | inversion 1; subst; [lia | done]].
Qed.

Lemma lex_lt_irrefl a : ¬ lex_lt a a.
Proof. induction a; inversion 1; subst; [lia | auto]. Qed.

Lemma lex_lt_trans a b c : lex_lt a b -> lex_lt b c -> lex_lt a c.
Proof.
  intros Hab. revert c. induction Hab; intros c Hbc; inversion Hbc; subst.
  - constructor.
  - constructor.
  - constructor; lia.
  - by constructor.
  - by constructor.
  - apply lex_lt_tail. auto.
Qed.

Lemma lex_lt_total a b : lex_lt a b \/ a = b \/ lex_lt b a.
Proof.
  revert b. induction a as [|x a IH]; intros [|y b].
  - auto.
  - left; constructor.
  - right; right; constructor.
  - destruct (lt_eq_lt_dec x y) as [[H| ->]|H].
    + left; by constructor.
    + destruct (IH b) as [H|[->|H]]; [left | auto | right; right]; by constructor.
    + right; right; by constructor.
Qed.

Lemma lex_lt_app p a b : lex_lt a b <-> lex_lt (p ++ a) (p ++ b).
Proof.
  induction p as [|x p IH]; simpl; [done|].
  rewrite IH. split; [by constructor | inversion 1; subst; [lia | done]].
Qed.

(** ** The order validator *)

Lemma order_loop_from k (records : list Rec) prev acc :
  order_loop (imap (fun i x => (k + i, x)) records) (Some prev) acc
  = acc ++ issues_from k prev (rec_lex_path <$> records).
Proof.
  revert k prev acc. induction records as [|r records IH]; intros k prev acc; simpl.
  - by rewrite app_nil_r.
  - rewrite (imap_ext _ (fun i x => (S k + i, x))) by (intros; simpl; f_equal; lia).
    rewrite IH. unfold list_gtb. replace (k + 0) with k by lia.
    destruct (list_ltb _ prev); by rewrite <- ?app_assoc.
Qed.

Lemma validate_section_order_issues records :
  (validate_section_order records).2
  = match rec_lex_path <$> records with
    | [] => []
    | p :: rest => issues_from 1 p rest
    end.
Proof.
  unfold validate_section_order, enumerate. destruct records as [|r records]; simpl; [done|].
  rewrite (imap_ext _ (fun i x => (1 + i, x))) by done.
  by rewrite order_loop_from.
Qed.

Lemma elem_of_issues_from k prev paths iss :
  iss ∈ issues_from k prev paths <->
  exists j p c, iss = {| at_record := k + j; prev_path := p; current_path := c |}
    /\ (prev :: paths) !! j = Some p /\ paths !! j = Some c /\ lex_lt c p.
Proof.
  revert k prev. induction paths as [|c0 paths IH]; intros k prev; simpl.
  - split; [inversion 1 | intros (j & p & c & _ & _ & H & _); done].
  - rewrite elem_of_app, IH. split.
    + intros [H | (j & p & c & -> & Hp & Hc & Hlt)].
      * destruct (list_ltb c0 prev) eqn:E; [|inversion H].
        apply list_elem_of_singleton in H as ->. exists 0, prev, c0.
        rewrite Nat.add_0_r. repeat split; by apply list_ltb_spec.
      * exists (S j), p, c. repeat split; try done. f_equal; lia.
    + intros ([|j] & p & c & -> & Hp & Hc & Hlt); simpl in *.
      * left. simplify_eq. apply list_ltb_spec in Hlt. rewrite Hlt.
        rewrite Nat.add_0_r. by apply list_elem_of_singleton.
      * right. exists j, p, c. repeat split; try done. f_equal; lia.
Qed.

Lemma issues_from_positions k prev paths :
  StronglySorted lt (at_record <$> issues_from k prev paths)
  /\ Forall (fun i => k <= i) (at_record <$> issues_from k prev paths).
Proof.
  revert k prev. induction paths as [|c paths IH]; intros k prev; simpl.
  - split; constructor.
  - destruct (IH (S k) c) as [Hs Hf].
    destruct (list_ltb c prev); simpl.
    + split.
      * constructor; [done|]. eapply Forall_impl; [exact Hf|]. simpl; lia.
      * constructor; [lia|]. eapply Forall_impl; [exact Hf|]. simpl; lia.
    + split; [done|]. eapply Forall_impl; [exact Hf|]. simpl; lia.
Qed.

Lemma validate_section_order_char (section_records : list Rec) :
  let paths := rec_lex_path <$> section_records in
  let '(is_ordered, issues) := validate_section_order section_records in
  (forall iss, iss ∈ issues <->
     exists i p c, iss = {| at_record := S i; prev_path := p; current_path := c |}
       /\ paths !! i = Some p /\ paths !! S i = Some c /\ lex_lt c p)
  /\ StronglySorted lt (at_record <$> issues)
  /\ (is_ordered = true <->
        forall i p c, paths !! i = Some p -> paths !! S i = Some c -> ¬ lex_lt c p).
Proof.
  intros paths.
  pose proof (validate_section_order_issues section_records) as Hiss.
  destruct (validate_section_order section_records) as [ok issues] eqn:E.
  simpl in Hiss. fold paths in Hiss.
  assert (Hok : ok = true <-> issues = []).
  { unfold validate_section_order in E. injection E as <- <-.
    destruct (order_loop _ _ _); simpl; split; done. }
  assert (Hchar : forall iss, iss ∈ issues <->
     exists i p c, iss = {| at_record := S i; prev_path := p; current_path := c |}
       /\ paths !! i = Some p /\ paths !! S i = Some c /\ lex_lt c p).
  { intros iss. rewrite Hiss. destruct paths as [|p0 rest].
    - split; [inversion 1 | intros (i & p & c & _ & H & _); done].
    - rewrite elem_of_issues_from. by simpl. }
  split; [exact Hchar|]. split.
  - rewrite Hiss. destruct paths; [constructor | apply issues_from_positions].
  - rewrite Hok. split.
    + intros -> i p c Hp Hc Hlt.
      assert (H : {| at_record := S i; prev_path := p; current_path := c |} ∈ @nil OrderIssue)
        by (apply Hchar; eauto 10).
      inversion H.
    + intros Hno. destruct issues as [|iss issues]; [done|]. exfalso.
      destruct (proj1 (Hchar iss)) as (i & p & c & _ & Hp & Hc & Hlt); [left|].
      exact (Hno i p c Hp Hc Hlt).
Qed.

(** C7. On every list of section records, [validate_section_order] reports
    an issue exactly at the positions [i + 1] whose record has a path
    strictly below the path of record [i] in the order [lex_lt], each
    position once and in increasing order, and answers "ordered" iff there
    is no such position.  On the records with paths [0,0], [0,1], [0,0] it
    reports one issue, between the records at index 1 and 2. *)
Theorem validate_section_order_spec :
  (forall section_records : list Rec,
     let paths := rec_lex_path <$> section_records in
     let '(is_ordered, issues) := validate_section_order section_records in
     (forall iss, iss ∈ issues <->
        exists i p c, iss = {| at_record := S i; prev_path := p; current_path := c |}
          /\ paths !! i = Some p /\ paths !! S i = Some c /\ lex_lt c p)
     /\ StronglySorted lt (at_record <$> issues)
     /\ (is_ordered = true <->
           forall i p c, paths !! i = Some p -> paths !! S i = Some c -> ¬ lex_lt c p))
  /\ validate_section_order [bare_record [0; 0]; bare_record [0; 1]; bare_record [0; 0]]
     = (false, [{| at_record := 2; prev_path := [0; 1]; current_path := [0; 0] |}]).
Proof. split; [exact validate_section_order_char | reflexivity]. Qed.

(** ** The completeness diff *)

Lemma sorted_spec (s : gset string) :
  (forall u, u ∈ sorted s <-> u ∈ s)
  /\ StronglySorted String.le (sorted s)
  /\ NoDup (sorted s).
Proof.
  unfold sorted. split; [|split].
  - intros u. rewrite merge_sort_Permutation. apply elem_of_elements.
  - apply (StronglySorted_merge_sort _).
  - rewrite merge_sort_Permutation. apply NoDup_elements.
Qed.

Lemma sorted_nil (s : gset string) : sorted s = [] <-> s = ∅.
Proof.
  destruct (sorted_spec s) as (Hin & _ & _). split.
  - intros E. apply set_eq. intros u. rewrite <- Hin, E.
    split; [inversion 1 | intros H; by apply not_elem_of_empty in H].
  - intros ->. destruct (sorted ∅) as [|u l] eqn:E; [done|].
    assert (H : u ∈ (∅ : gset string)) by (apply Hin; left).
    by apply not_elem_of_empty in H.
Qed.

(** C8. For every expected set [E] and actual set [A],
    [validate_section_completeness] returns as missing the elements of
    [E ∖ A] and as extra the elements of [A ∖ E], each sorted and without
    repetition, and judges the section complete iff nothing is missing, that
    is iff [E ⊆ A], whatever is extra.  For expected {A,B,C} and persisted
    {A,C,D} it reports missing [B] and extra [D]. *)
Theorem validate_section_completeness_spec :
  (forall (section_name : string) (E A : gset string),
     let '(complete, missing, extra) := validate_section_completeness section_name E A in
     (forall u, u ∈ missing <-> u ∈ E ∖ A)
     /\ (forall u, u ∈ extra <-> u ∈ A ∖ E)
     /\ StronglySorted String.le missing /\ NoDup missing
     /\ StronglySorted String.le extra /\ NoDup extra
     /\ (complete = true <-> missing = [])
     /\ (complete = true <-> E ⊆ A))
  /\ validate_section_completeness "s" {["A"; "B"; "C"]} {["A"; "C"; "D"]}
     = (false, ["B"], ["D"]).
Proof.
  split; [|by vm_compute].
  intros section_name E A. unfold validate_section_completeness.
  destruct (sorted_spec (E ∖ A)) as (Hm & Hms & Hmn).
  destruct (sorted_spec (A ∖ E)) as (Hx & Hxs & Hxn).
  repeat split; try done; try apply Hm; try apply Hx.
  - destruct (sorted (E ∖ A)); simpl; done.
  - intros ->. done.
  - intros H. assert (sorted (E ∖ A) = []) as H0 by (destruct (sorted (E ∖ A)); simpl in *; done).
    apply sorted_nil in H0. intros u Hu. destruct (decide (u ∈ A)) as [|Hn]; [done|].
    assert (Hd : u ∈ E ∖ A) by (apply elem_of_difference; done).
    rewrite H0 in Hd. by apply not_elem_of_empty in Hd.
  - intros H. assert (E ∖ A = ∅) as H0.
    { apply set_eq. intros u. rewrite elem_of_difference.
      split; [intros [Hu Hn]; by apply H in Hu | intros Hu; by apply not_elem_of_empty in Hu]. }
    apply sorted_nil in H0. by rewrite H0.
Qed.

(** ** Recovering the resume cursor *)

Lemma str_app_nil (s : string) : "" +:+ s = s.
Proof. reflexivity. Qed.

Lemma str_app_cons (c : ascii) (a b : string) : String c a +:+ b = String c (a +:+ b).
Proof. reflexivity. Qed.

Lemma drop_app_length (pre s : string) : Str.drop (String.length pre) (pre +:+ s) = s.
Proof.
  induction pre; rewrite ?str_app_nil, ?str_app_cons; simpl; [by destruct s | done].
Qed.

Lemma get_app_r (pre s : string) (n : nat) :
  String.get (String.length pre + n) (pre +:+ s) = String.get n s.
Proof. induction pre; rewrite ?str_app_nil, ?str_app_cons; simpl; done. Qed.

Lemma get_app_l (pre s : string) (n : nat) :
  n < String.length pre -> String.get n (pre +:+ s) = String.get n pre.
Proof.
  revert n. induction pre as [|c pre IH]; rewrite ?str_app_nil, ?str_app_cons; simpl;
    intros n Hn; [lia|].
  destruct n; [done|]. apply IH. lia.
Qed.

Lemma str_app_assoc (a b c : string) : (a +:+ b) +:+ c = a +:+ (b +:+ c).
Proof. induction a; rewrite ?str_app_nil, ?str_app_cons; [done | by f_equal]. Qed.

Lemma str_length_app (a b : string) :
  String.length (a +:+ b) = String.length a + String.length b.
Proof. induction a; rewrite ?str_app_nil, ?str_app_cons; simpl; [done | by f_equal]. Qed.

Lemma newline_free_get (line : string) (n : nat) (c : ascii) :
  newline_free line = true -> String.get n line = Some c -> c ≠ nl.
Proof.
  revert n. induction line as [|a line IH]; simpl; intros n Hf Hg; [done|].
  destruct (decide (a = nl)); [done|]. destruct n; [by simplify_eq|]. eauto.
Qed.

Lemma get_ge_None (s : string) (n : nat) : String.length s <= n -> String.get n s = None.
Proof.
  revert n. induction s as [|a s IH]; simpl; intros n Hn; [done|].
  destruct n; [lia|]. apply IH. lia.
Qed.

Lemma readline_line (line : string) (terminated : bool) :
  newline_free line = true ->
  readline (line +:+ terminator terminated) = line +:+ terminator terminated.
Proof.
  induction line as [|a line IH]; rewrite ?str_app_nil, ?str_app_cons; simpl; intros Hf.
  - by destruct terminated.
  - destruct (decide (a = nl)); [done|]. by rewrite IH.
Qed.

(** The backward scan stops behind the newline at position [k - 1], or at
    the start of the file, when no newline lies between [k] and the
    position it starts from. *)
Lemma scan_back_spec (data : string) (k p : nat) :
  (forall q c, k <= q <= p -> String.get q data = Some c -> c ≠ nl) ->
  (k = 0 \/ String.get (k - 1) data = Some nl) ->
  k <= S p ->
  scan_back data p = k.
Proof.
  intros Hfree Hk. induction p as [|p IH]; intros Hle; simpl.
  - destruct (decide (k = 0)) as [->|Hk0].
    + destruct (String.get 0 data) as [c|] eqn:E; [|done].
      destruct (decide (c = nl)) as [->|]; [|done].
      exfalso. by eapply (Hfree 0); [lia | exact E |].
    + assert (k = 1) as -> by lia. destruct Hk as [|Hk]; [lia|].
      simpl in Hk. rewrite Hk. by destruct (decide (nl = nl)).
  - destruct (decide (k = S (S p))) as [->|Hne].
    + destruct Hk as [|Hk]; [lia|]. simpl in Hk. rewrite Hk.
      by destruct (decide (nl = nl)).
    + assert (Hrec : scan_back data p = k).
      { apply IH; [|lia]. intros q c Hq. apply Hfree. lia. }
      destruct (String.get (S p) data) as [c|] eqn:E; [|done].
      destruct (decide (c = nl)) as [->|]; [|done].
      exfalso. by eapply (Hfree (S p)); [lia | exact E |].
Qed.

(** On a file made of complete lines followed by one more line, with or
    without its newline, lines 467-474 read that line. *)
Lemma last_line_spec (pre line : string) (terminated : bool) :
  (pre = "" \/ exists pre', pre = pre' +:+ String nl "") ->
  newline_free line = true ->
  (line ≠ "" \/ terminated = true) ->
  last_line (pre +:+ line +:+ terminator terminated) = line +:+ terminator terminated.
Proof.
  intros Hpre Hfree Hne. unfold last_line.
  assert (Hterm : String.length (terminator terminated) <= 1) by (destruct terminated; simpl; lia).
  assert (Hrest : 1 <= String.length line + String.length (terminator terminated)).
  { destruct Hne as [Hne| ->]; simpl; [|lia]. destruct line; [done | simpl; lia]. }
  assert (Hpos : (if (String.length (pre +:+ line +:+ terminator terminated) <? 2)%nat then 0
                  else scan_back (pre +:+ line +:+ terminator terminated)
                         (String.length (pre +:+ line +:+ terminator terminated) - 2))
                 = String.length pre).
  { rewrite !str_length_app.
    destruct (Nat.ltb_spec (String.length pre + (String.length line
                + String.length (terminator terminated))) 2) as [Hs|Hs]; [lia|].
    apply scan_back_spec; [| |lia].
    - intros q c Hq Hg.
      replace q with (String.length pre + (q - String.length pre)) in Hg by lia.
      rewrite get_app_r in Hg.
      rewrite get_app_l in Hg; [by eapply newline_free_get | lia].
    - destruct Hpre as [->|[pre' ->]]; [by left | right].
      rewrite str_length_app. simpl.
      replace (String.length pre' + 1 - 1) with (String.length pre' + 0) by lia.
      rewrite str_app_assoc. by rewrite get_app_r. }
  rewrite Hpos, drop_app_length. by apply readline_line.
Qed.

(** A prior output that ends in an object without lex_path: the file is
    not empty, yet the cursor is none and the file is opened for
    truncation, so the run overwrites it.  A prior output that ends in a
    blank line, or in a record cut off: recovering the cursor raises and
    the run ends there. *)
Lemma last_line_without_lex_path :
  let nl := String nl "" in
  (resume_setup loads_sample true (Some (sample_line +:+ nl +:+ "{}" +:+ nl))
   = inl (None, Truncate)
   /\ exists st,
        collect_regulations_for_state two_departments loads_sample 20 "MT" true
          (Some (sample_line +:+ nl +:+ "{}" +:+ nl))
        = Some (Finished Truncate None st))
  /\ (resume_setup loads_sample true (Some (sample_line +:+ nl +:+ nl)) = inr tt
      /\ collect_regulations_for_state two_departments loads_sample 20 "MT" true
           (Some (sample_line +:+ nl +:+ nl))
         = Some Crashed)
  /\ (resume_setup loads_sample true
        (Some (sample_line +:+ nl +:+ "{" +:+ dq +:+ "lex_path" +:+ dq +:+ ": [2, 1"))
      = inr tt).
Proof.
  cbn zeta. split; [split|split; [split|]].
  - reflexivity.
  - eexists. vm_compute. reflexivity.
  - reflexivity.
  - vm_compute. reflexivity.
  - reflexivity.
Qed.

(** C9 (amended).  When resume is requested and the prior output file does
    not exist or is empty, [get_last_lex_path] returns [None], the cursor
    is none and the output file is opened for truncation.  Otherwise the
    last line of the file decides.  If it is a JSON object that carries a
    lex_path, the cursor is that lex_path and the file is opened for
    appending.  If it is a JSON object without lex_path,
    [get_last_lex_path] returns [None], the cursor is none and the file is
    opened for truncation.  If it is no JSON document, [get_last_lex_path]
    raises, and so does the run, before the output file is opened.  The
    run reports the cursor and the mode that the start-up computed. *)
Theorem resume_setup_spec (loads_lex_path : string -> Loaded) :
  (forall prior, prior = None \/ prior = Some "" ->
     get_last_lex_path loads_lex_path prior = inl None
     /\ resume_setup loads_lex_path true prior = inl (None, Truncate))
  /\ (forall pre line terminated,
        (pre = "" \/ exists pre', pre = pre' +:+ String nl "") ->
        newline_free line = true ->
        (line ≠ "" \/ terminated = true) ->
        let prior := Some (pre +:+ line +:+ terminator terminated) in
        match loads_lex_path (line +:+ terminator terminated) with
        | LexPathIs p =>
            get_last_lex_path loads_lex_path prior = inl (Some p)
            /\ resume_setup loads_lex_path true prior = inl (Some p, Append)
        | NoLexPath =>
            get_last_lex_path loads_lex_path prior = inl None
            /\ resume_setup loads_lex_path true prior = inl (None, Truncate)
        | NotJson =>
            get_last_lex_path loads_lex_path prior = inr tt
            /\ resume_setup loads_lex_path true prior = inr tt
        end)
  /\ (forall (Up : Upper) site fuel state_abb resume prior mode continue_from st,
        collect_regulations_for_state site loads_lex_path fuel state_abb resume prior
        = Some (Finished mode continue_from st) ->
        resume_setup loads_lex_path resume prior = inl (continue_from, mode))
  /\ (forall (Up : Upper) site fuel state_abb state_name resume prior,
        JUR_URL_MAP !! state_abb = Some state_name ->
        resume_setup loads_lex_path resume prior = inr tt ->
        collect_regulations_for_state site loads_lex_path fuel state_abb resume prior
        = Some Crashed).
Proof.
  split; [|split; [|split]].
  - intros prior [-> | ->]; by cbn.
  - intros pre line terminated Hpre Hfree Hne prior.
    assert (Hget : get_last_lex_path loads_lex_path prior
                   = match loads_lex_path (line +:+ terminator terminated) with
                     | NotJson => inr tt
                     | NoLexPath => inl None
                     | LexPathIs p => inl (Some p)
                     end).
    { unfold prior, get_last_lex_path.
      destruct (Nat.eqb_spec (String.length (pre +:+ line +:+ terminator terminated)) 0) as [E|_].
      - rewrite !str_length_app in E. destruct Hne as [Hne| ->]; simpl in E; [|lia].
        destruct line; [done | simpl in E; lia].
      - by rewrite last_line_spec. }
    unfold resume_setup. rewrite Hget.
    by destruct (loads_lex_path (line +:+ terminator terminated)).
  - intros Up site fuel state_abb resume prior mode continue_from st.
    unfold collect_regulations_for_state.
    destruct (JUR_URL_MAP !! state_abb); [|done].
    destruct (resume_setup loads_lex_path resume prior) as [[c m]|]; [|done].
    simpl. destruct (site _); try destruct (worker _ _ _ _ _); intros; by simplify_eq.
  - intros Up site fuel state_abb state_name resume prior Hname Hsetup.
    unfold collect_regulations_for_state. by rewrite Hname, Hsetup.
Qed.

Lemma resume_setup_spec_witness :
  let nl := String nl "" in
  (get_last_lex_path loads_sample None = inl None
   /\ resume_setup loads_sample true None = inl (None, Truncate))
  /\ (get_last_lex_path loads_sample (Some ("{}" +:+ nl +:+ sample_line +:+ nl))
      = inl (Some [2; 1; 3])
      /\ resume_setup loads_sample true (Some ("{}" +:+ nl +:+ sample_line +:+ nl))
         = inl (Some [2; 1; 3], Append))
  /\ (get_last_lex_path loads_sample (Some (sample_line +:+ nl +:+ "{}")) = inl None
      /\ resume_setup loads_sample true (Some (sample_line +:+ nl +:+ "{}"))
         = inl (None, Truncate))
  /\ (get_last_lex_path loads_sample (Some (sample_line +:+ nl +:+ nl)) = inr tt
      /\ resume_setup loads_sample true (Some (sample_line +:+ nl +:+ nl)) = inr tt)
  /\ collect_regulations_for_state two_departments loads_sample 20 "MT" true
       (Some (sample_line +:+ nl +:+ nl))
     = Some Crashed.
Proof.
  cbn zeta. split; [|split; [|split; [|split]]].
  - apply (proj1 (resume_setup_spec loads_sample)). by left.
  - apply (proj1 (proj2 (resume_setup_spec loads_sample)) ("{}" +:+ String nl "") sample_line true).
    + right. by exists "{}".
    + reflexivity.
    + by right.
  - apply (proj1 (proj2 (resume_setup_spec loads_sample)) (sample_line +:+ String nl "") "{}" false).
    + right. by exists sample_line.
    + reflexivity.
    + by left.
  - apply (proj1 (proj2 (resume_setup_spec loads_sample)) (sample_line +:+ String nl "") "" true).
    + right. by exists sample_line.
    + reflexivity.
    + by right.
  - apply (proj2 (proj2 (proj2 (resume_setup_spec loads_sample))) _ two_departments 20 "MT"
             "montana" true).
    + reflexivity.
    + reflexivity.
Defined.

(** ** Rule induction for the crawler *)

Lemma enumerate_from_0 {A} (l : list A) : enumerate l = enumerate_from 0 l.
Proof. reflexivity. Qed.

Lemma enumerate_from_nil {A} (k : nat) : enumerate_from k (@nil A) = [].
Proof. reflexivity. Qed.

Lemma enumerate_from_cons {A} (k : nat) (x : A) (l : list A) :
  enumerate_from k (x :: l) = (k, x) :: enumerate_from (S k) l.
Proof.
  unfold enumerate_from. simpl. f_equal; [f_equal; lia|].
  apply imap_ext. intros; simpl; f_equal; lia.
Qed.

Lemma elem_of_enumerate_from {A} (k : nat) (l : list A) (i : nat) (x : A) :
  (i, x) ∈ enumerate_from k l <-> k <= i /\ l !! (i - k) = Some x.
Proof.
  revert k. induction l as [|y l IH]; intros k.
  - rewrite enumerate_from_nil. split; [inversion 1 | intros [_ H]; done].
  - rewrite enumerate_from_cons, elem_of_cons, IH. split.
    + intros [E | [Hle Hl]].
      * simplify_eq. split; [lia|]. by rewrite Nat.sub_diag.
      * split; [lia|]. by replace (i - k) with (S (i - S k)) by lia.
    + intros [Hle Hl]. destruct (decide (i = k)) as [->|Hne].
      * left. rewrite Nat.sub_diag in Hl. by simplify_eq/=.
      * right. split; [lia|]. by replace (i - k) with (S (i - S k)) in Hl by lia.
Qed.

Lemma drop_cons_inv {A} (k : nat) (all : list A) (x : A) (l : list A) :
  drop k all = x :: l -> drop (S k) all = l.
Proof.
  revert all. induction k as [|k IH]; intros [|y all]; simpl; try done.
  - intros [= _ ->]. by rewrite drop_0.
  - apply IH.
Qed.

Lemma drop_cons_lookup {A} (k : nat) (all : list A) (x : A) (l : list A) :
  drop k all = x :: l -> all !! k = Some x.
Proof.
  intros H. pose proof (lookup_drop all k 0) as E. rewrite H in E. simpl in E.
  by rewrite Nat.add_0_r in E.
Qed.

Section RuleInduction.

Context {Up : Upper}.

Variable site : string -> Page.
Variables state_abb site_url : string.

(** [P url path cf st st']: a call of [scrape_branch] takes [st] to [st'];
    [Q url path cf start k links st st']: so does the rest of the loop of
    the call at [url], from index [k] on. *)
Variable P : string -> LexPath -> option LexPath -> State -> State -> Prop.
Variable Q : string -> LexPath -> option LexPath -> nat -> nat -> list NodeLink ->
             State -> State -> Prop.

Hypothesis P_visited : forall url path cf st,
  url ∈ visited_urls st -> P url path cf st st.
Hypothesis P_nopage : forall url path cf st status,
  url ∉ visited_urls st -> site url = NoPage status ->
  P url path cf st (log_failure (FailedStatus url status) (entered url st)).
Hypothesis P_listing : forall url path cf st links st',
  url ∉ visited_urls st -> site url = Listing links ->
  Q url path cf (start_index path cf) 0 links (entered url st) st' ->
  P url path cf st st'.
Hypothesis P_resume_leaf : forall url path cf st body,
  url ∉ visited_urls st -> site url = Regulation body ->
  truthy cf = true -> cf = Some path ->
  P url path cf st (entered url st).
Hypothesis P_leaf : forall url path cf st d,
  url ∉ visited_urls st -> site url = Regulation (Extracted d) ->
  ¬ (truthy cf = true /\ cf = Some path) ->
  P url path cf st
    (write_record (leaf_record state_abb url path d) (note_request Extract url (entered url st))).
Hypothesis P_leaf_raises : forall url path cf st e,
  url ∉ visited_urls st -> site url = Regulation (ExtractRaises e) ->
  ¬ (truthy cf = true /\ cf = Some path) ->
  P url path cf st
    (log_failure (FailedLeaf url e) (note_request Extract url (entered url st))).
Hypothesis P_leaf_nopage : forall url path cf st status,
  url ∉ visited_urls st -> site url = Regulation (ExtractNoPage status) ->
  ¬ (truthy cf = true /\ cf = Some path) ->
  P url path cf st
    (log_failure (FailedLeafFetch url) (note_request Extract url (entered url st))).

(** In the rules of the loop, [all] are the links of the page and
    [link :: links] those from index [k] on. *)
Hypothesis Q_done : forall url path cf s all k st,
  site url = Listing all -> drop k all = [] ->
  Q url path cf s k [] st st.
Hypothesis Q_before : forall url path cf s all k link links st st',
  site url = Listing all -> drop k all = link :: links ->
  k < s ->
  Q url path cf s (S k) links st st' -> Q url path cf s k (link :: links) st st'.
Hypothesis Q_excluded : forall url path cf s all k link links st st',
  site url = Listing all -> drop k all = link :: links ->
  s <= k -> is_reserved_or_repealed (text link) = true ->
  Q url path cf s (S k) links st st' -> Q url path cf s k (link :: links) st st'.
Hypothesis Q_malformed : forall url path cf s all k link links st st',
  site url = Listing all -> drop k all = link :: links ->
  s <= k -> is_reserved_or_repealed (text link) = false ->
  malformed_href (href link) = true ->
  Q url path cf s (S k) links (print_warning (MalformedURL (site_url +:+ href link)) st) st' ->
  Q url path cf s k (link :: links) st st'.
Hypothesis Q_too_deep : forall url path cf s all k link links st,
  site url = Listing all -> drop k all = link :: links ->
  s <= k -> is_reserved_or_repealed (text link) = false ->
  malformed_href (href link) = false -> 20 <= length path ->
  Q url path cf s k (link :: links) st (print_warning (ExcessiveDepth (length path) url) st).
Hypothesis Q_child : forall url path cf s all k link links st st1 st',
  site url = Listing all -> drop k all = link :: links ->
  s <= k -> is_reserved_or_repealed (text link) = false ->
  malformed_href (href link) = false -> length path < 20 ->
  P (site_url +:+ href link) (path ++ [k]) (child_cursor cf s k) st st1 ->
  Q url path cf s (S k) links st1 st' ->
  Q url path cf s k (link :: links) st st'.

Lemma scrape_links_rule self url path cf s all :
  (forall u p c st st', self u p c st = Some st' -> P u p c st st') ->
  site url = Listing all ->
  forall links k st st',
    drop k all = links ->
    scrape_links site_url self url path cf s (enumerate_from k links) st = Some st' ->
    Q url path cf s k links st st'.
Proof.
  intros Hself Hsite. induction links as [|link links IH]; intros k st st' Hdrop.
  - rewrite enumerate_from_nil. simpl. intros [= <-]. by eapply Q_done.
  - assert (Hnext : drop (S k) all = links) by (by apply (drop_cons_inv k all link)).
    rewrite enumerate_from_cons. cbn -[Nat.leb Nat.ltb].
    destruct (Nat.ltb_spec k s) as [Hks|Hks]; [intros H; eapply Q_before; eauto|].
    destruct (is_reserved_or_repealed (text link)) eqn:Hex;
      [intros H; eapply Q_excluded; eauto|].
    destruct (malformed_href (href link)) eqn:Hmal;
      [intros H; eapply Q_malformed; eauto|].
    destruct (Nat.leb_spec 20 (length path)) as [Hd|Hd];
      [intros [= <-]; eapply Q_too_deep; eauto|].
    fold (child_cursor cf s k).
    destruct (self _ _ _ _) as [st1|] eqn:Hcall; [|done].
    intros H. eapply Q_child; eauto.
Qed.

Lemma scrape_branch_rule n url path cf st st' :
  scrape_branch site state_abb site_url n url path cf st = Some st' ->
  P url path cf st st'.
Proof.
  revert url path cf st st'. induction n as [|n IH]; intros url path cf st st'; [done|].
  simpl. case_bool_decide as Hvis; [intros [= <-]; by apply P_visited|].
  fold (entered url st).
  destruct (site url) as [status|links|body] eqn:Hsite.
  - intros [= <-]. by apply P_nopage.
  - rewrite enumerate_from_0. intros H. eapply P_listing; eauto.
    eapply scrape_links_rule; eauto.
  - destruct (truthy cf && bool_decide (cf = Some path)) eqn:Hres.
    + apply andb_true_iff in Hres as [Ht Hc]. apply bool_decide_eq_true in Hc.
      intros [= <-]. by eapply P_resume_leaf.
    + assert (Hno : ¬ (truthy cf = true /\ cf = Some path)).
      { intros [Ht Hc]. rewrite Ht in Hres. simpl in Hres.
        by apply bool_decide_eq_false in Hres. }
      unfold process_regulation_leaf. simpl.
      destruct body as [d|e|status]; simpl; intros [= <-].
      * by apply P_leaf.
      * by apply P_leaf_raises.
      * by eapply P_leaf_nopage.
Qed.

End RuleInduction.

(** ** Termination: the recursion budget *)

Section Budget.

Context {Up : Upper}.

Variable site : string -> Page.
Variables state_abb site_url : string.

Lemma scrape_branch_S n url path cf st :
  scrape_branch site state_abb site_url (S n) url path cf st
  = if bool_decide (url ∈ visited_urls st) then Some st
    else match site url with
         | Listing links =>
             scrape_links site_url (scrape_branch site state_abb site_url n) url path cf
               (start_index path cf) (enumerate links) (entered url st)
         | Regulation body =>
             if truthy cf && bool_decide (cf = Some path) then Some (entered url st)
             else match process_regulation_leaf site state_abb body url path (entered url st) with
                  | inl st' => Some st'
                  | inr (e, st') => Some (log_failure (FailedLeaf url e) st')
                  end
         | NoPage status => Some (log_failure (FailedStatus url status) (entered url st))
         end.
Proof. reflexivity. Qed.

Lemma scrape_links_total self url path cf s links st :
  (length path < 20 -> forall u c st, is_Some (self u (path ++ [0]) c st)
     /\ forall i, is_Some (self u (path ++ [i]) c st)) ->
  is_Some (scrape_links site_url self url path cf s links st).
Proof.
  intros Hself. revert st. induction links as [|[i link] links IH]; intros st.
  - by eexists.
  - cbn -[Nat.leb Nat.ltb].
    destruct (i <? s)%nat; [apply IH|].
    destruct (is_reserved_or_repealed (text link)); [apply IH|].
    destruct (malformed_href (href link)); [apply IH|].
    destruct (Nat.leb_spec 20 (length path)) as [Hd|Hd]; [by eexists|].
    destruct (Hself Hd (site_url +:+ href link)
                (if truthy cf && (s <? i)%nat then None else cf) st) as [_ Hi].
    destruct (Hi i) as [st1 ->]. apply IH.
Qed.

(** A budget of [21 - length path] calls is never used up. *)
Lemma scrape_branch_total n url path cf st :
  1 <= n -> 21 <= n + length path ->
  is_Some (scrape_branch site state_abb site_url n url path cf st).
Proof.
  revert url path cf st. induction n as [|n IH]; intros url path cf st Hn Hfuel; [lia|].
  rewrite scrape_branch_S. case_bool_decide; [by eexists|].
  destruct (site url) as [status|links|body] eqn:Hsite; [by eexists| |].
  - apply scrape_links_total. intros Hd u c st0.
    split; [|intros i]; apply IH; rewrite ?length_app; simpl; lia.
  - destruct (truthy cf && _); [by eexists|].
    destruct (process_regulation_leaf _ _ _ _ _ _) as [?|[? ?]]; by eexists.
Qed.

Lemma scrape_links_fuel_mono (self self' : string -> LexPath -> option LexPath -> State -> option State)
    url path cf s links st st' :
  (forall u p c st st', self u p c st = Some st' -> self' u p c st = Some st') ->
  scrape_links site_url self url path cf s links st = Some st' ->
  scrape_links site_url self' url path cf s links st = Some st'.
Proof.
  intros Hself. revert st. induction links as [|[i link] links IH]; intros st; [done|].
  cbn -[Nat.leb Nat.ltb].
  destruct (i <? s)%nat; [apply IH|].
  destruct (is_reserved_or_repealed (text link)); [apply IH|].
  destruct (malformed_href (href link)); [apply IH|].
  destruct (20 <=? length path)%nat; [done|].
  destruct (self _ _ _ _) as [st1|] eqn:E; [|done].
  rewrite (Hself _ _ _ _ _ E). apply IH.
Qed.

(** A larger budget gives the same result. *)
Lemma scrape_branch_fuel_mono n m url path cf st st' :
  n <= m ->
  scrape_branch site state_abb site_url n url path cf st = Some st' ->
  scrape_branch site state_abb site_url m url path cf st = Some st'.
Proof.
  revert m url path cf st st'. induction n as [|n IH]; intros m url path cf st st' Hnm; [done|].
  destruct m as [|m]; [lia|]. rewrite !scrape_branch_S.
  case_bool_decide; [done|].
  destruct (site url) as [status|links|body]; [done| |done].
  apply scrape_links_fuel_mono. intros u p c st0 st0'. apply IH. lia.
Qed.

End Budget.

Lemma worker_total {Up : Upper} site state_abb n jobs st :
  20 <= n -> Forall (fun j : Job => 1 <= length j.1.1.2) jobs ->
  is_Some (worker site n state_abb jobs st).
Proof.
  intros Hn Hjobs. revert st. induction Hjobs as [|[[[h p] c] d] jobs Hp _ IH]; intros st.
  - by eexists.
  - simpl in *.
    destruct (scrape_branch_total site state_abb REGULATIONS_BASE_URL n
                (REGULATIONS_BASE_URL +:+ h) p c st) as [st1 E]; [lia..|].
    rewrite E. apply IH.
Qed.

Lemma enqueue_jobs_paths cf links :
  Forall (fun j : Job => exists i, j.1.1.2 = [i]) (enqueue_jobs cf links).
Proof.
  unfold enqueue_jobs. apply Forall_forall. intros j Hj.
  apply list_elem_of_omap in Hj as ([i link] & _ & Hj). simpl in Hj.
  destruct (i <? _)%nat; simplify_eq. by exists i.
Qed.

(** The run always ends: a budget of 20 nested calls is enough for every
    site, state and prior output. *)
Lemma collect_regulations_for_state_total {Up : Upper} site loads n state_abb resume prior :
  20 <= n ->
  is_Some (collect_regulations_for_state site loads n state_abb resume prior).
Proof.
  intros Hn. unfold collect_regulations_for_state.
  destruct (JUR_URL_MAP !! state_abb); [|by eexists].
  destruct (resume_setup loads resume prior) as [[cf mode]|]; [|by eexists].
  simpl. destruct (site _) as [|links|]; try by eexists.
  destruct (worker_total site state_abb n
              (enqueue_jobs cf (filter (fun link => is_reserved_or_repealed (text link) = false) links))
              (note_request Startup (REGULATIONS_BASE_URL +:+ "/states/" +:+ s +:+ "/") init_state) Hn)
    as [st' ->]; [|by eexists].
  eapply Forall_impl; [apply enqueue_jobs_paths|]. intros j [i ->]. simpl. lia.
Qed.

(** ** The records a call writes: position, depth and order *)

Lemma lex_lt_sibling path i j rest1 rest2 :
  i < j -> lex_lt (path ++ i :: rest1) (path ++ j :: rest2).
Proof. intros Hij. apply lex_lt_app. by constructor. Qed.

Section Records.

Context {Up : Upper}.

Variable site : string -> Page.
Variables state_abb site_url : string.

Lemma writes_below_refl path st st' :
  jsonl st' = jsonl st -> writes_below path st st'.
Proof. intros E. exists []. rewrite app_nil_r. repeat split; [done | constructor..]. Qed.

Lemma writes_from_refl path k st st' :
  jsonl st' = jsonl st -> writes_from path k st st'.
Proof. intros E. exists []. rewrite app_nil_r. repeat split; [done | constructor..]. Qed.

Lemma writes_from_weaken path k st st0 st' :
  jsonl st0 = jsonl st -> writes_from path (S k) st0 st' -> writes_from path k st st'.
Proof.
  intros E (new & Hj & Hf & Hs). exists new. rewrite <- E. repeat split; [done| |done].
  eapply Forall_impl; [exact Hf|]. intros r (i & rest & Hi & Hr). exists i, rest. split; [lia|done].
Qed.

Lemma scrape_branch_writes n url path cf st st' :
  scrape_branch site state_abb site_url n url path cf st = Some st' ->
  writes_below path st st'.
Proof.
  apply (scrape_branch_rule site state_abb site_url
           (fun _ path _ st st' => writes_below path st st')
           (fun _ path _ _ k _ st st' => writes_from path k st st')); clear.
  - intros. by apply writes_below_refl.
  - intros. by apply writes_below_refl.
  - intros url path cf st links st' _ _ (new & Hj & Hf & Hs).
    exists new. repeat split; [done| |done].
    eapply Forall_impl; [exact Hf|]. intros r (i & rest & _ & Hr & Hlen).
    exists (i :: rest). split; [done | lia].
  - intros. by apply writes_below_refl.
  - intros url path cf st d _ _ _. exists [leaf_record state_abb url path d].
    split; [reflexivity|]. split; [|repeat constructor].
    constructor; [|constructor]. exists []. simpl. rewrite app_nil_r. split; [done | lia].
  - intros. by apply writes_below_refl.
  - intros. by apply writes_below_refl.
  - intros. by apply writes_from_refl.
  - intros. by eapply writes_from_weaken.
  - intros. by eapply writes_from_weaken.
  - intros url path cf s all k link links st st' _ _ _ _ _ H.
    by eapply writes_from_weaken; [|exact H].
  - intros. by apply writes_from_refl.
  - intros url path cf s all k link links st st1 st' _ _ _ _ _ Hd
      (new1 & Hj1 & Hf1 & Hs1) (new2 & Hj2 & Hf2 & Hs2).
    exists (new1 ++ new2). rewrite Hj2, Hj1, app_assoc. split; [done|]. split.
    + apply Forall_app. split.
      * eapply Forall_impl; [exact Hf1|]. intros r (rest & Hr & Hlen).
        exists k, rest. rewrite <- app_assoc in Hr. rewrite length_app in Hlen. simpl in *.
        repeat split; [lia | done | lia].
      * eapply Forall_impl; [exact Hf2|]. intros r (i & rest & Hi & Hr).
        exists i, rest. split; [lia | done].
    + apply StronglySorted_app. split; [|by split].
      intros r1 r2 H1 H2.
      apply (proj1 (Forall_forall _ _) Hf1) in H1 as (rest1 & Hr1 & _).
      apply (proj1 (Forall_forall _ _) Hf2) in H2 as (i & rest2 & Hi & Hr2 & _).
      unfold rec_lt. rewrite Hr1, Hr2, <- app_assoc. apply lex_lt_sibling. lia.
Qed.

End Records.

(** ** Rule induction for the work queue *)

Section WorkerInduction.

Context {Up : Upper}.

Variable site : string -> Page.
Variable state_abb : string.
Variable cf : option LexPath.
(** The links of the start page that are not excluded. *)
Variable all : list NodeLink.

Variable P : string -> LexPath -> option LexPath -> State -> State -> Prop.
Variable W : nat -> list NodeLink -> State -> State -> Prop.

Hypothesis W_done : forall k st, drop k all = [] -> W k [] st st.
Hypothesis W_before : forall k link links st st',
  drop k all = link :: links ->
  k < start_branch_index cf ->
  W (S k) links st st' -> W k (link :: links) st st'.
Hypothesis W_job : forall k link links st st1 st',
  drop k all = link :: links ->
  start_branch_index cf <= k ->
  P (REGULATIONS_BASE_URL +:+ href link) [k]
    (if (k =? start_branch_index cf)%nat && truthy cf then cf else None) st st1 ->
  W (S k) links st1 st' -> W k (link :: links) st st'.

Lemma worker_rule n :
  (forall u p c st st',
     scrape_branch site state_abb REGULATIONS_BASE_URL n u p c st = Some st' -> P u p c st st') ->
  forall links k st st',
    drop k all = links ->
    worker site n state_abb
      (omap (enqueue_one cf (start_branch_index cf)) (enumerate_from k links)) st = Some st' ->
    W k links st st'.
Proof.
  intros Hcall. induction links as [|link links IH]; intros k st st' Hdrop.
  - rewrite enumerate_from_nil. simpl. intros [= <-]. by apply W_done.
  - assert (Hnext : drop (S k) all = links) by (by apply (drop_cons_inv k all link)).
    rewrite enumerate_from_cons. cbn -[Nat.ltb Nat.eqb].
    destruct (Nat.ltb_spec k (start_branch_index cf)) as [Hlt|Hle].
    + intros H. apply W_before; auto.
    + cbn -[Nat.ltb Nat.eqb].
      destruct (scrape_branch _ _ _ _ _ _ _ _) as [st1|] eqn:E; [|done].
      intros H. eapply W_job; eauto.
Qed.

End WorkerInduction.

(** ** No two records with the same path *)

Lemma StronglySorted_irrefl_NoDup {A} (R : relation A) (l : list A) :
  (forall x, ¬ R x x) -> StronglySorted R l -> NoDup l.
Proof.
  intros Hirr. induction 1 as [|x l Hs IH Hx]; constructor; [|done].
  intros Hin. apply (proj1 (Forall_forall _ _) Hx) in Hin. by eapply Hirr.
Qed.

Lemma worker_writes {Up : Upper} site state_abb n cf links st st' :
  worker site n state_abb
    (omap (enqueue_one cf (start_branch_index cf)) (enumerate_from 0 links)) st = Some st' ->
  writes_from [] 0 st st'.
Proof.
  apply (worker_rule site state_abb cf links
           (fun _ path _ st st' => writes_below path st st')
           (fun k _ st st' => writes_from [] k st st')); [| | | |done].
  - intros. by apply writes_from_refl.
  - intros. by eapply writes_from_weaken.
  - intros k0 link links0 st0 st1 st2 _ _ (new1 & Hj1 & Hf1 & Hs1) (new2 & Hj2 & Hf2 & Hs2).
    exists (new1 ++ new2). rewrite Hj2, Hj1, app_assoc. split; [done|]. split.
    + apply Forall_app. split.
      * eapply Forall_impl; [exact Hf1|]. intros r (rest & Hr & Hlen).
        exists k0, rest. simpl in *. repeat split; [lia | done | lia].
      * eapply Forall_impl; [exact Hf2|]. intros r (i & rest & Hi & Hr).
        exists i, rest. split; [lia | done].
    + apply StronglySorted_app. split; [|by split].
      intros r1 r2 H1 H2.
      apply (proj1 (Forall_forall _ _) Hf1) in H1 as (rest1 & Hr1 & _).
      apply (proj1 (Forall_forall _ _) Hf2) in H2 as (i & rest2 & Hi & Hr2 & _).
      unfold rec_lt. rewrite Hr1, Hr2. simpl. apply lex_lt_head. lia.
  - intros u p c s s'. apply scrape_branch_writes.
Qed.

(** What a run writes: records in strictly increasing path order, none
    deeper than 20. *)
Lemma collect_writes {Up : Upper} site loads n state_abb resume prior mode cf st :
  collect_regulations_for_state site loads n state_abb resume prior = Some (Finished mode cf st) ->
  StronglySorted rec_lt (jsonl st)
  /\ Forall (fun r => 1 <= length (rec_lex_path r) <= 20) (jsonl st).
Proof.
  unfold collect_regulations_for_state.
  destruct (JUR_URL_MAP !! state_abb) as [name|]; [|done].
  destruct (resume_setup loads resume prior) as [[c m]|]; [|done].
  simpl. destruct (site _) as [|links|]; try (intros [= <- <- <-]; split; constructor).
  destruct (worker _ _ _ _ _) as [st'|] eqn:E; [|done]. intros [= <- <- <-].
  unfold enqueue_jobs in E. rewrite enumerate_from_0 in E.
  apply worker_writes in E as (new & Hj & Hf & Hs). simpl in Hj. rewrite Hj. split; [done|].
  eapply Forall_impl; [exact Hf|]. intros r (i & rest & _ & -> & Hlen). simpl in *. lia.
Qed.

(** C6. In a run (one worker, any site, fresh or resumed), no two records
    written carry the same lex_path: a call at [path] writes only below
    [path], children get [path ++ [i]] for the distinct indices [i] of the
    loop, and the records come out in strictly increasing path order. *)
Theorem lex_path_unique {Up : Upper} site loads n state_abb resume prior :
  20 <= n ->
  exists outcome,
    collect_regulations_for_state site loads n state_abb resume prior = Some outcome
    /\ forall mode cf st, outcome = Finished mode cf st ->
         NoDup (rec_lex_path <$> jsonl st)
         /\ StronglySorted lex_lt (rec_lex_path <$> jsonl st).
Proof.
  intros Hn.
  destruct (collect_regulations_for_state_total site loads n state_abb resume prior Hn)
    as [outcome E].
  exists outcome. split; [done|]. intros mode cf st ->.
  apply collect_writes in E as [Hs _].
  assert (Hs' : StronglySorted lex_lt (rec_lex_path <$> jsonl st)).
  { clear -Hs. induction Hs as [|r l _ IH Hr]; simpl; constructor; [done|].
    apply Forall_fmap. exact Hr. }
  split; [|done]. eapply StronglySorted_irrefl_NoDup; [|exact Hs']. apply lex_lt_irrefl.
Qed.

Lemma lex_path_unique_witness :
  exists outcome,
    collect_regulations_for_state two_departments (loads_const []) 20 "MT" false None
    = Some outcome
    /\ forall mode cf st, outcome = Finished mode cf st ->
         NoDup (rec_lex_path <$> jsonl st)
         /\ StronglySorted lex_lt (rec_lex_path <$> jsonl st).
Proof. apply (lex_path_unique two_departments (loads_const []) 20 "MT" false None). lia. Defined.

Example two_departments_run :
  match collect_regulations_for_state two_departments (loads_const []) 20 "MT" false None with
  | Some (Finished mode _ st) =>
      mode = Truncate
      /\ ((fun r => (rec_url r, rec_lex_path r)) <$> jsonl st)
         = [(montana +:+ "d1/r1/", [0; 0]); (montana +:+ "d1/r2/", [0; 1]);
            (montana +:+ "d2/r1/", [1; 0]); (montana +:+ "d2/r2/", [1; 1])]
      /\ failed_file st = [] /\ warnings st = []
  | _ => False
  end.
Proof. vm_compute. repeat split. Qed.

(** ** The depth ceiling *)

Section Depth.

Context {Up : Upper}.

Variable site : string -> Page.
Variables state_abb site_url : string.

(** At depth 20 or more the loop calls nothing: it prints the warnings
    for malformed links it passes and, at the first link that survives the
    filters, the depth warning. *)
Lemma scrape_links_too_deep self url path cf s links st :
  20 <= length path ->
  exists st' mal,
    scrape_links site_url self url path cf s links st = Some st'
    /\ visited_urls st' = visited_urls st /\ jsonl st' = jsonl st
    /\ failed_file st' = failed_file st /\ requests st' = requests st
    /\ Forall is_malformed_warning mal
    /\ warnings st' = warnings st ++ mal
         ++ (if existsb (passes_filters s) links
             then [ExcessiveDepth (length path) url] else []).
Proof.
  intros Hd. revert st. induction links as [|[i link] links IH]; intros st.
  - exists st, []. simpl. rewrite app_nil_r. repeat split; constructor.
  - cbn -[Nat.leb Nat.ltb]. unfold passes_filters at 1. cbn -[Nat.leb Nat.ltb].
    destruct (i <? s)%nat; [apply IH|].
    destruct (is_reserved_or_repealed (text link)); [apply IH|].
    destruct (malformed_href (href link)).
    + destruct (IH (print_warning (MalformedURL (site_url +:+ href link)) st))
        as (st' & mal & E & Hv & Hj & Hf & Hr & Hm & Hw).
      exists st', (MalformedURL (site_url +:+ href link) :: mal).
      repeat split; try done.
      * constructor; [by eexists | done].
      * rewrite Hw. simpl. by rewrite <- !app_assoc.
    + destruct (Nat.leb_spec 20 (length path)) as [_|]; [|lia].
      exists (print_warning (ExcessiveDepth (length path) url) st), [].
      repeat split; constructor.
Qed.

Lemma scrape_branch_too_deep n url path cf st links :
  20 <= length path -> url ∉ visited_urls st -> site url = Listing links ->
  exists st' mal,
    scrape_branch site state_abb site_url (S n) url path cf st = Some st'
    /\ visited_urls st' = {[url]} ∪ visited_urls st /\ jsonl st' = jsonl st
    /\ failed_file st' = failed_file st
    /\ requests st' = requests st ++ [(Classify, url)]
    /\ Forall is_malformed_warning mal
    /\ warnings st' = warnings st ++ mal
         ++ (if existsb (passes_filters (start_index path cf)) (enumerate links)
             then [ExcessiveDepth (length path) url] else []).
Proof.
  intros Hd Hvis Hsite. rewrite scrape_branch_S, Hsite.
  rewrite bool_decide_eq_false_2 by done.
  destruct (scrape_links_too_deep
              (scrape_branch site state_abb site_url n) url path cf
              (start_index path cf) (enumerate links) (entered url st) Hd)
    as (st' & mal & E & Hv & Hj & Hf & Hr & Hm & Hw).
  exists st', mal. by repeat split.
Qed.

End Depth.

(** The crawl of the chain of depth 25 stops at the page of level 20:
    levels 1 to 20 are requested, nothing is written, and the depth warning
    is printed. *)
Example chain_25_run :
  (fun st => (jsonl st, failed_file st, warnings st, requests st))
    <$> final_state (collect_regulations_for_state chain_25 (loads_const []) 20 "MT" false None)
  = Some ([], [], [ExcessiveDepth 20 (REGULATIONS_BASE_URL +:+ chain_href 20)],
          (Startup, montana)
            :: ((fun k => (Classify, REGULATIONS_BASE_URL +:+ chain_href k)) <$> seq 1 20)).
Proof. vm_compute. reflexivity. Qed.

(** The page at level 20 of [chain_20_reserved] is a branch, requested
    with a path of length 20; its only child is reserved, and no warning is
    printed. *)
Lemma depth_warning_missing :
  chain_20_reserved (REGULATIONS_BASE_URL +:+ chain_href 20)
  = Listing [link "Part 21 (Reserved)" (chain_href 21)]
  /\ (fun st => (warnings st, requests st))
       <$> final_state
             (collect_regulations_for_state chain_20_reserved (loads_const []) 20 "MT" false None)
     = Some ([], (Startup, montana)
                   :: ((fun k => (Classify, REGULATIONS_BASE_URL +:+ chain_href k)) <$> seq 1 20)).
Proof. split; vm_compute; reflexivity. Qed.

(** C5 (amended). A branch whose path has length 20 or more (not yet
    visited) is requested, and nothing below it is: no request, no record,
    no failure entry.  The depth warning is printed, once, iff one of its
    links survives the start-index, exclusion and malformed-href filters.
    In every run no record has a lex_path of more than 20 elements, and
    the chain of depth 25 is crawled down to level 20, where the warning is
    printed and nothing is written. *)
Theorem depth_ceiling :
  (forall (Up : Upper) site state_abb site_url n url path cf st links,
     20 <= length path -> url ∉ visited_urls st -> site url = Listing links ->
     exists st' mal,
       scrape_branch site state_abb site_url (S n) url path cf st = Some st'
       /\ visited_urls st' = {[url]} ∪ visited_urls st /\ jsonl st' = jsonl st
       /\ failed_file st' = failed_file st
       /\ requests st' = requests st ++ [(Classify, url)]
       /\ Forall is_malformed_warning mal
       /\ warnings st' = warnings st ++ mal
            ++ (if existsb (passes_filters (start_index path cf)) (enumerate links)
                then [ExcessiveDepth (length path) url] else []))
  /\ (forall (Up : Upper) site loads n state_abb resume prior,
        20 <= n ->
        exists outcome,
          collect_regulations_for_state site loads n state_abb resume prior = Some outcome
          /\ forall mode cf st, outcome = Finished mode cf st ->
               Forall (fun r => length (rec_lex_path r) <= 20) (jsonl st))
  /\ (fun st => (jsonl st, failed_file st, warnings st, requests st))
       <$> final_state (collect_regulations_for_state chain_25 (loads_const []) 20 "MT" false None)
     = Some ([], [], [ExcessiveDepth 20 (REGULATIONS_BASE_URL +:+ chain_href 20)],
             (Startup, montana)
               :: ((fun k => (Classify, REGULATIONS_BASE_URL +:+ chain_href k)) <$> seq 1 20)).
Proof.
  split; [|split].
  - intros. by apply scrape_branch_too_deep.
  - intros Up site loads n state_abb resume prior Hn.
    destruct (collect_regulations_for_state_total site loads n state_abb resume prior Hn)
      as [outcome E].
    exists outcome. split; [done|]. intros mode cf st ->.
    apply collect_writes in E as [_ Hlen].
    eapply Forall_impl; [exact Hlen|]. simpl. lia.
  - exact chain_25_run.
Qed.

Lemma depth_ceiling_witness :
  exists outcome,
    collect_regulations_for_state two_departments (loads_const []) 20 "MT" false None
    = Some outcome
    /\ forall mode cf st, outcome = Finished mode cf st ->
         Forall (fun r => length (rec_lex_path r) <= 20) (jsonl st).
Proof.
  apply (proj1 (proj2 depth_ceiling) _ two_departments (loads_const []) 20 "MT" false None). lia.
Defined.

(** ** Requests and the visited set *)


















(** ** The verifier against the crawler *)

(** C3. On [reserved_first] (a reserved title listed before a title in
    force) the crawl ends without a failure and writes the one regulation,
    under the path [0, 0]: the start page's links are numbered after the
    reserved ones are dropped.  The verifier numbers them before, looks for
    the records of section 1, finds none, and reports the section
    incomplete, with the regulation missing. *)
Theorem verifier_index_mismatch :
  let outcome :=
    collect_regulations_for_state reserved_first (loads_const []) 20 "MT" false None in
  (fun st => ((fun r => (rec_url r, rec_lex_path r)) <$> jsonl st, failed_file st, warnings st))
    <$> final_state outcome
  = Some ([(montana +:+ "t2/r1/", [0; 0])], [], [])
  /\ get_top_level_sections reserved_first montana
     = [{| sec_name := "Title 2"; sec_url := montana +:+ "t2/"; sec_index := 1 |}]
  /\ (final_state outcome ≫= fun st => validate_state reserved_first 21 "montana" (jsonl st))
     = Some [{| rep_name := "Title 2"; rep_index := 1;
                is_complete := false;
                missing := [montana +:+ "t2/r1/"]; extra := [];
                is_ordered := true; order_issues := [] |}].
Proof. repeat split; vm_compute; reflexivity. Qed.

(** Without a reserved title in front, crawler and verifier agree on
    [two_departments]. *)
Example verifier_agrees_two_departments :
  (final_state (collect_regulations_for_state two_departments (loads_const []) 20 "MT" false None)
     ≫= fun st => validate_state two_departments 21 "montana" (jsonl st))
  = Some [{| rep_name := "Department 1"; rep_index := 0; is_complete := true;
             missing := []; extra := []; is_ordered := true; order_issues := [] |};
          {| rep_name := "Department 2"; rep_index := 1; is_complete := true;
             missing := []; extra := []; is_ordered := true; order_issues := [] |}].
Proof. vm_compute. reflexivity. Qed.

(** ** Malformed links *)

(** Below the start page a malformed link costs a warning and nothing
    else. *)
Lemma scrape_links_malformed {Up : Upper} site state_abb site_url n url path cf s i l rest st :
  (i <? s)%nat = false -> is_reserved_or_repealed (text l) = false ->
  malformed_href (href l) = true ->
  scrape_links site_url (scrape_branch site state_abb site_url n) url path cf s
    ((i, l) :: rest) st
  = scrape_links site_url (scrape_branch site state_abb site_url n) url path cf s rest
      (print_warning (MalformedURL (site_url +:+ href l)) st).
Proof. intros H1 H2 H3. cbn -[Nat.ltb Nat.leb]. by rewrite H1, H2, H3. Qed.

(** C10. On [malformed_top] the start page links to
    [/states/montana//d1/].  The verifier drops that link; the crawler puts
    it on the queue, requests it without a warning and, the page being
    absent, logs the failure.  The malformed link one level down is skipped
    with a warning and not requested. *)
Theorem malformed_top_level_link_is_fetched :
  malformed_href "/states/montana//d1/" = true
  /\ (fun st => (requests st, failed_file st, warnings st))
       <$> final_state
             (collect_regulations_for_state malformed_top (loads_const []) 20 "MT" false None)
     = Some ([(Startup, montana);
              (Classify, REGULATIONS_BASE_URL +:+ "/states/montana//d1/");
              (Classify, montana +:+ "d2/")],
             [FailedStatus (REGULATIONS_BASE_URL +:+ "/states/montana//d1/") "404"],
             [MalformedURL (REGULATIONS_BASE_URL +:+ "/states/montana/d2//r1/")])
  /\ get_top_level_sections malformed_top montana
     = [{| sec_name := "Department 2"; sec_url := montana +:+ "d2/"; sec_index := 1 |}].
Proof. repeat split; vm_compute; reflexivity. Qed.

(** ** The hierarchy *)

Section HierarchyFacts.

Context {Up : Upper}.

Variable site : string -> Page.
Variable root : string.

Lemma reaches_nonempty p u : reaches site root p u -> p ≠ [].
Proof. destruct 1; [done|]. by destruct path. Qed.

Lemma reaches_functional p u u' : reaches site root p u -> reaches site root p u' -> u = u'.
Proof.
  intros H. revert u'.
  induction H as [links i link Hroot Hi|path url links i link Hr IH Hd Hs Hi He Hm];
    intros u' H'.
  - inversion H' as [links' i' link' Hroot' Hi' Ep|path' url' links' i' link' Hr' Hd' Hs' Hi' He' Hm' Ep].
    + simplify_eq. congruence.
    + apply reaches_nonempty in Hr'. destruct path'; [done|]. by destruct path'.
  - inversion H' as [links' i' link' Hroot' Hi' Ep|path' url' links' i' link' Hr' Hd' Hs' Hi' He' Hm' Ep].
    + apply reaches_nonempty in Hr. destruct path; [done|]. by destruct path.
    + apply app_inj_tail in Ep as [-> ->]. apply IH in Hr' as <-.
      simplify_eq. congruence.
Qed.

(** The parent of a page below the first level. *)
Lemma reaches_parent p i u :
  reaches site root (p ++ [i]) u -> p ≠ [] ->
  exists up links link,
    reaches site root p up /\ length p < 20 /\ site up = Listing links /\ links !! i = Some link
    /\ is_reserved_or_repealed (text link) = false /\ malformed_href (href link) = false
    /\ u = REGULATIONS_BASE_URL +:+ href link.
Proof.
  intros H Hp.
  inversion H as [links i' link Hroot Hi Ep|path url links i' link Hr Hd Hs Hi He Hm Ep]; subst.
  - destruct p; [done|]. by destruct p.
  - apply app_inj_tail in Ep as [-> ->]. eauto 10.
Qed.

(** The ancestor at [p] of a page below [p], and the link followed. *)
Lemma reaches_ancestor p i rest u :
  reaches site root (p ++ i :: rest) u -> p ≠ [] ->
  exists up links link,
    reaches site root p up /\ length p < 20 /\ site up = Listing links /\ links !! i = Some link
    /\ is_reserved_or_repealed (text link) = false /\ malformed_href (href link) = false
    /\ reaches site root (p ++ [i]) (REGULATIONS_BASE_URL +:+ href link).
Proof.
  revert u. induction rest as [|j rest IH] using rev_ind; intros u H Hp.
  - destruct (reaches_parent p i u H Hp) as (up & links & link & Hr & Hd & Hs & Hi & He & Hm & ->).
    eauto 10.
  - replace (p ++ i :: rest ++ [j]) with ((p ++ i :: rest) ++ [j]) in H
      by (by rewrite <- app_assoc).
    apply reaches_parent in H as (up & _ & _ & Hr & _); [|by destruct p].
    by eapply IH.
Qed.

(** The section above a page. *)
Lemma reaches_section i rest u :
  reaches site root (i :: rest) u ->
  exists links link,
    site root = Listing links
    /\ filter (fun l => is_reserved_or_repealed (text l) = false) links !! i = Some link
    /\ reaches site root [i] (REGULATIONS_BASE_URL +:+ href link).
Proof.
  revert u. induction rest as [|j rest IH] using rev_ind; intros u H.
  - inversion H as [links i' link Hroot Hi Ep|path url links i' link Hr Hd Hs Hi He Hm Ep]; subst.
    + exists links, link. repeat split; [done..|]. by econstructor.
    + apply reaches_nonempty in Hr. destruct path; [done|]. by destruct path.
  - change (i :: rest ++ [j]) with ((i :: rest) ++ [j]) in H.
    apply reaches_parent in H as (up & _ & _ & Hr & _); [|done].
    by eapply IH.
Qed.

(** Below a page that is not a listing there is nothing. *)
Lemma reaches_below_leaf p u q v :
  reaches site root p u -> (forall links, site u ≠ Listing links) ->
  reaches site root q v -> p `prefix_of` q -> q = p /\ v = u.
Proof.
  intros Hp Hleaf Hq [rest ->]. destruct rest as [|i rest].
  - rewrite app_nil_r in *. split; [done|]. by eapply reaches_functional.
  - apply reaches_ancestor in Hq as (up & links & link & Hr & _ & Hs & _);
      [|by eapply reaches_nonempty].
    rewrite (reaches_functional _ _ _ Hr Hp) in Hs. by apply Hleaf in Hs.
Qed.

(** The links followed below a listing are its own. *)
Lemma reaches_child_link p u links i rest v :
  reaches site root p u -> site u = Listing links -> reaches site root (p ++ i :: rest) v ->
  exists link, links !! i = Some link /\ length p < 20
    /\ is_reserved_or_repealed (text link) = false /\ malformed_href (href link) = false.
Proof.
  intros Hp Hs Hq.
  apply reaches_ancestor in Hq as (up & links' & link & Hr & Hd & Hs' & Hi & He & Hm & _);
    [|by eapply reaches_nonempty].
  rewrite (reaches_functional _ _ _ Hr Hp), Hs in Hs'. simplify_eq. eauto.
Qed.

End HierarchyFacts.

(** ** The cursor *)

Lemma prefix_lex_lt (c p : LexPath) : c `prefix_of` p -> c ≠ p -> lex_lt c p.
Proof.
  intros [rest ->] Hne. rewrite <- (app_nil_r c) at 1. apply lex_lt_app.
  destruct rest; [by rewrite app_nil_r in Hne | constructor].
Qed.

Lemma lex_lt_sibling_inv path i j rest1 rest2 :
  lex_lt (path ++ i :: rest1) (path ++ j :: rest2) -> i <= j.
Proof. intros H%lex_lt_app. inversion H; lia. Qed.

Lemma truthy_spec cf : truthy cf = true <-> exists c, cf = Some c /\ c ≠ [].
Proof.
  destruct cf as [[|x c]|]; simpl; split; try done.
  - intros (c & [= <-] & H). done.
  - intros _. by eexists.
  - intros (c & H & _). done.
Qed.

Lemma start_index_extension path j r : start_index path (Some (path ++ j :: r)) = j.
Proof.
  unfold start_index.
  assert (truthy (Some (path ++ j :: r)) = true) as -> by (by destruct path).
  rewrite take_app_length, bool_decide_eq_true_2 by done. simpl.
  rewrite length_app. simpl.
  destruct (Nat.ltb_spec (length path) (length path + S (length r))); [|lia].
  by rewrite lookup_app_r, Nat.sub_diag.
Qed.

Lemma start_index_pos path cf :
  0 < start_index path cf ->
  exists c r, cf = Some c /\ c = path ++ start_index path cf :: r.
Proof.
  unfold start_index. destruct cf as [c|]; [|lia].
  destruct (truthy (Some c)); simpl; [|lia].
  case_bool_decide as Hp; [|lia].
  destruct (Nat.ltb_spec (length path) (length c)) as [Hlen|]; [|lia].
  destruct (c !! length path) as [j|] eqn:Hj; simpl; [|lia].
  intros _. exists c, (drop (S (length path)) c). split; [done|].
  rewrite <- (take_drop (length path) c) at 1. rewrite <- Hp. f_equal.
  by apply drop_S.
Qed.

(** An active cursor that fits [path] either stops at or above [path], or
    continues below it through the child at the start index. *)
Lemma cursor_cases path c :
  path `prefix_of` c \/ c `prefix_of` path ->
  c `prefix_of` path \/ exists j r, c = path ++ j :: r /\ start_index path (Some c) = j.
Proof.
  intros [[rest ->]|H]; [|by left].
  destruct rest as [|j r].
  - left. by rewrite app_nil_r.
  - right. exists j, r. split; [done|]. apply start_index_extension.
Qed.

Lemma after_before path cf k rest :
  k < start_index path cf -> ¬ after cf (path ++ k :: rest).
Proof.
  intros Hk Hafter.
  destruct (start_index_pos path cf) as (c & r & -> & Hc); [lia|].
  assert (Hlt : lex_lt c (path ++ k :: rest)).
  { apply Hafter; [done|]. rewrite Hc. by destruct path. }
  rewrite Hc in Hlt. apply lex_lt_sibling_inv in Hlt. lia.
Qed.

Lemma cursor_fits_child path cf k :
  cursor_fits cf path -> start_index path cf <= k ->
  cursor_fits (child_cursor cf (start_index path cf) k) (path ++ [k]).
Proof.
  intros Hfit Hk c Hc Hne. unfold child_cursor in Hc.
  destruct (truthy cf && (start_index path cf <? k)%nat) eqn:E; [done|].
  subst cf. assert (Ht : truthy (Some c) = true) by (apply truthy_spec; eauto).
  rewrite Ht, andb_true_l in E. apply Nat.ltb_ge in E.
  destruct (cursor_cases path c (Hfit c eq_refl Hne)) as [Hpre|(j & r & -> & Hj)].
  - right. by apply prefix_app_r.
  - left. assert (j = k) as -> by lia. exists r. by rewrite <- app_assoc.
Qed.

Lemma after_child path cf k rest :
  cursor_fits cf path -> start_index path cf <= k ->
  after (child_cursor cf (start_index path cf) k) (path ++ k :: rest)
  <-> after cf (path ++ k :: rest).
Proof.
  intros Hfit Hk. unfold child_cursor.
  destruct (truthy cf && (start_index path cf <? k)%nat) eqn:E; [|done].
  apply andb_true_iff in E as [Ht Hlt]. apply Nat.ltb_lt in Hlt.
  split; [|by intros _ c' Hc'].
  intros _ c -> Hne.
  destruct (cursor_cases path c (Hfit c eq_refl Hne)) as [Hpre|(j & r & -> & Hj)].
  - apply prefix_lex_lt; [by apply prefix_app_r|].
    intros ->. destruct Hpre as [x Hx]. apply (f_equal length) in Hx.
    rewrite !length_app in Hx. simpl in Hx. lia.
  - apply lex_lt_sibling. lia.
Qed.

Lemma start_branch_index_eq cf : start_branch_index cf = start_index [] cf.
Proof.
  unfold start_branch_index, start_index. destruct cf as [[|x c]|]; simpl; try done.
Qed.

Lemma top_cursor_eq cf k :
  cf ≠ Some [] -> start_branch_index cf <= k ->
  (if (k =? start_branch_index cf)%nat && truthy cf then cf else None)
  = child_cursor cf (start_index [] cf) k.
Proof.
  intros Hcf Hk. rewrite <- start_branch_index_eq. unfold child_cursor.
  destruct cf as [[|x c]|]; [done| |].
  - change (truthy (Some (x :: c))) with true in *.
    change (start_branch_index (Some (x :: c))) with x in *.
    rewrite andb_true_r, andb_true_l.
    destruct (Nat.eqb_spec k x), (Nat.ltb_spec x k); (done || lia).
  - change (truthy None) with false. by rewrite andb_false_r, andb_false_l.
Qed.

(** ** What a crawl writes on a tree-like site *)

Lemma below_from_prefix path k q : below_from path k q -> path `prefix_of` q.
Proof. intros (i & rest & _ & ->). by eexists. Qed.

Lemma below_from_S path k q : below_from path (S k) q -> below_from path k q.
Proof. intros (i & rest & Hi & ->). exists i, rest. split; [lia | done]. Qed.

Lemma below_from_child path k q : (path ++ [k]) `prefix_of` q -> below_from path k q.
Proof. intros [rest ->]. exists k, rest. by rewrite <- app_assoc. Qed.

Lemma below_from_cases path k q :
  below_from path k q <-> (path ++ [k]) `prefix_of` q \/ below_from path (S k) q.
Proof.
  split.
  - intros (i & rest & Hi & ->). destruct (decide (i = k)) as [->|].
    + left. exists rest. by rewrite <- app_assoc.
    + right. exists i, rest. split; [lia | done].
  - intros [H|H]; [by apply below_from_child | by apply below_from_S].
Qed.

Lemma not_below_self path k : ¬ below_from path k path.
Proof.
  intros (i & rest & _ & H). apply (f_equal length) in H.
  rewrite length_app in H. simpl in H. lia.
Qed.

Lemma child_not_later path k q : (path ++ [k]) `prefix_of` q -> ¬ below_from path (S k) q.
Proof.
  intros [rest ->] (i & rest' & Hi & H). rewrite <- app_assoc in H.
  apply app_inv_head in H. simplify_eq/=. lia.
Qed.

Section CrawlSteps.

Context {Up : Upper}.

Variable site : string -> Page.
Variables state_abb root : string.

Lemma records_of_nil sel :
  (forall p u d, leaf_at site root p u d -> sel p -> False) ->
  records_of site state_abb root sel [].
Proof.
  intros H r. split; [inversion 1|]. intros (p & u & d & _ & Hl & Hs). exfalso. eauto.
Qed.

Lemma records_of_app sel sel1 sel2 new1 new2 :
  records_of site state_abb root sel1 new1 ->
  records_of site state_abb root sel2 new2 ->
  (forall p u d, leaf_at site root p u d -> (sel p <-> sel1 p \/ sel2 p)) ->
  records_of site state_abb root sel (new1 ++ new2).
Proof.
  unfold records_of. intros H1 H2 Hsel r. rewrite elem_of_app, H1, H2. split.
  - intros [(p & u & d & -> & Hl & Hs)|(p & u & d & -> & Hl & Hs)];
      exists p, u, d; (split; [done|]); (split; [done|]); eapply Hsel; eauto.
  - intros (p & u & d & -> & Hl & Hs).
    destruct (proj1 (Hsel p u d Hl) Hs); [left|right]; eauto 10.
Qed.

Lemma records_of_ext sel1 sel2 new :
  records_of site state_abb root sel1 new ->
  (forall p u d, leaf_at site root p u d -> (sel1 p <-> sel2 p)) ->
  records_of site state_abb root sel2 new.
Proof.
  unfold records_of. intros H Hsel r. rewrite H. split; intros (p & u & d & -> & Hl & Hs);
    exists p, u, d; (split; [done|]); (split; [done|]); eapply Hsel; eauto.
Qed.

(** The loop has nothing left to do. *)
Lemma loop_step_done path cf k st st' :
  jsonl st' = jsonl st -> visited_urls st' = visited_urls st ->
  (forall p u d, leaf_at site root p u d -> below_from path k p -> False) ->
  loop_result site state_abb root path cf k st st'.
Proof.
  intros Hj Hv Hnone. exists []. rewrite Hj, Hv, app_nil_r. split; [done|]. split; [|by left].
  apply records_of_nil. intros p u d Hl [Hb _]. eauto.
Qed.

(** The loop passes child [k] without a call. *)
Lemma loop_step_skip path cf k st st0 st' :
  jsonl st0 = jsonl st -> visited_urls st0 = visited_urls st ->
  (forall p u d, leaf_at site root p u d -> (path ++ [k]) `prefix_of` p -> after cf p -> False) ->
  (unvisited_from site root path (S k) st0 ->
   loop_result site state_abb root path cf (S k) st0 st') ->
  unvisited_from site root path k st ->
  loop_result site state_abb root path cf k st st'.
Proof.
  intros Hj Hv Hnone IH Hinv.
  destruct IH as (new & Hj' & Hrec & Hpost).
  { intros u Hu. rewrite Hv in Hu. destruct (Hinv u Hu) as (q & Hq & Hn).
    exists q. split; [done|]. intros Hb. by apply Hn, below_from_S. }
  exists new. rewrite <- Hj, <- Hv. split; [done|]. split.
  - eapply records_of_ext; [exact Hrec|]. intros p u d Hl. rewrite (below_from_cases path k).
    split; [tauto|]. intros [[H|H] Ha]; [|done]. exfalso. eauto.
  - intros u Hu. destruct (Hpost u Hu) as [|(q & Hq & Hb)]; [by left|].
    right. exists q. split; [done|]. by apply below_from_S.
Qed.

(** The loop calls [scrape_branch] for child [k] and goes on. *)
Lemma loop_step_child path cf cf' k st st1 st' :
  (forall q, (path ++ [k]) `prefix_of` q -> (after cf' q <-> after cf q)) ->
  (unvisited_below site root (path ++ [k]) st ->
   call_result site state_abb root (path ++ [k]) cf' st st1) ->
  (unvisited_from site root path (S k) st1 ->
   loop_result site state_abb root path cf (S k) st1 st') ->
  unvisited_from site root path k st ->
  loop_result site state_abb root path cf k st st'.
Proof.
  intros Hafter HP HQ Hinv.
  destruct HP as (new1 & Hj1 & Hrec1 & Hpost1).
  { intros u Hu. destruct (Hinv u Hu) as (q & Hq & Hn).
    exists q. split; [done|]. intros Hb. by apply Hn, below_from_child. }
  destruct HQ as (new2 & Hj2 & Hrec2 & Hpost2).
  { intros u Hu. destruct (Hpost1 u Hu) as [Hu'|(q & Hq & Hb)].
    - destruct (Hinv u Hu') as (q & Hq & Hn).
      exists q. split; [done|]. intros Hb. by apply Hn, below_from_S.
    - exists q. split; [done|]. by apply child_not_later. }
  exists (new1 ++ new2). rewrite Hj2, Hj1, app_assoc. split; [done|]. split.
  - eapply records_of_app; [exact Hrec1 | exact Hrec2|].
    intros p u d Hl. rewrite (below_from_cases path k). split.
    + intros [[H|H] Ha]; [left | right]; (split; [done|]); [by apply Hafter | done].
    + intros [[H Ha]|[H Ha]]; (split; [tauto|]); [by apply Hafter | done].
  - intros u Hu. destruct (Hpost2 u Hu) as [Hu1|(q & Hq & Hb)].
    + destruct (Hpost1 u Hu1) as [|(q & Hq & Hb)]; [by left|].
      right. exists q. split; [done|]. by apply below_from_child.
    + right. exists q. split; [done|]. by apply below_from_S.
Qed.

End CrawlSteps.

Section CrawlOnTree.

Context {Up : Upper}.

Variable site : string -> Page.
Variables state_abb root : string.
(** The cursor, when there is one. *)
Variable c : LexPath.

Hypothesis Htree : tree_like site root.
(** No regulation page sits strictly above the cursor's position. *)
Hypothesis Hcursor : forall p u body,
  reaches site root p u -> site u = Regulation body -> p `prefix_of` c -> p = c.

Lemma visited_entered url path st u :
  reaches site root path url ->
  u ∈ {[url]} ∪ visited_urls st ->
  u ∈ visited_urls st \/ exists q, reaches site root q u /\ path `prefix_of` q.
Proof.
  intros Hr [->%elem_of_singleton|Hu]%elem_of_union; [right | by left].
  by exists path.
Qed.

(** A page that is not a listing has no leaf below it but itself. *)
Lemma call_not_listing url path cf st st' new :
  reaches site root path url -> (forall links, site url ≠ Listing links) ->
  jsonl st' = jsonl st ++ new -> visited_urls st' = {[url]} ∪ visited_urls st ->
  (forall r, r ∈ new <->
     exists d, r = leaf_record state_abb url path d
       /\ site url = Regulation (Extracted d) /\ after cf path) ->
  call_result site state_abb root path cf st st'.
Proof.
  intros Hr Hleaf Hj Hv Hnew. exists new. split; [done|]. split.
  - intros r. rewrite Hnew. split.
    + intros (d & -> & Hs & Ha). exists path, url, d. by repeat split.
    + intros (p & u & d & -> & [Hp Hs] & Hpre & Ha).
      destruct (reaches_below_leaf site root path url p u Hr Hleaf Hp Hpre) as [-> ->].
      by exists d.
  - intros u Hu. rewrite Hv in Hu. by eapply visited_entered.
Qed.

Lemma scrape_branch_spec n url path cf st st' :
  scrape_branch site state_abb REGULATIONS_BASE_URL n url path cf st = Some st' ->
  call_spec site state_abb root c url path cf st st'.
Proof.
  apply (scrape_branch_rule site state_abb REGULATIONS_BASE_URL
           (call_spec site state_abb root c)
           (fun url path cf s k _ st st' => loop_spec site state_abb root c url path cf s k st st')).
  - (* visited: impossible on a tree *)
    intros u p cf0 s Hvis Hr _ _ Hinv. exfalso.
    destruct (Hinv u Hvis) as (q & Hq & Hn). by rewrite (Htree q p u Hq Hr) in Hn.
  - intros u p cf0 s status Hvis Hsite Hr _ _ _.
    apply (call_not_listing u p cf0 _ _ []); try done.
    + intros links. by rewrite Hsite.
    + simpl. by rewrite app_nil_r.
    + intros r. split; [inversion 1|]. intros (d & _ & H & _). by rewrite Hsite in H.
  - (* listing *)
    intros u p cf0 s links s' Hvis Hsite HQ Hr Hcf Hfit Hinv.
    destruct HQ as (new & Hj & Hrec & Hpost); try done.
    { intros v [->%elem_of_singleton|Hv]%elem_of_union.
      - exists p. split; [done | apply not_below_self].
      - destruct (Hinv v Hv) as (q & Hq & Hn). exists q. split; [done|].
        intros Hb. apply Hn. by eapply below_from_prefix. }
    exists new. split; [done|]. split.
    + eapply records_of_ext; [exact Hrec|]. intros q v d [Hq Hs]. split.
      * intros [Hb Ha]. split; [by eapply below_from_prefix | done].
      * intros [[rest ->] Ha]. split; [|done]. destruct rest as [|i rest].
        -- rewrite app_nil_r in Hq. rewrite (reaches_functional _ _ _ _ _ Hq Hr) in Hs.
           by rewrite Hsite in Hs.
        -- exists i, rest. split; [lia | done].
    + intros v Hv. destruct (Hpost v Hv) as [Hv'|(q & Hq & Hb)].
      * by eapply visited_entered.
      * right. exists q. split; [done | by eapply below_from_prefix].
  - (* the leaf of the cursor *)
    intros u p cf0 s body Hvis Hsite Ht -> Hr _ _ _.
    apply (call_not_listing u p _ _ _ []); try done.
    + intros links. by rewrite Hsite.
    + simpl. by rewrite app_nil_r.
    + intros r. split; [inversion 1|]. intros (d & _ & _ & Ha). exfalso.
      eapply lex_lt_irrefl, Ha; [done|]. by eapply reaches_nonempty.
  - (* a leaf that is written *)
    intros u p cf0 s d Hvis Hsite Hno Hr Hcf Hfit _.
    apply (call_not_listing u p _ _ _ [leaf_record state_abb u p d]); try done.
    + intros links. by rewrite Hsite.
    + intros r. rewrite list_elem_of_singleton. split.
      * intros ->. exists d. repeat split; [done|]. intros c' -> Hne.
        assert (c' = c) as -> by (destruct Hcf; by simplify_eq).
        assert (Hneq : c ≠ p).
        { intros ->. apply Hno. split; [|done]. apply truthy_spec. eauto. }
        destruct (Hfit c eq_refl Hne) as [Hpre|Hpre].
        -- exfalso. apply Hneq. symmetry. by eapply Hcursor.
        -- by apply prefix_lex_lt.
      * intros (d' & -> & Hs & _). rewrite Hsite in Hs. by simplify_eq.
  - intros u p cf0 s e Hvis Hsite _ Hr _ _ _.
    apply (call_not_listing u p cf0 _ _ []); try done.
    + intros links. by rewrite Hsite.
    + simpl. by rewrite app_nil_r.
    + intros r. split; [inversion 1|]. intros (d & _ & H & _). by rewrite Hsite in H.
  - intros u p cf0 s status Hvis Hsite _ Hr _ _ _.
    apply (call_not_listing u p cf0 _ _ []); try done.
    + intros links. by rewrite Hsite.
    + simpl. by rewrite app_nil_r.
    + intros r. split; [inversion 1|]. intros (d & _ & H & _). by rewrite Hsite in H.
  - (* end of the loop *)
    intros u p cf0 s all k st0 Hsite Hdrop Hr _ _ _ _.
    apply loop_step_done; [done..|].
    intros q v d [Hq _] (i & rest & Hi & ->).
    destruct (reaches_child_link site root p u all i rest v Hr Hsite Hq) as (l & Hl & _).
    apply lookup_lt_Some in Hl. apply (f_equal length) in Hdrop.
    rewrite length_drop in Hdrop. simpl in Hdrop. lia.
  - (* before the start index *)
    intros u p cf0 s all k l links st0 st1 Hsite Hdrop Hk IH Hr Hcf Hfit -> Hinv.
    eapply loop_step_skip; [done..| |by apply IH|done].
    intros q v d _ [rest ->] Ha. rewrite <- app_assoc in Ha.
    by eapply after_before.
  - (* excluded *)
    intros u p cf0 s all k l links st0 st1 Hsite Hdrop Hk Hex IH Hr Hcf Hfit -> Hinv.
    eapply loop_step_skip; [done..| |by apply IH|done].
    intros q v d [Hq _] [rest ->] _. rewrite <- app_assoc in Hq.
    destruct (reaches_child_link site root p u all k rest v Hr Hsite Hq) as (l' & Hl & _ & He & _).
    rewrite (drop_cons_lookup _ _ _ _ Hdrop) in Hl. simplify_eq. congruence.
  - (* malformed *)
    intros u p cf0 s all k l links st0 st1 Hsite Hdrop Hk Hex Hmal IH Hr Hcf Hfit -> Hinv.
    eapply loop_step_skip; [| | |by apply IH|done]; [done..|].
    intros q v d [Hq _] [rest ->] _. rewrite <- app_assoc in Hq.
    destruct (reaches_child_link site root p u all k rest v Hr Hsite Hq) as (l' & Hl & _ & _ & Hm).
    rewrite (drop_cons_lookup _ _ _ _ Hdrop) in Hl. simplify_eq. congruence.
  - (* too deep *)
    intros u p cf0 s all k l links st0 Hsite Hdrop Hk Hex Hmal Hd Hr _ _ _ _.
    apply loop_step_done; [done..|].
    intros q v d [Hq _] (i & rest & Hi & ->).
    destruct (reaches_child_link site root p u all i rest v Hr Hsite Hq) as (l' & _ & Hlen & _).
    lia.
  - (* a child *)
    intros u p cf0 s all k l links st0 st1 st2 Hsite Hdrop Hk Hex Hmal Hd HP HQ Hr Hcf Hfit -> Hinv.
    assert (Hchild : reaches site root (p ++ [k]) (REGULATIONS_BASE_URL +:+ href l)).
    { eapply reach_child; eauto. by eapply drop_cons_lookup. }
    eapply loop_step_child; [| |by apply HQ|done].
    + intros q [rest ->]. rewrite <- app_assoc. by apply after_child.
    + apply HP; [done| |by apply cursor_fits_child].
      unfold child_cursor. destruct (_ && _); [by left | done].
Qed.

End CrawlOnTree.

(** ** The hierarchy as a list *)

Section HierarchyList.

Context {Up : Upper}.

Variable site : string -> Page.
Variable root : string.

Lemma nodes_below_head n url path : (path, url) ∈ nodes_below site n url path.
Proof. destruct n; left. Qed.

Lemma nodes_below_child n u0 p0 path url links i l :
  (path, url) ∈ nodes_below site n u0 p0 ->
  length path < 20 -> 20 <= n + length p0 ->
  site url = Listing links -> links !! i = Some l ->
  is_reserved_or_repealed (text l) = false -> malformed_href (href l) = false ->
  (path ++ [i], REGULATIONS_BASE_URL +:+ href l) ∈ nodes_below site n u0 p0.
Proof.
  intros Hin Hlen Hfuel Hsite Hl He Hm. revert u0 p0 Hin Hfuel.
  induction n as [|n IH]; intros u0 p0 Hin Hfuel.
  - simpl in Hin. apply list_elem_of_singleton in Hin. simplify_eq. simpl in *. lia.
  - cbn -[Nat.leb] in *. apply elem_of_cons in Hin as [Heq|Hin].
    + simplify_eq. rewrite Hsite.
      destruct (Nat.leb_spec 20 (length p0)); [lia|].
      right. apply list_elem_of_bind. exists (i, l). split.
      * rewrite He, Hm. simpl. apply nodes_below_head.
      * apply (elem_of_enumerate_from 0). split; [lia|]. by rewrite Nat.sub_0_r.
    + right. destruct (site u0) as [|links0|]; [by inversion Hin| |by inversion Hin].
      destruct (Nat.leb_spec 20 (length p0)); [by inversion Hin|].
      apply list_elem_of_bind in Hin as ([j lj] & Hin & Hj).
      apply list_elem_of_bind. exists (j, lj). split; [|done].
      destruct (is_reserved_or_repealed (text lj) || malformed_href (href lj));
        [by inversion Hin|].
      apply IH; [done|]. rewrite length_app. simpl. lia.
Qed.

Lemma reaches_hierarchy p u : reaches site root p u -> (p, u) ∈ hierarchy site root.
Proof.
  induction 1 as [links i l Hroot Hi|path url links i l Hr IH Hd Hs Hi He Hm].
  - unfold hierarchy. rewrite Hroot. apply list_elem_of_bind. exists (i, l). split.
    + apply nodes_below_head.
    + apply (elem_of_enumerate_from 0). split; [lia|]. by rewrite Nat.sub_0_r.
  - unfold hierarchy in *. destruct (site root) as [|links0|]; [by inversion IH| |by inversion IH].
    apply list_elem_of_bind in IH as ([j lj] & Hin & Hj).
    apply list_elem_of_bind. exists (j, lj). split; [|done].
    eapply nodes_below_child; eauto. simpl. lia.
Qed.

(** A site whose hierarchy lists no URL twice is tree-like. *)
Lemma tree_like_check : NoDup (hierarchy site root).*2 -> tree_like site root.
Proof.
  intros Hnd p q u Hp%reaches_hierarchy Hq%reaches_hierarchy.
  revert Hnd Hp Hq. generalize (hierarchy site root). intros h.
  induction h as [|[p0 u0] h IH]; simpl; [by inversion 2|].
  intros [Hnot Hnd]%NoDup_cons [Hp|Hp]%elem_of_cons [Hq|Hq]%elem_of_cons.
  - congruence.
  - exfalso. apply Hnot. simplify_eq. apply list_elem_of_fmap. by exists (q, u0).
  - exfalso. apply Hnot. simplify_eq. apply list_elem_of_fmap. by exists (p, u0).
  - by apply IH.
Qed.

End HierarchyList.

(** ** Resuming a crawl *)

Section ResumeOnTree.

Context {Up : Upper}.

Variable site : string -> Page.
Variables state_abb root : string.
Variable c : LexPath.
Variable links0 : list NodeLink.

Hypothesis Htree : tree_like site root.
Hypothesis Hcursor : forall p u body,
  reaches site root p u -> site u = Regulation body -> p `prefix_of` c -> p = c.
Hypothesis Hroot : site root = Listing links0.

Lemma worker_spec n cf st st' :
  cf = None \/ cf = Some c -> cf ≠ Some [] ->
  worker site n state_abb
    (omap (enqueue_one cf (start_branch_index cf))
       (enumerate_from 0 (filter (fun l => is_reserved_or_repealed (text l) = false) links0)))
    st = Some st' ->
  unvisited_from site root [] 0 st ->
  loop_result site state_abb root [] cf 0 st st'.
Proof.
  intros Hcf Hne.
  apply (worker_rule site state_abb cf
           (filter (fun l => is_reserved_or_repealed (text l) = false) links0)
           (call_spec site state_abb root c)
           (fun k _ st st' =>
              unvisited_from site root [] k st -> loop_result site state_abb root [] cf k st st'));
    [| | | |done].
  - intros k s Hdrop _. apply loop_step_done; [done..|].
    intros q v d [Hq _] (i & rest & Hi & ->). simpl in Hq.
    apply reaches_section in Hq as (links & l & Hr & Hl & _).
    rewrite Hroot in Hr. simplify_eq.
    apply lookup_lt_Some in Hl. apply (f_equal length) in Hdrop.
    rewrite length_drop in Hdrop. simpl in Hdrop. lia.
  - intros k l links s s' Hdrop Hk IH Hinv.
    eapply loop_step_skip; [done..| |exact IH|done].
    intros q v d _ [rest ->] Ha. simpl in Ha.
    rewrite start_branch_index_eq in Hk. by eapply (after_before []).
  - intros k l links s s1 s' Hdrop Hk HP IH Hinv.
    rewrite top_cursor_eq in HP by done. rewrite start_branch_index_eq in Hk.
    assert (Hfit : cursor_fits cf []) by (intros c' _ _; left; apply prefix_nil).
    eapply loop_step_child; [| |exact IH|done].
    + intros q [rest ->]. by apply (after_child []).
    + apply HP.
      * eapply reach_section; [exact Hroot|]. by eapply drop_cons_lookup.
      * unfold child_cursor. destruct (_ && _); [by left | done].
      * by apply (cursor_fits_child []).
  - intros u p c0 s s'. by apply scrape_branch_spec.
Qed.

End ResumeOnTree.

(** What a run writes on a tree-like site: the leaves of the hierarchy
    that lie strictly after the cursor, or all of them without a cursor. *)
Lemma collect_on_tree {Up : Upper} site loads n state_abb state_name resume prior mode cf st :
  JUR_URL_MAP !! state_abb = Some state_name ->
  tree_like site (state_init_url state_name) ->
  (forall c, cf = Some c ->
     c ≠ [] /\ forall p u body,
       reaches site (state_init_url state_name) p u -> site u = Regulation body ->
       p `prefix_of` c -> p = c) ->
  collect_regulations_for_state site loads n state_abb resume prior = Some (Finished mode cf st) ->
  records_of site state_abb (state_init_url state_name) (after cf) (jsonl st).
Proof.
  intros Hname Htree Hcf. unfold collect_regulations_for_state. rewrite Hname. clear Hname.
  destruct (resume_setup loads resume prior) as [[cf' m]|]; [|done].
  fold (state_init_url state_name). unfold fetch_with_retry.
  destruct (site (state_init_url state_name)) as [status|links|body] eqn:Hroot.
  - intros [= <- <- <-]. apply records_of_nil. intros p u d [Hp _] _.
    destruct p as [|i p]; [by apply reaches_nonempty in Hp|].
    apply reaches_section in Hp as (links & l & Hr & _). by rewrite Hroot in Hr.
  - destruct (worker _ _ _ _ _) as [st'|] eqn:E; [|done]. intros [= <- <- <-].
    unfold enqueue_jobs in E. rewrite enumerate_from_0 in E.
    set (c := default [] cf').
    assert (Hcur : forall p u body,
              reaches site (state_init_url state_name) p u -> site u = Regulation body ->
              p `prefix_of` c -> p = c).
    { intros p u body Hp Hs Hpre. unfold c in *. destruct cf' as [c'|]; simpl in *.
      - by eapply (proj2 (Hcf c' eq_refl)).
      - by apply prefix_nil_inv in Hpre as ->. }
    assert (Hcf' : cf' = None \/ cf' = Some c) by (destruct cf'; [by right | by left]).
    assert (Hne : cf' ≠ Some []) by (intros ->; by destruct (Hcf [] eq_refl)).
    assert (Hinit : unvisited_from site (state_init_url state_name) [] 0
                      (note_request Startup (state_init_url state_name) init_state)).
    { intros u Hu. simpl in Hu. by apply not_elem_of_empty in Hu. }
    destruct (worker_spec site state_abb (state_init_url state_name) c links
                Htree Hcur Hroot n cf' _ _ Hcf' Hne E Hinit) as (new & Hj & Hrec & _).
    simpl in Hj. rewrite Hj. eapply records_of_ext; [exact Hrec|].
    intros p u d [Hp _]. split; [tauto|]. intros Ha. split; [|done].
    destruct p as [|i p]; [by apply reaches_nonempty in Hp|]. exists i, p. split; [lia|done].
  - intros [= <- <- <-]. apply records_of_nil. intros p u d [Hp _] _.
    destruct p as [|i p]; [by apply reaches_nonempty in Hp|].
    apply reaches_section in Hp as (links & l & Hr & _). by rewrite Hroot in Hr.
Qed.

Lemma cursor_at_leaf {Up : Upper} site root c uc body :
  reaches site root c uc -> site uc = Regulation body ->
  c ≠ [] /\ forall p u body',
    reaches site root p u -> site u = Regulation body' -> p `prefix_of` c -> p = c.
Proof.
  intros Hc Hs. split; [by eapply reaches_nonempty|].
  intros p u body' Hp Hu Hpre.
  assert (Hleaf : forall links, site u ≠ Listing links) by (intros links; by rewrite Hu).
  by destruct (reaches_below_leaf site root p u c uc Hp Hleaf Hc Hpre).
Qed.

(** C1. On a tree-like site (every page at one position), let the cursor
    [c] recovered at start-up be the position of a regulation page.  Then
    the resumed run ends and writes exactly the leaves of the hierarchy
    whose position is strictly after [c]: the leaf at [c] and the leaves
    before [c] are not written, and every leaf after [c] is. *)
Theorem resume_correct {Up : Upper} site loads n state_abb state_name prior c :
  JUR_URL_MAP !! state_abb = Some state_name ->
  tree_like site (state_init_url state_name) ->
  (exists uc body, reaches site (state_init_url state_name) c uc /\ site uc = Regulation body) ->
  resume_setup loads true prior = inl (Some c, Append) ->
  20 <= n ->
  exists st,
    collect_regulations_for_state site loads n state_abb true prior
    = Some (Finished Append (Some c) st)
    /\ (forall r, r ∈ jsonl st <->
          exists p u d, r = leaf_record state_abb u p d
            /\ leaf_at site (state_init_url state_name) p u d /\ lex_lt c p)
    /\ (forall r, r ∈ jsonl st -> rec_lex_path r ≠ c /\ ¬ lex_lt (rec_lex_path r) c)
    /\ (forall p u d, leaf_at site (state_init_url state_name) p u d -> lex_lt c p ->
          leaf_record state_abb u p d ∈ jsonl st).
Proof.
  intros Hname Htree (uc & body & Hc & Hs) Hsetup Hn.
  destruct (cursor_at_leaf _ _ _ _ _ Hc Hs) as [Hne Hcursor].
  destruct (collect_regulations_for_state_total site loads n state_abb true prior Hn)
    as [outcome E].
  assert (Hout : exists st, outcome = Finished Append (Some c) st).
  { revert E. unfold collect_regulations_for_state. rewrite Hname, Hsetup.
    unfold fetch_with_retry. fold (state_init_url state_name).
    destruct (site (state_init_url state_name));
      [|destruct (worker _ _ _ _ _); [|done]|]; intros [= <-]; eauto. }
  destruct Hout as [st ->]. exists st. split; [done|].
  assert (Hrec : forall r, r ∈ jsonl st <->
            exists p u d, r = leaf_record state_abb u p d
              /\ leaf_at site (state_init_url state_name) p u d /\ lex_lt c p).
  { intros r.
    pose proof (collect_on_tree site loads n state_abb state_name true prior Append (Some c) st
                  Hname Htree) as Hrec0.
    unfold records_of in Hrec0. rewrite Hrec0; [|by intros c' [= <-]|done]. clear Hname Hrec0.
    split; intros (p & u & d & -> & Hl & Ha); exists p, u, d;
      (split; [reflexivity|]); (split; [exact Hl|]).
    - by apply Ha.
    - by intros c' [= <-] _. }
  split; [exact Hrec|]. split.
  - intros r (p & u & d & -> & _ & Hlt)%Hrec. simpl. split.
    + intros ->. by apply lex_lt_irrefl in Hlt.
    + intros Hlt'. by eapply lex_lt_irrefl, lex_lt_trans.
  - intros p u d Hl Hlt. apply Hrec. eauto 10.
Qed.

(** Without a cursor the run writes every leaf of the hierarchy. *)
Lemma full_crawl_complete {Up : Upper} site loads n state_abb state_name prior :
  JUR_URL_MAP !! state_abb = Some state_name ->
  tree_like site (state_init_url state_name) ->
  20 <= n ->
  exists st,
    collect_regulations_for_state site loads n state_abb false prior
    = Some (Finished Truncate None st)
    /\ forall r, r ∈ jsonl st <->
         exists p u d, r = leaf_record state_abb u p d
           /\ leaf_at site (state_init_url state_name) p u d.
Proof.
  intros Hname Htree Hn.
  destruct (collect_regulations_for_state_total site loads n state_abb false prior Hn)
    as [outcome E].
  assert (Hout : exists st, outcome = Finished Truncate None st).
  { revert E. unfold collect_regulations_for_state, resume_setup. rewrite Hname.
    unfold fetch_with_retry. fold (state_init_url state_name).
    destruct (site (state_init_url state_name));
      [|destruct (worker _ _ _ _ _); [|done]|]; intros [= <-]; eauto. }
  destruct Hout as [st ->]. exists st. split; [done|]. intros r.
  pose proof (collect_on_tree site loads n state_abb state_name false prior Truncate None st
                Hname Htree) as Hrec0.
  unfold records_of in Hrec0. rewrite Hrec0; [|done|done]. clear Hname Hrec0.
  split.
  - intros (p & u & d & -> & Hl & _). by exists p, u, d.
  - intros (p & u & d & -> & Hl). exists p, u, d.
    split; [reflexivity|]. split; [exact Hl|]. by intros c' [=].
Qed.

(** The example of the spec: resuming on [four_titles] after the leaf at
    [2, 1, 3] writes the leaves at [2, 1, 4], [2, 2, 0] and [3, 0]; the
    full crawl writes all ten. *)
Example resume_four_titles_run :
  (fun st => rec_lex_path <$> jsonl st)
    <$> final_state
          (collect_regulations_for_state four_titles (loads_const [2; 1; 3]) 20 "MT" true
             (Some "{}"))
  = Some [[2; 1; 4]; [2; 2; 0]; [3; 0]]
  /\ (fun st => rec_lex_path <$> jsonl st)
       <$> final_state
             (collect_regulations_for_state four_titles (loads_const []) 20 "MT" false None)
     = Some [[0; 0]; [1]; [2; 0; 0]; [2; 1; 0]; [2; 1; 1]; [2; 1; 2]; [2; 1; 3]; [2; 1; 4];
             [2; 2; 0]; [3; 0]].
Proof. split; vm_compute; reflexivity. Qed.

Lemma four_titles_tree_like : tree_like four_titles (state_init_url "montana").
Proof. apply tree_like_check. apply (bool_decide_unpack _). vm_compute. exact I. Qed.

Lemma four_titles_cursor :
  reaches four_titles (state_init_url "montana") [2; 1; 3]
    (REGULATIONS_BASE_URL +:+ "/states/montana/t2/c1/r3/").
Proof.
  apply (reach_child four_titles (state_init_url "montana") [2; 1]
           (REGULATIONS_BASE_URL +:+ "/states/montana/t2/c1/")
           [link "Rule 2.1.0" "/states/montana/t2/c1/r0/";
            link "Rule 2.1.1" "/states/montana/t2/c1/r1/";
            link "Rule 2.1.2" "/states/montana/t2/c1/r2/";
            link "Rule 2.1.3" "/states/montana/t2/c1/r3/";
            link "Rule 2.1.4" "/states/montana/t2/c1/r4/"]
           3 (link "Rule 2.1.3" "/states/montana/t2/c1/r3/"));
    [|simpl; lia|vm_compute; reflexivity..].
  apply (reach_child four_titles (state_init_url "montana") [2]
           (REGULATIONS_BASE_URL +:+ "/states/montana/t2/")
           [link "Chapter 0" "/states/montana/t2/c0/";
            link "Chapter 1" "/states/montana/t2/c1/";
            link "Chapter 2" "/states/montana/t2/c2/"]
           1 (link "Chapter 1" "/states/montana/t2/c1/"));
    [|simpl; lia|vm_compute; reflexivity..].
  apply (reach_section four_titles (state_init_url "montana")
           [link "Title 0" "/states/montana/t0/"; link "Title 1" "/states/montana/t1/";
            link "Title 2" "/states/montana/t2/"; link "Title 3" "/states/montana/t3/"]
           2 (link "Title 2" "/states/montana/t2/"));
    vm_compute; reflexivity.
Qed.

Lemma resume_correct_witness :
  exists st,
    collect_regulations_for_state four_titles (loads_const [2; 1; 3]) 20 "MT" true (Some "{}")
    = Some (Finished Append (Some [2; 1; 3]) st)
    /\ (forall r, r ∈ jsonl st <->
          exists p u d, r = leaf_record "MT" u p d
            /\ leaf_at four_titles (state_init_url "montana") p u d /\ lex_lt [2; 1; 3] p)
    /\ (forall r, r ∈ jsonl st ->
          rec_lex_path r ≠ [2; 1; 3] /\ ¬ lex_lt (rec_lex_path r) [2; 1; 3])
    /\ (forall p u d, leaf_at four_titles (state_init_url "montana") p u d ->
          lex_lt [2; 1; 3] p -> leaf_record "MT" u p d ∈ jsonl st).
Proof.
  apply (resume_correct four_titles (loads_const [2; 1; 3]) 20 "MT" "montana" (Some "{}")
           [2; 1; 3]).
  - vm_compute. reflexivity.
  - exact four_titles_tree_like.
  - eexists _, _. split; [exact four_titles_cursor | vm_compute; reflexivity].
  - reflexivity.
  - lia.
Defined.

(** ** The exclusion predicate *)

Lemma startswith_spec p s : Str.startswith p s = true <-> exists post, s = p +:+ post.
Proof.
  revert s. induction p as [|a p IH]; intros s; simpl.
  - split; [by exists s | done].
  - destruct s as [|b s].
    + split; [done | intros [post H]; by rewrite str_app_cons in H].
    + destruct (decide (a = b)) as [->|Hne].
      * rewrite IH. split; intros [post H]; exists post.
        -- by rewrite str_app_cons, H.
        -- rewrite str_app_cons in H. by simplify_eq.
      * split; [done | intros [post H]; rewrite str_app_cons in H; by simplify_eq].
Qed.

Lemma contains_spec needle hay :
  Str.contains needle hay = true <-> exists pre post, hay = pre +:+ needle +:+ post.
Proof.
  induction hay as [|b hay IH]; simpl.
  - destruct (Str.startswith needle "") eqn:E.
    + split; [|done]. intros _. apply startswith_spec in E as [post E]. by exists "", post.
    + split; [done|]. intros (pre & post & H).
      assert (Str.startswith needle "" = true) as E'.
      { apply startswith_spec. exists post. destruct pre; [done|].
        by rewrite str_app_cons in H. }
      by rewrite E in E'.
  - destruct (Str.startswith needle (String b hay)) eqn:E.
    + split; [|done]. intros _. apply startswith_spec in E as [post E]. by exists "", post.
    + rewrite IH. split.
      * intros (pre & post & ->). by exists (String b pre), post.
      * intros (pre & post & H). destruct pre as [|a pre].
        -- assert (Str.startswith needle (String b hay) = true) as E'
             by (apply startswith_spec; by exists post).
           by rewrite E in E'.
        -- rewrite str_app_cons in H. simplify_eq. by exists pre, post.
Qed.


Lemma upper_split t a b :
  Str.ascii_upper t = a +:+ b -> exists ta tb, t = ta +:+ tb /\ Str.ascii_upper ta = a /\ Str.ascii_upper tb = b.
Proof.
  revert t. induction a as [|x a IH]; intros t H.
  - by exists "", t.
  - destruct t as [|y t]; [done|]. rewrite str_app_cons in H. simpl in H.
    injection H as Hx H. destruct (IH t H) as (ta & tb & -> & Ha & Hb).
    exists (String y ta), tb. simpl. by rewrite Hx, Ha.
Qed.


Lemma occurs_ci_reserved_parens text :
  occurs_ci "(reserved)" text -> occurs_ci "reserved" text.
Proof.
  intros (pre & mid & post & -> & H).
  change (Str.ascii_upper "(reserved)") with ("(" +:+ "RESERVED" +:+ ")") in H.
  apply upper_split in H as (m1 & m23 & -> & _ & H).
  apply upper_split in H as (m2 & m3 & -> & H & _).
  exists (pre +:+ m1), m2, (m3 +:+ post). split; [|done].
  by rewrite !str_app_assoc.
Qed.




(** ** Where the pages of a crawl come from *)

Section Origin.

Context {Up : Upper}.

Variable site : string -> Page.
Variables state_abb site_url : string.







End Origin.



(** ** Excluded links *)







(** ** Requests with retry *)

Section RetryFacts.

Variable url : string.
Variable parse_int : string -> option Z.
Variable sleep : Z -> Retry.SleepOutcome.

Lemma rate_limit_wait_quiet h :
  match Retry.rate_limit_wait parse_int sleep h with
  | inl waited => Retry.gets waited = 0 /\ Retry.backoffs waited = 0
  | inr (waited, _) => Retry.gets waited = 0 /\ Retry.backoffs waited = 0
  end.
Proof.
  unfold Retry.rate_limit_wait. destruct h as [h|]; [|done].
  case_bool_decide; [done|]. destruct (parse_int h) as [n|]; [|done].
  by destruct (sleep n).
Qed.

(** One call of [_fetch] sends one request and never pauses for the retry
    policy; its result is good exactly on an answer with status 200, and
    then it is that answer. *)
Lemma fetch_once a :
  let '(result, events) := Retry._fetch url parse_int sleep a in
  Retry.gets events = 1 /\ Retry.backoffs events = 0
  /\ Retry._is_good_response result = Retry.good_attempt a
  /\ (Retry.good_attempt a = true -> exists r, a = Retry.Answers r /\ result = Some r).
Proof.
  destruct a as [ty e|r]; simpl; [done|].
  destruct (Z.eqb_spec (Retry.status_code r) 429) as [E|_].
  - pose proof (rate_limit_wait_quiet (Retry.retry_after r)) as Hq.
    rewrite E. simpl.
    destruct (Retry.rate_limit_wait parse_int sleep (Retry.retry_after r)) as [w|[w [ty e]]];
      destruct Hq as [Hg Hb]; simpl; unfold Retry.gets, Retry.backoffs in *; simpl.
    + rewrite Hg, Hb, E. done.
    + rewrite !List.filter_app, !length_app. simpl. unfold Retry.gets, Retry.backoffs in *.
      rewrite Hg, Hb. done.
  - simpl. destruct (Z.eqb_spec (Retry.status_code r) 200) as [E|_]; simpl; [|done].
    repeat split; try done. intros _. by exists r.
Qed.

Lemma attempts_allowed_stop max_retries k :
  1 <= k ->
  (max_retries + 1 <=? Z.of_nat k)%Z = bool_decide (Retry.attempts_allowed max_retries <= k).
Proof.
  intros Hk. unfold Retry.attempts_allowed.
  destruct (Z.leb_spec (max_retries + 1) (Z.of_nat k)); case_bool_decide; try done; lia.
Qed.

(** The retried [_fetch] from attempt [k] on: what it returns, if it
    returns. *)
Lemma retrying_inv max_retries server fuel k res events :
  1 <= k <= Retry.attempts_allowed max_retries ->
  Retry.retrying url parse_int sleep fuel max_retries server k = Some (res, events) ->
  exists j, k <= j <= Retry.attempts_allowed max_retries
    /\ Retry.gets events = S (j - k) /\ Retry.backoffs events = j - k
    /\ (forall i, k <= i < j -> Retry.good_attempt (server i) = false)
    /\ match res with
       | inl response =>
           exists r, response = Some r /\ server j = Retry.Answers r
                     /\ Retry.status_code r = 200%Z
       | inr _ =>
           j = Retry.attempts_allowed max_retries
           /\ Retry.good_attempt (server j) = false
       end.
Proof.
  revert k res events. induction fuel as [|fuel IH]; intros k res events Hk; [done|].
  simpl. pose proof (fetch_once (server k)) as Hf.
  destruct (Retry._fetch url parse_int sleep (server k)) as [result ev].
  destruct Hf as (Hg & Hb & Hgood & Hans).
  rewrite Hgood. destruct (Retry.good_attempt (server k)) eqn:Ek.
  - destruct (Hans eq_refl) as (r & Hr & ->). intros [= <- <-].
    exists k. replace (k - k) with 0 by lia. repeat split; try done; try lia.
    exists r. repeat split; try done.
    rewrite Hr in Ek. simpl in Ek. by apply Z.eqb_eq in Ek.
  - rewrite attempts_allowed_stop by lia. case_bool_decide as Hstop.
    + intros [= <- <-]. exists k.
      replace (k - k) with 0 by lia. repeat split; try done; lia.
    + destruct (Retry.retrying _ _ _ _ _ _ (S k)) as [[res' events']|] eqn:E; [|done].
      intros [= <- <-].
      destruct (IH (S k) res' events') as (j & Hj & Hg' & Hb' & Hbad & Hres); [lia|done|].
      exists j. split; [lia|].
      unfold Retry.gets, Retry.backoffs in *.
      rewrite !List.filter_app, !length_app. simpl. rewrite Hg, Hb, Hg', Hb'.
      split; [lia|]. split; [lia|]. split; [|done].
      intros i Hi. destruct (decide (i = k)) as [->|]; [done|]. apply Hbad. lia.
Qed.

(** The attempts allowed are a budget that suffices. *)
Lemma retrying_total max_retries server fuel k :
  1 <= k <= Retry.attempts_allowed max_retries ->
  Retry.attempts_allowed max_retries < fuel + k ->
  is_Some (Retry.retrying url parse_int sleep fuel max_retries server k).
Proof.
  revert k. induction fuel as [|fuel IH]; intros k Hk Hfuel.
  - lia.
  - simpl. destruct (Retry._fetch url parse_int sleep (server k)) as [result ev].
    destruct (Retry._is_good_response result); [by eexists|].
    rewrite attempts_allowed_stop by lia. case_bool_decide as Hstop; [by eexists|].
    destruct (IH (S k)) as [[res events] ->]; [lia|lia|]. by eexists.
Qed.

End RetryFacts.

(** X1. [fetch_with_retry] always returns, and what it returns is either an
    answer with status 200 or nothing: the answer of the first attempt
    that got status 200, if there is one among the [max_retries + 1]
    attempts allowed (one attempt if that is less); nothing if every one of
    them raised or got another status.  A response with another status is
    never handed to the caller. *)
Theorem fetch_with_retry_result url parse_int sleep fuel max_retries server :
  Retry.attempts_allowed max_retries <= fuel ->
  exists response events,
    Retry.fetch_with_retry url parse_int sleep fuel max_retries server = Some (response, events)
    /\ match response with
       | Some r =>
           Retry.status_code r = 200%Z
           /\ exists j, 1 <= j <= Retry.attempts_allowed max_retries
                /\ server j = Retry.Answers r
                /\ forall i, 1 <= i < j -> Retry.good_attempt (server i) = false
       | None =>
           forall i, 1 <= i <= Retry.attempts_allowed max_retries ->
             Retry.good_attempt (server i) = false
       end.
Proof.
  intros Hfuel.
  assert (Hn : 1 <= Retry.attempts_allowed max_retries) by (unfold Retry.attempts_allowed; lia).
  destruct (retrying_total url parse_int sleep max_retries server fuel 1)
    as [[res events] E]; [lia|lia|].
  destruct (retrying_inv url parse_int sleep max_retries server fuel 1 res events)
    as (j & Hj & _ & _ & Hbad & Hres); [lia|done|].
  unfold Retry.fetch_with_retry. rewrite E. destruct res as [response|[]].
  - destruct Hres as (r & -> & Hr & H200). exists (Some r), events. split; [done|].
    split; [done|]. by exists j.
  - destruct Hres as [-> Hlast]. eexists None, _. split; [done|].
    intros i Hi. destruct (decide (i = Retry.attempts_allowed max_retries)) as [->|]; [done|].
    apply Hbad. lia.
Qed.

Lemma fetch_with_retry_result_witness :
  let server := fun k => Retry.Answers {| Retry.status_code := if (k <? 3)%nat then 503 else 200;
                                           Retry.retry_after := None |} in
  exists response events,
    Retry.fetch_with_retry "u" (fun _ => None) (fun _ => Retry.Sleeps) 4 3 server
    = Some (response, events)
    /\ match response with
       | Some r =>
           Retry.status_code r = 200%Z
           /\ exists j, 1 <= j <= Retry.attempts_allowed 3
                /\ server j = Retry.Answers r
                /\ forall i, 1 <= i < j -> Retry.good_attempt (server i) = false
       | None =>
           forall i, 1 <= i <= Retry.attempts_allowed 3 -> Retry.good_attempt (server i) = false
       end.
Proof.
  intros server.
  apply (fetch_with_retry_result "u" (fun _ => None) (fun _ => Retry.Sleeps) 4 3 server).
  vm_compute. lia.
Defined.

(** X2. A call of [fetch_with_retry] sends at least one request and at
    most [max_retries + 1] (one if that is less): it stops at the first
    attempt that gets status 200 and otherwise uses up the attempts
    allowed.  The retry policy pauses one time fewer than requests are
    sent.  When the call returns nothing, the last line printed is the
    "UNEXPECTED error" one. *)
Theorem fetch_with_retry_requests url parse_int sleep fuel max_retries server response events :
  Retry.fetch_with_retry url parse_int sleep fuel max_retries server = Some (response, events) ->
  exists j, 1 <= j <= Retry.attempts_allowed max_retries
    /\ Retry.gets events = j /\ Retry.backoffs events = j - 1
    /\ (forall i, 1 <= i < j -> Retry.good_attempt (server i) = false)
    /\ match response with
       | Some _ => Retry.good_attempt (server j) = true
       | None =>
           j = Retry.attempts_allowed max_retries
           /\ Retry.good_attempt (server j) = false
           /\ last events = Some (Retry.Print (Retry.UnexpectedError url))
       end.
Proof.
  assert (Hn : 1 <= Retry.attempts_allowed max_retries) by (unfold Retry.attempts_allowed; lia).
  unfold Retry.fetch_with_retry.
  destruct (Retry.retrying _ _ _ _ _ _ 1) as [[res ev]|] eqn:E; [|done].
  destruct (retrying_inv url parse_int sleep max_retries server fuel 1 res ev)
    as (j & Hj & Hg & Hb & Hbad & Hres); [lia|done|].
  destruct res as [resp|[]]; intros [= <- <-]; exists j.
  - destruct Hres as (r & -> & Hr & H200).
    split; [lia|]. split; [rewrite Hg; lia|]. split; [done|]. split; [done|].
    rewrite Hr. simpl. by apply Z.eqb_eq.
  - destruct Hres as [-> Hlast].
    split; [lia|]. unfold Retry.gets, Retry.backoffs in *.
    rewrite !List.filter_app, !length_app. simpl. rewrite Hg, Hb.
    split; [lia|]. split; [lia|]. split; [done|]. split; [done|]. split; [done|].
    by rewrite last_snoc.
Qed.

Lemma fetch_with_retry_requests_witness :
  let server := fun k => Retry.Answers {| Retry.status_code := if (k <? 3)%nat then 429 else 200;
                                           Retry.retry_after := Some "7" |} in
  let run := Retry.fetch_with_retry "u" (fun _ => Some 7%Z) (fun _ => Retry.Sleeps) 4 3 server in
  exists response events, run = Some (response, events)
    /\ exists j, 1 <= j <= Retry.attempts_allowed 3
         /\ Retry.gets events = j /\ Retry.backoffs events = j - 1
         /\ (forall i, 1 <= i < j -> Retry.good_attempt (server i) = false)
         /\ match response with
            | Some _ => Retry.good_attempt (server j) = true
            | None =>
                j = Retry.attempts_allowed 3
                /\ Retry.good_attempt (server j) = false
                /\ last events = Some (Retry.Print (Retry.UnexpectedError "u"))
            end.
Proof.
  intros server run. eexists _, _. split; [reflexivity|].
  apply (fetch_with_retry_requests "u" (fun _ => Some 7%Z) (fun _ => Retry.Sleeps) 4 3 server).
  reflexivity.
Defined.

(** Two rate-limited answers and then a good one, with three retries
    allowed: three requests, each after the request delay; the pause the
    server asked for after each 429; the policy's pause between
    attempts. *)
Example fetch_with_retry_429_run :
  Retry.fetch_with_retry "u" (fun _ => Some 7%Z) (fun _ => Retry.Sleeps) 4 3
    (fun k => Retry.Answers {| Retry.status_code := if (k <? 3)%nat then 429 else 200;
                                Retry.retry_after := Some "7" |})
  = Some (Some {| Retry.status_code := 200; Retry.retry_after := Some "7" |},
          [Retry.SleepRequestDelay; Retry.Get "u";
           Retry.Print (Retry.HttpError 429 "u" " - RATE LIMITED: Too many requests");
           Retry.Print (Retry.RateLimitedWaiting 7); Retry.SleepSeconds 7;
           Retry.SleepBackoff 1;
           Retry.SleepRequestDelay; Retry.Get "u";
           Retry.Print (Retry.HttpError 429 "u" " - RATE LIMITED: Too many requests");
           Retry.Print (Retry.RateLimitedWaiting 7); Retry.SleepSeconds 7;
           Retry.SleepBackoff 2;
           Retry.SleepRequestDelay; Retry.Get "u"]).
Proof. reflexivity. Qed.

(** ** The text of a regulation page *)

Example split_lines_ex :
  split_lines ("a" +:+ String nl "" +:+ String nl "" +:+ "b" +:+ String nl "")
  = ["a"; ""; "b"; ""].
Proof. reflexivity. Qed.

Example split_lines_empty : split_lines "" = [""].
Proof. reflexivity. Qed.

Example strip_ascii_ex : strip_ascii "  Rule 1.1  " = "Rule 1.1" /\ strip_ascii "   " = "".
Proof. split; reflexivity. Qed.

Section LeafTextFacts.

Variable strip : string -> string.

(** *** The breadcrumb path *)

Lemma starts_path_mentions segment : starts_path segment = mentions_code segment.
Proof.
  unfold starts_path, mentions_code. case_bool_decide as E; [|by rewrite andb_true_r].
  by rewrite E.
Qed.

Lemma filter_path_loop_collecting path_arr kept :
  filter_path_loop strip path_arr true kept = kept ++ (strip <$> path_arr).
Proof.
  revert kept. induction path_arr as [|x l IH]; intros kept.
  - simpl. by rewrite app_nil_r.
  - rewrite fmap_cons. simpl filter_path_loop. rewrite IH. by rewrite <- app_assoc.
Qed.

Lemma filtered_path_split path_arr :
  exists dropped,
    strip <$> path_arr = dropped ++ filtered_path strip path_arr
    /\ Forall (fun s => mentions_code s = false) dropped
    /\ match filtered_path strip path_arr with
       | first :: _ => mentions_code first = true
       | [] => True
       end.
Proof.
  unfold filtered_path. induction path_arr as [|x l IH].
  - by exists [].
  - rewrite fmap_cons. cbn [filter_path_loop negb andb].
    rewrite starts_path_mentions. destruct (mentions_code (strip x)) eqn:E.
    + rewrite filter_path_loop_collecting. exists []. split; [done|]. split; [done|].
      simpl. exact E.
    + destruct IH as (dropped & Hs & Hd & Hf). exists (strip x :: dropped).
      rewrite Hs at 1. split; [done|]. split; [by constructor|done].
Qed.

Lemma concat_empty sep (s : string) (l : list string) :
  String.concat sep (s :: l) = "" -> s = "".
Proof.
  destruct l as [|y l]; simpl; [done|]. destruct s; [done|]. intros H. discriminate H.
Qed.

(** *** The content lines *)

Lemma clean_loop_collapse lines kept :
  clean_loop strip lines kept
  = kept ++ collapse strip (bool_decide (kept = []) || bool_decide (last kept = Some "")) lines.
Proof.
  revert kept. induction lines as [|x l IH]; intros kept; simpl.
  - by rewrite app_nil_r.
  - case_bool_decide as Ex; simpl.
    + destruct (bool_decide (kept = [])) eqn:E1; simpl; [by rewrite IH, E1|].
      destruct (bool_decide (last kept = Some "")) eqn:E2; simpl; [by rewrite IH, E1, E2|].
      rewrite IH, last_snoc. rewrite (bool_decide_eq_true_2 (Some "" = Some "")) by done.
      rewrite orb_true_r. by rewrite <- app_assoc.
    + rewrite IH, last_snoc, <- app_assoc. simpl.
      rewrite (bool_decide_eq_false_2 (kept ++ [strip x] = [])) by (by destruct kept).
      rewrite (bool_decide_eq_false_2 (Some (strip x) = Some "")) by congruence.
      done.
Qed.

Lemma collapse_separated no_blank lines : separated no_blank (collapse strip no_blank lines).
Proof.
  revert no_blank. induction lines as [|x l IH]; intros no_blank; simpl; [done|].
  case_bool_decide as Ex.
  - destruct no_blank; [apply IH|]. simpl. split; [done|apply IH].
  - simpl. rewrite (bool_decide_eq_false_2 _ Ex). apply IH.
Qed.

Lemma collapse_nonblank no_blank lines :
  nonblank (collapse strip no_blank lines) = nonblank (strip <$> lines).
Proof.
  unfold nonblank. revert no_blank. induction lines as [|x l IH]; intros no_blank; simpl; [done|].
  case_bool_decide as Ex.
  - rewrite (filter_cons_False _ (strip x)) by (intros H; by apply H).
    destruct no_blank; [apply IH|].
    rewrite (filter_cons_False _ "") by (intros H; by apply H). apply IH.
  - rewrite !(filter_cons_True _ (strip x)) by done. by rewrite IH.
Qed.

Lemma collapse_fixed no_blank lines :
  (forall s, strip (strip s) = strip s) -> strip "" = "" ->
  Forall (fun s => strip s = s) (collapse strip no_blank lines).
Proof.
  intros Hidem Hempty. revert no_blank.
  induction lines as [|x l IH]; intros no_blank; simpl; [constructor|].
  case_bool_decide as Ex.
  - destruct no_blank; [apply IH|]. constructor; [done|apply IH].
  - constructor; [apply Hidem|apply IH].
Qed.

Lemma collapse_id no_blank l :
  separated no_blank l -> Forall (fun s => strip s = s) l -> collapse strip no_blank l = l.
Proof.
  revert no_blank. induction l as [|x l IH]; intros no_blank Hs Hf; simpl; [done|].
  apply Forall_cons in Hf as [Hx Hf]. simpl in Hs. rewrite Hx.
  case_bool_decide as Ex.
  - destruct Hs as [-> Hs]. rewrite Ex. f_equal. by apply IH.
  - f_equal. by apply IH.
Qed.

End LeafTextFacts.

Lemma separated_app no_blank (l1 l2 : list string) :
  separated no_blank (l1 ++ l2) -> separated no_blank l1.
Proof.
  revert no_blank. induction l1 as [|x l IH]; intros no_blank; simpl; [done|].
  case_bool_decide as Ex; [intros [-> Hs]; split; [done|by eapply IH] | apply IH].
Qed.

Lemma pop_blank_spec (l : list string) fuel :
  length l <= fuel ->
  exists k, l = pop_blank fuel l ++ replicate k "" /\ last (pop_blank fuel l) ≠ Some "".
Proof.
  revert l. induction fuel as [|fuel IH]; intros l Hlen.
  - destruct l; [|simpl in Hlen; lia]. by exists 0.
  - simpl. destruct (bool_decide (l = [])) eqn:E1; simpl.
    + apply bool_decide_eq_true_1 in E1 as ->. by exists 0.
    + clear E1. destruct (bool_decide (last l = Some "")) eqn:E2.
      * apply bool_decide_eq_true_1 in E2. apply last_Some in E2 as [l' ->].
        rewrite removelast_last.
        destruct (IH l') as (k & Hk & Hl); [rewrite length_app in Hlen; simpl in Hlen; lia|].
        exists (S k). split; [|done]. rewrite replicate_S_end, app_assoc. by rewrite <- Hk.
      * apply bool_decide_eq_false_1 in E2. exists 0. by rewrite app_nil_r.
Qed.

Lemma pop_blank_id (l : list string) fuel : last l ≠ Some "" -> pop_blank fuel l = l.
Proof.
  intros Hl. destruct fuel; simpl; [done|]. rewrite (bool_decide_eq_false_2 _ Hl).
  by rewrite andb_false_r.
Qed.

Lemma nonblank_app_blanks (l : list string) k : nonblank (l ++ replicate k "") = nonblank l.
Proof.
  unfold nonblank. rewrite filter_app.
  assert (H : filter (fun s : string => s ≠ "") (replicate k "") = []).
  { induction k; simpl; [done|]. by rewrite filter_cons_False by (intros H; by apply H). }
  by rewrite H, app_nil_r.
Qed.

(** Separated lines that do not end in an empty one have every empty
    line between two others. *)
Lemma separated_blanks no_blank (l : list string) i :
  separated no_blank l -> last l ≠ Some "" -> l !! i = Some "" ->
  (i = 0 -> no_blank = false)
  /\ (forall j, i = S j -> exists a, l !! j = Some a /\ a ≠ "")
  /\ exists b, l !! S i = Some b /\ b ≠ "".
Proof.
  revert no_blank i. induction l as [|x l IH]; intros no_blank i Hs Hl Hi; [done|].
  assert (Hl' : l ≠ [] -> last l ≠ Some "").
  { intros Hne. destruct l; [done|]. exact Hl. }
  simpl in Hs. destruct i as [|i]; simpl in Hi.
  - simplify_eq. rewrite bool_decide_eq_true_2 in Hs by done. destruct Hs as [-> Hs].
    split; [done|]. split; [intros j [=]|].
    destruct l as [|b l]; [done|]. exists b. split; [done|].
    simpl in Hs. intros ->. rewrite bool_decide_eq_true_2 in Hs by done. by destruct Hs.
  - assert (Hne : l ≠ []) by (intros ->; done).
    case_bool_decide as Ex.
    + destruct Hs as [-> Hs].
      destruct (IH true i Hs (Hl' Hne) Hi) as (H0 & Hj & Hb).
      split; [done|]. split; [|exact Hb].
      intros j [= <-]. destruct i as [|i]; [by specialize (H0 eq_refl)|].
      destruct (Hj i eq_refl) as (a & Ha & Hna). by exists a.
    + destruct (IH false i Hs (Hl' Hne) Hi) as (H0 & Hj & Hb).
      split; [done|]. split; [|exact Hb].
      intros j [= <-]. destruct i as [|i]; [by exists x|].
      destruct (Hj i eq_refl) as (a & Ha & Hna). by exists a.
Qed.

Lemma cleaned_lines_separated strip lines :
  separated true (cleaned_lines strip lines) /\ last (cleaned_lines strip lines) ≠ Some ""
  /\ exists k, collapse strip true lines = cleaned_lines strip lines ++ replicate k "".
Proof.
  unfold cleaned_lines. rewrite clean_loop_collapse. simpl.
  destruct (pop_blank_spec (collapse strip true lines) (length (collapse strip true lines)))
    as (k & Hk & Hl); [done|].
  split; [|split; [done|by exists k]].
  apply (separated_app true _ (replicate k "")). rewrite <- Hk. apply collapse_separated.
Qed.

(** X3. The breadcrumb path of a record (lines 293-304): the segments
    kept are the stripped segments from the first one on that mentions
    "Rules" or "Code", in order and with everything after it; the test
    that this segment is not "U.S. Regulations" never decides anything,
    since that text mentions neither.  The path is empty exactly when no
    segment mentions "Rules" or "Code". *)
Theorem filtered_path_spec (strip : string -> string) (path_arr : list string) :
  (forall segment, starts_path segment = mentions_code segment)
  /\ (exists dropped,
        strip <$> path_arr = dropped ++ filtered_path strip path_arr
        /\ Forall (fun s => mentions_code s = false) dropped
        /\ match filtered_path strip path_arr with
           | first :: _ => mentions_code first = true
           | [] => True
           end)
  /\ (clean_path_of strip path_arr = ""
      <-> Forall (fun s => mentions_code s = false) (strip <$> path_arr)).
Proof.
  split; [exact starts_path_mentions|]. split; [apply filtered_path_split|].
  destruct (filtered_path_split strip path_arr) as (dropped & Hs & Hd & Hf).
  unfold clean_path_of. destruct (filtered_path strip path_arr) as [|s l] eqn:E.
  - rewrite app_nil_r in Hs. by rewrite Hs.
  - split.
    + intros H. apply concat_empty in H. by rewrite H in Hf.
    + rewrite Hs. intros H. apply Forall_app in H as [_ H]. apply Forall_cons in H as [H _].
      by rewrite H in Hf.
Qed.

Example filtered_path_ex :
  clean_path_of strip_ascii
    ["Justia "; " U.S. Law "; " U.S. Regulations "; " Administrative Rules of Montana ";
     " Department 1 "; " Rule 1.1"]
  = "Administrative Rules of Montana" +:+ breadcrumb_sep +:+ "Department 1"
    +:+ breadcrumb_sep +:+ "Rule 1.1".
Proof. reflexivity. Qed.

(** X4. The content lines of a record (lines 404-414): the lines kept that
    are not empty are the stripped lines of the input that are not empty,
    in order; every empty line kept stands between two lines that are not
    empty, so the content never starts or ends with an empty line and
    never has two in a row. *)
Theorem cleaned_lines_spec (strip : string -> string) (lines : list string) :
  nonblank (cleaned_lines strip lines) = nonblank (strip <$> lines)
  /\ blanks_separate (cleaned_lines strip lines).
Proof.
  destruct (cleaned_lines_separated strip lines) as (Hs & Hl & k & Hk). split.
  - rewrite <- (collapse_nonblank strip true lines), Hk. by rewrite nonblank_app_blanks.
  - intros i Hi.
    destruct (separated_blanks true _ i Hs Hl Hi) as (H0 & Hj & b & Hb & Hnb).
    destruct i as [|j]; [by specialize (H0 eq_refl)|].
    destruct (Hj j eq_refl) as (a & Ha & Hna). by exists j, a, b.
Qed.

Example clean_content_ex :
  clean_content strip_ascii
    (String nl "" +:+ "  Rule 1.1 " +:+ String nl "" +:+ "  " +:+ String nl "" +:+ String nl ""
     +:+ " Text." +:+ String nl "" +:+ String nl "")
  = "Rule 1.1" +:+ String nl "" +:+ String nl "" +:+ "Text.".
Proof. reflexivity. Qed.

(** [strip_ascii] strips what it has stripped no further. *)
Lemma lstrip_fixed s :
  match s with String c _ => is_space c = false | EmptyString => True end -> lstrip s = s.
Proof. destruct s as [|c s]; simpl; [done|]. by intros ->. Qed.

Lemma lstrip_head s :
  match lstrip s with String c _ => is_space c = false | EmptyString => True end.
Proof. induction s as [|c s IH]; simpl; [done|]. by destruct (is_space c) eqn:E. Qed.

Lemma rstrip_head s :
  match s with String c _ => is_space c = false | EmptyString => True end ->
  match rstrip s with String c _ => is_space c = false | EmptyString => True end.
Proof. destruct s as [|c s]; simpl; [done|]. intros E. rewrite E. by destruct (rstrip s). Qed.

Lemma rstrip_idem s : rstrip (rstrip s) = rstrip s.
Proof.
  induction s as [|c s IH]; simpl; [done|].
  destruct (rstrip s) as [|d r] eqn:E.
  - destruct (is_space c) eqn:Ec; simpl; [done|]. by rewrite Ec.
  - change (rstrip (String c (String d r))) with
      (match rstrip (String d r) with
       | EmptyString => if is_space c then EmptyString else String c EmptyString
       | r' => String c r'
       end).
    by rewrite IH.
Qed.

Lemma strip_ascii_idem s : strip_ascii (strip_ascii s) = strip_ascii s.
Proof.
  unfold strip_ascii. rewrite (lstrip_fixed (rstrip (lstrip s))).
  - apply rstrip_idem.
  - apply rstrip_head, lstrip_head.
Qed.

(** X5. Cleaning is idempotent: for a [strip] that leaves the empty text
    and what it has stripped unchanged (as Python's does), the lines kept
    are unchanged by a second pass of lines 404-414. *)
Theorem cleaned_lines_idempotent (strip : string -> string) (lines : list string) :
  (forall s, strip (strip s) = strip s) -> strip "" = "" ->
  cleaned_lines strip (cleaned_lines strip lines) = cleaned_lines strip lines.
Proof.
  intros Hidem Hempty.
  destruct (cleaned_lines_separated strip lines) as (Hs & Hl & k & Hk).
  assert (Hf : Forall (fun s => strip s = s) (cleaned_lines strip lines)).
  { pose proof (collapse_fixed strip true lines Hidem Hempty) as H.
    rewrite Hk in H. by apply Forall_app in H as [H _]. }
  unfold cleaned_lines at 1. rewrite clean_loop_collapse. simpl.
  rewrite (collapse_id strip true _ Hs Hf). by apply pop_blank_id.
Qed.

Lemma cleaned_lines_idempotent_witness :
  let lines := [""; "  Rule 1.1 "; "  "; ""; " Text."; ""] in
  cleaned_lines strip_ascii (cleaned_lines strip_ascii lines) = cleaned_lines strip_ascii lines.
Proof.
  intros lines.
  apply (cleaned_lines_idempotent strip_ascii lines); [exact strip_ascii_idem|reflexivity].
Defined.

(** ** Grouping the records by section *)

Lemma group_by_section_fold (records : list Rec) (m : gmap nat (list Rec)) i :
  let grouped :=
    foldl (fun records_by_section record =>
             match rec_lex_path record with
             | section_idx :: _ =>
                 <[section_idx := default [] (records_by_section !! section_idx) ++ [record]]>
                   records_by_section
             | [] => records_by_section
             end) m records in
  default [] (grouped !! i) = default [] (m !! i) ++ in_section i records
  /\ (grouped !! i = None <-> m !! i = None /\ in_section i records = []).
Proof.
  revert m. unfold in_section.
  induction records as [|r l IH]; intros m; simpl.
  - rewrite app_nil_r. split; [done|]. split; [by intros ->|by intros [-> _]].
  - destruct (rec_lex_path r) as [|j p] eqn:E.
    + rewrite filter_cons_False by (by rewrite E). apply IH.
    + destruct (IH (<[j := default [] (m !! j) ++ [r]]> m)) as [IH1 IH2]. clear IH.
      destruct (decide (j = i)) as [->|Hne].
      * rewrite filter_cons_True by (by rewrite E).
        rewrite lookup_insert_eq in IH1, IH2. simpl in IH1. split.
        -- rewrite IH1. by rewrite <- app_assoc.
        -- split; [intros H; by apply IH2 in H as [H _]|by intros [_ H]].
      * rewrite filter_cons_False by (rewrite E; simpl; congruence).
        rewrite lookup_insert_ne in IH1, IH2 by done. done.
Qed.

(** The group of an index, and whether there is one. *)
Lemma group_by_section_groups (all_records : list Rec) i :
  default [] (group_by_section all_records !! i) = in_section i all_records
  /\ (group_by_section all_records !! i = None <-> in_section i all_records = []).
Proof.
  destruct (group_by_section_fold all_records ∅ i) as [H1 H2].
  fold (group_by_section all_records) in H1, H2. rewrite lookup_empty in H1, H2.
  split; [exact H1|]. rewrite H2. split; [by intros [_ H]|done].
Qed.

(** X6. Grouping by section (lines 355-359) partitions the records: the
    group of index [i] holds the records whose lex_path starts with [i],
    in file order; there is a group exactly for the indices that start
    some record's lex_path; a record with an empty lex_path is in no
    group. *)
Theorem group_by_section_spec (all_records : list Rec) :
  (forall i, default [] (group_by_section all_records !! i) = in_section i all_records)
  /\ (forall i, is_Some (group_by_section all_records !! i)
        <-> exists record, record ∈ all_records /\ head (rec_lex_path record) = Some i)
  /\ (forall i group record, group_by_section all_records !! i = Some group ->
        record ∈ group -> record ∈ all_records /\ exists rest, rec_lex_path record = i :: rest).
Proof.
  split; [intros i; apply group_by_section_groups|]. split.
  - intros i. destruct (group_by_section_groups all_records i) as [_ Hn].
    rewrite <- not_eq_None_Some, Hn.
    unfold in_section. split.
    + intros Hne. destruct (filter _ all_records) as [|r l] eqn:E; [done|].
      assert (Hr : r ∈ filter (fun record => head (rec_lex_path record) = Some i) all_records)
        by (rewrite E; left).
      apply list_elem_of_filter in Hr as [Hh Hr]. by exists r.
    + intros (r & Hr & Hh) E.
      assert (Hin : r ∈ filter (fun record => head (rec_lex_path record) = Some i) all_records)
        by (by apply list_elem_of_filter).
      rewrite E in Hin. inversion Hin.
  - intros i group record Hgroup Hin.
    destruct (group_by_section_groups all_records i) as [Hd _].
    rewrite Hgroup in Hd. simpl in Hd. rewrite Hd in Hin.
    apply list_elem_of_filter in Hin as [Hh Hin]. split; [done|].
    destruct (rec_lex_path record) as [|j rest]; simplify_eq/=. by exists rest.
Qed.

Example group_by_section_ex :
  let grouped := group_by_section [bare_record [1; 0]; bare_record []; bare_record [0; 2];
                                   bare_record [1; 1]] in
  grouped !! 0 = Some [bare_record [0; 2]]
  /\ grouped !! 1 = Some [bare_record [1; 0]; bare_record [1; 1]]
  /\ grouped !! 2 = None.
Proof. vm_compute. done. Qed.

(** ** The order check on what a run writes *)

Lemma issues_from_sorted k prev paths :
  StronglySorted lex_lt (prev :: paths) -> issues_from k prev paths = [].
Proof.
  revert k prev. induction paths as [|c rest IH]; intros k prev Hs; simpl; [done|].
  apply StronglySorted_inv in Hs as [Hs Hprev].
  apply Forall_cons in Hprev as [Hpc _].
  destruct (list_ltb c prev) eqn:E.
  - apply list_ltb_spec in E. exfalso. apply (lex_lt_irrefl c). by eapply lex_lt_trans.
  - simpl. by apply IH.
Qed.

Lemma validate_section_order_sorted (records : list Rec) :
  StronglySorted rec_lt records -> validate_section_order records = (true, []).
Proof.
  intros Hs.
  assert (Hp : StronglySorted lex_lt (rec_lex_path <$> records)).
  { induction Hs as [|x l' _ IH Hx]; simpl; constructor; [done|].
    apply Forall_fmap. exact Hx. }
  assert (Hi : (validate_section_order records).2 = []).
  { rewrite validate_section_order_issues.
    destruct (rec_lex_path <$> records) as [|p rest]; [done|]. by apply issues_from_sorted. }
  unfold validate_section_order in *. simpl in Hi. by rewrite Hi.
Qed.

Lemma StronglySorted_filter {A} (R : relation A) (P : A -> Prop) `{!forall x, Decision (P x)}
    (l : list A) :
  StronglySorted R l -> StronglySorted R (filter P l).
Proof.
  induction 1 as [|x l Hs IH Hx]; [constructor|].
  destruct (decide (P x)).
  - rewrite filter_cons_True by done. constructor; [done|].
    apply Forall_forall. intros y Hy. apply list_elem_of_filter in Hy as [_ Hy].
    by eapply Forall_forall in Hx.
  - by rewrite filter_cons_False.
Qed.

(** X7. What a run writes passes the order check: for every site crawled,
    fresh or resumed, and every site validated against, [validate_state]
    on the records written by the run (the whole output file of a run that
    does not resume) reports every section as ordered, with no issue. *)
Theorem crawl_output_ordered {Up : Upper} site loads n state_abb resume prior mode cf st
    site' fuel state_name_lower reports :
  collect_regulations_for_state site loads n state_abb resume prior = Some (Finished mode cf st) ->
  validate_state site' fuel state_name_lower (jsonl st) = Some reports ->
  Forall (fun report => is_ordered report = true /\ order_issues report = []) reports.
Proof.
  intros Hrun Hval. apply collect_writes in Hrun as [Hs _].
  unfold validate_state in Hval. apply mapM_Some in Hval.
  induction Hval as [|section report sections reports Hone _ IH]; constructor; [|exact IH].
  unfold validate_one in Hone.
  destruct (walk_section _ _ _ _) as [expected|]; [|done].
  destruct (validate_section_completeness _ _ _) as [[c m] e].
  rewrite (proj1 (group_by_section_groups (jsonl st) _)) in Hone. unfold in_section in Hone.
  rewrite validate_section_order_sorted in Hone by (by apply StronglySorted_filter).
  by simplify_eq.
Qed.

Lemma crawl_output_ordered_witness :
  let st := default init_state (final_state
              (collect_regulations_for_state two_departments (loads_const []) 20 "MT" false None)) in
  Forall (fun report => is_ordered report = true /\ order_issues report = [])
    (default [] (validate_state two_departments 20 "montana" (jsonl st))).
Proof.
  intros st.
  apply (crawl_output_ordered two_departments (loads_const []) 20 "MT" false None Truncate None st
           two_departments 20 "montana"); vm_compute; reflexivity.
Defined.

(** ** What becomes of a page requested *)

Ltac page_step :=
  simpl; rewrite ?app_nil_r, <- ?app_assoc; try done; try (by repeat constructor).

Section Accounting.

Context {Up : Upper}.

Variable site : string -> Page.
Variables state_abb site_url : string.

Lemma accounted_for_mono recs recs' fails fails' u :
  recs ⊆ recs' -> fails ⊆ fails' ->
  accounted_for site state_abb recs fails u -> accounted_for site state_abb recs' fails' u.
Proof.
  intros Hr Hf. unfold accounted_for.
  destruct (site u) as [status|links|[d|e|status]]; try done; auto.
  intros [p Hp]. exists p. auto.
Qed.

Lemma accounted_silent st st' :
  requests st' = requests st -> jsonl st' = jsonl st -> failed_file st' = failed_file st ->
  accounted site state_abb [] st st'.
Proof.
  intros Hr Hj Hf. exists [], [], []. rewrite !app_nil_r. repeat split; try done.
  intros u Hu. inversion Hu.
Qed.

Lemma accounted_after skipped st0 st st' :
  requests st0 = requests st -> jsonl st0 = jsonl st -> failed_file st0 = failed_file st ->
  accounted site state_abb skipped st0 st' -> accounted site state_abb skipped st st'.
Proof.
  intros Hr Hj Hf (reqs & recs & fails & H1 & H2 & H3 & H).
  exists reqs, recs, fails. by rewrite <- Hr, <- Hj, <- Hf.
Qed.

Lemma accounted_trans sk1 sk2 st st1 st2 :
  accounted site state_abb sk1 st st1 -> accounted site state_abb sk2 st1 st2 ->
  accounted site state_abb (sk1 ++ sk2) st st2.
Proof.
  intros (r1 & c1 & f1 & Hr1 & Hj1 & Hf1 & Ha1 & Hs1) (r2 & c2 & f2 & Hr2 & Hj2 & Hf2 & Ha2 & Hs2).
  exists (r1 ++ r2), (c1 ++ c2), (f1 ++ f2).
  rewrite Hr2, Hr1, Hj2, Hj1, Hf2, Hf1, !app_assoc. repeat split; try done.
  - intros u [Hu|Hu]%elem_of_app.
    + destruct (Ha1 u Hu) as [H|H]; [left; apply elem_of_app; by left|right].
      eapply accounted_for_mono; [| |exact H]; intros x Hx; apply elem_of_app; by left.
    + destruct (Ha2 u Hu) as [H|H]; [left; apply elem_of_app; by right|right].
      eapply accounted_for_mono; [| |exact H]; intros x Hx; apply elem_of_app; by right.
  - by apply Forall_app.
Qed.

(** One page entered and dealt with on the spot. *)
Lemma accounted_page url st st' reqs recs fails skipped :
  requests st' = requests st ++ (Classify, url) :: reqs ->
  Forall (fun r => r.1 ≠ Classify) reqs ->
  jsonl st' = jsonl st ++ recs ->
  failed_file st' = failed_file st ++ fails ->
  url ∈ skipped \/ accounted_for site state_abb recs fails url ->
  Forall (fun u => exists body, site u = Regulation body) skipped ->
  accounted site state_abb skipped st st'.
Proof.
  intros Hr Hreqs Hj Hf Hurl Hsk. exists ((Classify, url) :: reqs), recs, fails.
  repeat split; try done.
  intros u [Hu|Hu]%elem_of_cons; [by simplify_eq|].
  apply (proj1 (Forall_forall _ _) Hreqs) in Hu. done.
Qed.

Lemma scrape_branch_accounted n url path cf st st' :
  scrape_branch site state_abb site_url n url path cf st = Some st' ->
  exists skipped, accounted site state_abb skipped st st' /\ length skipped <= skips_allowed cf.
Proof.
  apply (scrape_branch_rule site state_abb site_url
           (fun _ _ cf st st' =>
              exists skipped, accounted site state_abb skipped st st'
                              /\ length skipped <= skips_allowed cf)
           (fun _ _ cf s k _ st st' =>
              exists skipped, accounted site state_abb skipped st st'
                /\ length skipped <= if (k <=? s)%nat then skips_allowed cf else 0)).
  - intros. exists []. split; [by apply accounted_silent|simpl; lia].
  - intros u p c s status _ Hsite. exists []. split; [|simpl; lia].
    apply (accounted_page u _ _ [] [] [FailedStatus u status]); page_step.
    right. unfold accounted_for. rewrite Hsite. left.
  - intros u p c s links s' _ Hsite (skipped & (reqs & recs & fails & Hr & Hj & Hf & Ha & Hs) & Hlen).
    exists skipped. split; [|exact Hlen].
    exists ((Classify, u) :: reqs), recs, fails. simpl in Hr, Hj, Hf.
    rewrite Hr, Hj, Hf, <- app_assoc. repeat split; try done.
    intros v [Hv|Hv]%elem_of_cons; [|by apply Ha].
    simplify_eq. right. unfold accounted_for. by rewrite Hsite.
  - intros u p c s body _ Hsite Ht _. exists [u]. split; [|unfold skips_allowed; rewrite Ht; done].
    apply (accounted_page u _ _ [] [] []); page_step.
    constructor; [by exists body|constructor].
  - intros u p c s d _ Hsite _. exists []. split; [|simpl; lia].
    apply (accounted_page u _ _ [(Extract, u)] [leaf_record state_abb u p d] []); page_step.
    right. unfold accounted_for. rewrite Hsite. exists p. apply list_elem_of_here.
  - intros u p c s e _ Hsite _. exists []. split; [|simpl; lia].
    apply (accounted_page u _ _ [(Extract, u)] [] [FailedLeaf u e]); page_step.
    right. unfold accounted_for. rewrite Hsite. apply list_elem_of_here.
  - intros u p c s status _ Hsite _. exists []. split; [|simpl; lia].
    apply (accounted_page u _ _ [(Extract, u)] [] [FailedLeafFetch u]); page_step.
    right. unfold accounted_for. rewrite Hsite. apply list_elem_of_here.
  - intros. exists []. split; [by apply accounted_silent|simpl; lia].
  - intros u p c s all k l links s0 s' _ _ Hk (skipped & Ha & Hlen).
    exists skipped. split; [done|].
    destruct (Nat.leb_spec (S k) s); [|lia]. destruct (Nat.leb_spec k s); [done|lia].
  - intros u p c s all k l links s0 s' _ _ Hk _ (skipped & Ha & Hlen).
    exists skipped. split; [done|].
    destruct (Nat.leb_spec (S k) s); [lia|]. lia.
  - intros u p c s all k l links s0 s' _ _ Hk _ _ (skipped & Ha & Hlen).
    exists skipped. split; [by eapply accounted_after; [| | |exact Ha]|].
    destruct (Nat.leb_spec (S k) s); [lia|]. lia.
  - intros. exists []. split; [by apply accounted_silent|simpl; lia].
  - intros u p c s all k l links s0 s1 s' _ _ Hk _ _ _ (sk1 & Ha1 & Hl1) (sk2 & Ha2 & Hl2).
    exists (sk1 ++ sk2). split; [by eapply accounted_trans|].
    rewrite length_app. destruct (Nat.leb_spec (S k) s); [lia|].
    unfold child_cursor, skips_allowed in *.
    destruct (Nat.leb_spec k s); destruct (Nat.ltb_spec s k); try lia;
      destruct (truthy c) eqn:Ht; simpl in *; try rewrite Ht in *; lia.
Qed.

End Accounting.

Lemma worker_accounted {Up : Upper} site state_abb n cf links st st' :
  worker site n state_abb
    (omap (enqueue_one cf (start_branch_index cf)) (enumerate_from 0 links)) st = Some st' ->
  exists skipped, accounted site state_abb skipped st st' /\ length skipped <= skips_allowed cf.
Proof.
  intros H.
  cut (exists skipped, accounted site state_abb skipped st st'
         /\ length skipped <= if (0 <=? start_branch_index cf)%nat then skips_allowed cf else 0).
  { intros (skipped & Ha & Hlen). by exists skipped. }
  revert H.
  apply (worker_rule site state_abb cf links
           (fun _ _ c st st' =>
              exists skipped, accounted site state_abb skipped st st'
                              /\ length skipped <= skips_allowed c)
           (fun k _ st st' =>
              exists skipped, accounted site state_abb skipped st st'
                /\ length skipped
                   <= if (k <=? start_branch_index cf)%nat then skips_allowed cf else 0));
    [| | | |done].
  - intros. exists []. split; [by apply accounted_silent|simpl; lia].
  - intros k l rest s s' _ Hk (skipped & Ha & Hlen). exists skipped. split; [done|].
    destruct (Nat.leb_spec (S k) (start_branch_index cf)); [|lia].
    destruct (Nat.leb_spec k (start_branch_index cf)); [done|lia].
  - intros k l rest s s1 s' _ Hk (sk1 & Ha1 & Hl1) (sk2 & Ha2 & Hl2).
    exists (sk1 ++ sk2). split; [by eapply accounted_trans|].
    rewrite length_app. destruct (Nat.leb_spec (S k) (start_branch_index cf)); [lia|].
    unfold skips_allowed in *.
    destruct (Nat.leb_spec k (start_branch_index cf));
      destruct (Nat.eqb_spec k (start_branch_index cf)); try lia;
      destruct (truthy cf) eqn:Ht; simpl in *; try rewrite Ht in *; lia.
  - intros u p c s s'. apply scrape_branch_accounted.
Qed.

(** X8. No page is dropped silently.  In a run, every page requested by
    [scrape_branch] that is not a listing leaves a trace: a page that does
    not answer, a regulation whose extraction raises and one whose second
    request fails leave the failure entry of their kind, and a regulation
    whose extraction succeeds leaves its record.  The one exception is a
    regulation page passed over by a run that resumes with a cursor (at
    most one page; none in a run without cursor).  The start page is not
    requested by [scrape_branch]: when it is not a listing, the run ends
    with nothing written and nothing logged. *)
Theorem every_page_accounted {Up : Upper} site loads n state_abb resume prior mode cf st :
  collect_regulations_for_state site loads n state_abb resume prior = Some (Finished mode cf st) ->
  (exists skipped,
     length skipped <= (if truthy cf then 1 else 0)
     /\ Forall (fun u => exists body, site u = Regulation body) skipped
     /\ forall u, (Classify, u) ∈ requests st ->
          u ∈ skipped \/ accounted_for site state_abb (jsonl st) (failed_file st) u)
  /\ (forall state_name,
        JUR_URL_MAP !! state_abb = Some state_name ->
        (forall links, site (state_init_url state_name) ≠ Listing links) ->
        requests st = [(Startup, state_init_url state_name)]
        /\ jsonl st = [] /\ failed_file st = []).
Proof.
  unfold collect_regulations_for_state.
  destruct (JUR_URL_MAP !! state_abb) as [name|]; [|done].
  destruct (resume_setup loads resume prior) as [[cf' m]|]; [|done].
  fold (state_init_url name). unfold fetch_with_retry.
  assert (Hquiet : forall st0 : State,
            requests st0 = [(Startup, state_init_url name)] -> jsonl st0 = [] ->
            failed_file st0 = [] ->
            exists skipped,
              length skipped <= (if truthy cf' then 1 else 0)
              /\ Forall (fun u => exists body, site u = Regulation body) skipped
              /\ forall u, (Classify, u) ∈ requests st0 ->
                   u ∈ skipped \/ accounted_for site state_abb (jsonl st0) (failed_file st0) u).
  { intros st0 Hr _ _. exists []. split; [simpl; destruct (truthy cf'); lia|]. split; [constructor|].
    rewrite Hr. intros u [Hu|Hu]%elem_of_cons; [done|inversion Hu]. }
  destruct (site (state_init_url name)) as [status|links|body] eqn:Hroot.
  - intros [= <- <- <-]. split; [by apply Hquiet|]. by intros ? [= <-] _.
  - destruct (worker _ _ _ _ _) as [st'|] eqn:E; [|done]. intros [= <- <- <-].
    split; [|intros ? [= <-] Hno; by destruct (Hno links)].
    unfold enqueue_jobs in E. rewrite enumerate_from_0 in E.
    apply worker_accounted in E
      as (skipped & (reqs & recs & fails & Hr & Hj & Hf & Ha & Hs) & Hlen).
    exists skipped. split; [exact Hlen|]. split; [exact Hs|].
    simpl in Hr, Hj, Hf. rewrite Hr, Hj, Hf.
    intros u [Hu|Hu]%elem_of_cons; [done|]. by apply Ha.
  - intros [= <- <- <-]. split; [by apply Hquiet|]. by intros ? [= <-] _.
Qed.

Lemma every_page_accounted_witness :
  let st := default init_state (final_state
              (collect_regulations_for_state malformed_top (loads_const []) 20 "MT" false None)) in
  (exists skipped,
     length skipped <= 0
     /\ Forall (fun u => exists body, malformed_top u = Regulation body) skipped
     /\ forall u, (Classify, u) ∈ requests st ->
          u ∈ skipped \/ accounted_for malformed_top "MT" (jsonl st) (failed_file st) u)
  /\ (forall state_name,
        JUR_URL_MAP !! "MT" = Some state_name ->
        (forall links, malformed_top (state_init_url state_name) ≠ Listing links) ->
        requests st = [(Startup, state_init_url state_name)]
        /\ jsonl st = [] /\ failed_file st = []).
Proof.
  intros st.
  apply (every_page_accounted malformed_top (loads_const []) 20 "MT" false None Truncate None st).
  vm_compute. reflexivity.
Defined.

(** ** The full crawl *)

(** X9. A run that does not resume, on a site where no page is linked from
    two places, writes one record for every leaf of the hierarchy and
    nothing else: the records are exactly those of the leaves, no record
    is written twice and no URL appears in two records.  The output file
    is opened for truncation. *)
Theorem fresh_crawl_complete {Up : Upper} site loads n state_abb state_name prior :
  JUR_URL_MAP !! state_abb = Some state_name ->
  tree_like site (state_init_url state_name) ->
  20 <= n ->
  exists st,
    collect_regulations_for_state site loads n state_abb false prior
    = Some (Finished Truncate None st)
    /\ (forall r, r ∈ jsonl st <->
          exists p u d, r = leaf_record state_abb u p d
            /\ leaf_at site (state_init_url state_name) p u d)
    /\ NoDup (jsonl st)
    /\ NoDup (rec_url <$> jsonl st).
Proof.
  intros Hname Htree Hn.
  destruct (full_crawl_complete site loads n state_abb state_name prior Hname Htree Hn)
    as (st & Hrun & Hrecs).
  exists st. split; [exact Hrun|]. split; [exact Hrecs|].
  apply collect_writes in Hrun as [Hs _].
  assert (Hnd : NoDup (jsonl st)).
  { eapply StronglySorted_irrefl_NoDup; [|exact Hs]. intros r. apply lex_lt_irrefl. }
  split; [exact Hnd|].
  apply NoDup_fmap_2_strong; [|exact Hnd].
  intros r1 r2 H1 H2 Hurl.
  apply Hrecs in H1 as (p1 & u1 & d1 & -> & Hr1 & Hs1).
  apply Hrecs in H2 as (p2 & u2 & d2 & -> & Hr2 & Hs2).
  simpl in Hurl. subst u2.
  assert (p1 = p2) as -> by (by eapply Htree).
  rewrite Hs1 in Hs2. by simplify_eq.
Qed.

Lemma fresh_crawl_complete_witness :
  exists st,
    collect_regulations_for_state four_titles (loads_const []) 20 "MT" false None
    = Some (Finished Truncate None st)
    /\ (forall r, r ∈ jsonl st <->
          exists p u d, r = leaf_record "MT" u p d
            /\ leaf_at four_titles (state_init_url "montana") p u d)
    /\ NoDup (jsonl st)
    /\ NoDup (rec_url <$> jsonl st).
Proof.
  apply (fresh_crawl_complete four_titles (loads_const []) 20 "MT" "montana" None).
  - reflexivity.
  - exact four_titles_tree_like.
  - lia.
Defined.

(** ** The sections of the start page *)

Lemma endswith_app (p a : string) : Str.endswith p (a +:+ p) = true.
Proof.
  induction a as [|c a IH].
  - rewrite str_app_nil. destruct p; simpl; [done|]. by destruct (decide _).
  - rewrite str_app_cons. simpl. by destruct (decide _).
Qed.

Lemma endswith_app_r (p a s : string) :
  Str.endswith p s = true -> Str.endswith p (a +:+ s) = true.
Proof.
  intros H. induction a as [|c a IH].
  - by rewrite str_app_nil.
  - rewrite str_app_cons. simpl. by destruct (decide _).
Qed.

Lemma with_trailing_slash_ends url : Str.endswith "/" (with_trailing_slash url) = true.
Proof.
  unfold with_trailing_slash. destruct (Str.endswith "/" url) eqn:E; [done|].
  apply endswith_app.
Qed.

Lemma with_trailing_slash_fixed url :
  Str.endswith "/" url = true -> with_trailing_slash url = url.
Proof. unfold with_trailing_slash. by intros ->. Qed.

Lemma get_top_level_sections_eq {Up : Upper} (site : string -> Page) (base_url : string) :
  get_top_level_sections site base_url
  = match site base_url with
    | Listing links => omap top_section (enumerate links)
    | _ => []
    end.
Proof. reflexivity. Qed.

Lemma top_sections_sorted {Up : Upper} (k : nat) (links : list NodeLink) :
  StronglySorted lt (sec_index <$> omap top_section (enumerate_from k links))
  /\ Forall (fun i => k <= i) (sec_index <$> omap top_section (enumerate_from k links)).
Proof.
  revert k. induction links as [|l links IH]; intros k.
  - rewrite enumerate_from_nil. simpl. split; constructor.
  - rewrite enumerate_from_cons. destruct (IH (S k)) as [Hs Hk]. clear IH.
    assert (Hk' : Forall (fun i => k <= i)
                    (sec_index <$> omap top_section (enumerate_from (S k) links))).
    { eapply Forall_impl; [exact Hk|]. simpl. lia. }
    cbn [omap list_omap]. destruct (top_section (k, l)) as [s|] eqn:E; [|done].
    assert (sec_index s = k) as Hi.
    { simpl in E. destruct (is_reserved_or_repealed (text l)); [done|].
      destruct (malformed_href (href l)); [done|]. by simplify_eq. }
    rewrite fmap_cons, Hi. split; constructor; try done.
Qed.

(** X10. The sections the verifier checks (lines 45-85): none when the
    start page does not answer with a listing; otherwise one for every
    link of the start page that is neither excluded nor malformed, with the
    link's position among all links of the page as its index, in page
    order; every section URL ends with a slash. *)
Theorem get_top_level_sections_spec {Up : Upper} (site : string -> Page) (base_url : string) :
  let sections := get_top_level_sections site base_url in
  ((forall links, site base_url ≠ Listing links) -> sections = [])
  /\ (forall links, site base_url = Listing links ->
        forall s, s ∈ sections <->
          exists i l, links !! i = Some l
            /\ is_reserved_or_repealed (text l) = false /\ malformed_href (href l) = false
            /\ s = {| sec_name := text l;
                      sec_url := with_trailing_slash
                                   ("https://regulations.justia.com" +:+ href l);
                      sec_index := i |})
  /\ StronglySorted lt (sec_index <$> sections)
  /\ Forall (fun s => Str.endswith "/" (sec_url s) = true) sections.
Proof.
  rewrite get_top_level_sections_eq.
  destruct (site base_url) as [status|links|body] eqn:Hsite; cbn zeta.
  - split; [done|]. split; [done|]. split; constructor.
  - split; [intros H; by destruct (H links)|].
    assert (Hchar : forall links0, Listing links = Listing links0 ->
      forall s, s ∈ omap top_section (enumerate links) <->
          exists i l, links0 !! i = Some l
            /\ is_reserved_or_repealed (text l) = false /\ malformed_href (href l) = false
            /\ s = {| sec_name := text l;
                      sec_url := with_trailing_slash
                                   ("https://regulations.justia.com" +:+ href l);
                      sec_index := i |}).
    { intros ? [= <-] s. rewrite list_elem_of_omap. split.
      - intros ([i l] & Hin & Hs). rewrite enumerate_from_0 in Hin.
        apply elem_of_enumerate_from in Hin as [_ Hl]. rewrite Nat.sub_0_r in Hl.
        simpl in Hs.
        destruct (is_reserved_or_repealed (text l)) eqn:E1; [done|].
        destruct (malformed_href (href l)) eqn:E2; [done|].
        exists i, l. by simplify_eq.
      - intros (i & l & Hl & E1 & E2 & ->). exists (i, l). split.
        + rewrite enumerate_from_0. apply elem_of_enumerate_from.
          split; [lia|]. by rewrite Nat.sub_0_r.
        + simpl. by rewrite E1, E2. }
    split; [exact Hchar|]. split.
    + rewrite enumerate_from_0. apply top_sections_sorted.
    + apply Forall_forall. intros s Hs. apply (Hchar links eq_refl) in Hs
        as (i & l & _ & _ & _ & ->). apply with_trailing_slash_ends.
  - split; [done|]. split; [done|]. split; constructor.
Qed.

(** ** The verdict *)

Lemma totals_fold (reports : list SectionReport) (t : Totals) :
  let t' := foldl count_section t reports in
  total_complete t' + total_incomplete t' = total_complete t + total_incomplete t + length reports
  /\ total_ordered t' + total_unordered t' = total_ordered t + total_unordered t + length reports
  /\ total_incomplete t'
     = total_incomplete t + length (filter (fun r => is_complete r = false) reports)
  /\ total_unordered t'
     = total_unordered t + length (filter (fun r => is_ordered r = false) reports)
  /\ total_missing t'
     = total_missing t
       + sum_list (length ∘ missing <$> filter (fun r => is_complete r = false) reports)
  /\ total_extra t'
     = total_extra t
       + sum_list (length ∘ extra <$> filter (fun r => is_complete r = false) reports).
Proof.
  revert t. induction reports as [|r l IH]; intros t.
  - simpl. repeat split; lia.
  - cbn [foldl]. cbn zeta.
    destruct (IH (count_section t r)) as (H1 & H2 & H3 & H4 & H5 & H6). clear IH.
    rewrite H1, H2, H3, H4, H5, H6. clear H1 H2 H3 H4 H5 H6.
    unfold count_section.
    destruct (is_complete r) eqn:Ec; destruct (is_ordered r) eqn:Eo;
      repeat match goal with
             | |- context [filter ?P (r :: l)] =>
                 first [ rewrite (filter_cons_True P r l) by congruence
                       | rewrite (filter_cons_False P r l) by congruence ]
             end;
      simpl; repeat split; try lia; symmetry; apply Nat.add_assoc.
Qed.

(** The file is reported valid exactly when every section is complete
    and ordered. *)
Lemma all_good_iff (reports : list SectionReport) :
  all_good (totals reports) = true
  <-> Forall (fun r => is_complete r = true /\ is_ordered r = true) reports.
Proof.
  unfold totals.
  destruct (totals_fold reports
              {| total_complete := 0; total_incomplete := 0; total_ordered := 0;
                 total_unordered := 0; total_missing := 0; total_extra := 0 |})
    as (_ & _ & H3 & H4 & _).
  cbn zeta in *. simpl in H3, H4.
  unfold all_good. rewrite H3, H4, andb_true_iff, !Nat.eqb_eq, !length_zero_iff_nil.
  split.
  - intros [Hc Ho]. apply Forall_forall. intros r Hr. split.
    + destruct (is_complete r) eqn:E; [done|].
      assert (Hin : r ∈ filter (fun r => is_complete r = false) reports)
        by (by apply list_elem_of_filter).
      rewrite Hc in Hin. inversion Hin.
    + destruct (is_ordered r) eqn:E; [done|].
      assert (Hin : r ∈ filter (fun r => is_ordered r = false) reports)
        by (by apply list_elem_of_filter).
      rewrite Ho in Hin. inversion Hin.
  - intros Hall. split.
    + destruct (filter (fun r => is_complete r = false) reports) as [|r l] eqn:E; [done|].
      assert (Hin : r ∈ filter (fun r => is_complete r = false) reports) by (rewrite E; left).
      apply list_elem_of_filter in Hin as [Hc Hin].
      apply (proj1 (Forall_forall _ _) Hall) in Hin as [Hc' _]. congruence.
    + destruct (filter (fun r => is_ordered r = false) reports) as [|r l] eqn:E; [done|].
      assert (Hin : r ∈ filter (fun r => is_ordered r = false) reports) by (rewrite E; left).
      apply list_elem_of_filter in Hin as [Ho Hin].
      apply (proj1 (Forall_forall _ _) Hall) in Hin as [_ Ho']. congruence.
Qed.

(** X11. The verdict of [validate_state] (lines 366-478): the file is
    reported valid exactly when every section is complete and ordered.
    The counters of complete and incomplete sections add up to the number
    of sections, as do those of ordered and unordered ones.  Missing and
    extra records are counted for the incomplete sections only: extra
    records never change the verdict, and those of a complete section are
    not counted. *)
Theorem totals_spec (reports : list SectionReport) :
  let t := totals reports in
  (all_good t = true
   <-> Forall (fun r => is_complete r = true /\ is_ordered r = true) reports)
  /\ total_complete t + total_incomplete t = length reports
  /\ total_ordered t + total_unordered t = length reports
  /\ total_missing t
     = sum_list (length ∘ missing <$> filter (fun r => is_complete r = false) reports)
  /\ total_extra t
     = sum_list (length ∘ extra <$> filter (fun r => is_complete r = false) reports).
Proof.
  cbn zeta. split; [apply all_good_iff|].
  unfold totals.
  destruct (totals_fold reports
              {| total_complete := 0; total_incomplete := 0; total_ordered := 0;
                 total_unordered := 0; total_missing := 0; total_extra := 0 |})
    as (H1 & H2 & _ & _ & H5 & H6).
  cbn zeta in *. simpl in H1, H2, H5, H6. by repeat split.
Qed.

(** A complete section with an extra record: the file is reported valid
    and the extra record is not counted. *)
Example totals_ex :
  let t := totals [{| rep_name := "Title 1"; rep_index := 0; is_complete := true;
                      missing := []; extra := ["u"]; is_ordered := true; order_issues := [] |}] in
  all_good t = true /\ total_extra t = 0.
Proof. by vm_compute. Qed.

(** ** The walk of a section *)

Section WalkFacts.

Context {Up : Upper}.

Variable site : string -> Page.

Lemma walk_links_spec (self : string -> LexPath -> nat -> list string -> option (list string))
    (path : LexPath) (depth : nat) (items : list (nat * NodeLink)) (urls urls' : list string) :
  (forall url p urls urls', self url p (depth + 1) urls = Some urls' ->
     exists new, urls' = urls ++ new /\ forall u, u ∈ new <-> found site (S depth) url u) ->
  walk_links self path depth items urls = Some urls' ->
  exists new, urls' = urls ++ new
    /\ forall u, u ∈ new <->
         exists link, link ∈ items.*2
           /\ is_reserved_or_repealed (text link) = false /\ malformed_href (href link) = false
           /\ found site (S depth)
                (with_trailing_slash ("https://regulations.justia.com" +:+ href link)) u.
Proof.
  intros Hself. revert urls urls'.
  induction items as [|[i link] items IH]; intros urls urls'; simpl.
  - intros [= <-]. exists []. rewrite app_nil_r. split; [done|].
    intros u. split; [inversion 1|]. intros (l & Hl & _). inversion Hl.
  - assert (Hskip : (is_reserved_or_repealed (text link) = true
                     \/ malformed_href (href link) = true) ->
              walk_links self path depth items urls = Some urls' ->
              exists new, urls' = urls ++ new
                /\ forall u, u ∈ new <->
                     exists l, l ∈ link :: items.*2
                       /\ is_reserved_or_repealed (text l) = false
                       /\ malformed_href (href l) = false
                       /\ found site (S depth)
                            (with_trailing_slash ("https://regulations.justia.com" +:+ href l)) u).
    { intros Hbad H. destruct (IH _ _ H) as (new & -> & Hnew). exists new. split; [done|].
      intros u. rewrite Hnew. split.
      - intros (l & Hl & H1 & H2 & Hf). exists l. split; [by right|done].
      - intros (l & [->|Hl]%elem_of_cons & H1 & H2 & Hf); [|by exists l].
        destruct Hbad; congruence. }
    destruct (is_reserved_or_repealed (text link)) eqn:E1; [apply Hskip; by left|].
    destruct (malformed_href (href link)) eqn:E2; [apply Hskip; by right|]. clear Hskip.
    destruct (self _ _ _ _) as [urls1|] eqn:Hcall; [|done]. intros H.
    destruct (Hself _ _ _ _ Hcall) as (new1 & -> & Hnew1).
    destruct (IH _ _ H) as (new2 & -> & Hnew2).
    exists (new1 ++ new2). split; [by rewrite app_assoc|].
    intros u. rewrite elem_of_app, Hnew1, Hnew2. split.
    + intros [Hf|(l & Hl & H1 & H2 & Hf)].
      * exists link. split; [left|done].
      * exists l. split; [by right|done].
    + intros (l & [->|Hl]%elem_of_cons & H1 & H2 & Hf); [by left|right; by exists l].
Qed.

(** What [_walk] adds to [urls]: the pages found. *)
Lemma _walk_spec fuel url path depth urls urls' :
  _walk site fuel 20 url path depth urls = Some urls' ->
  exists new, urls' = urls ++ new /\ forall u, u ∈ new <-> found site depth url u.
Proof.
  revert url path depth urls urls'.
  induction fuel as [|fuel IH]; intros url path depth urls urls'; [done|].
  cbn -[Nat.leb]. destruct (Nat.leb_spec 20 depth) as [Hd|Hd].
  - intros [= <-]. exists []. rewrite app_nil_r. split; [done|].
    intros u. split; [inversion 1|]. inversion 1; lia.
  - destruct (site url) as [status|links|body] eqn:Hsite.
    + intros [= <-]. exists []. rewrite app_nil_r. split; [done|].
      intros u. split; [inversion 1|]. inversion 1; congruence.
    + intros H.
      assert (Hself : forall url p urls urls',
                _walk site fuel 20 url p (depth + 1) urls = Some urls' ->
                exists new, urls' = urls ++ new
                  /\ forall u, u ∈ new <-> found site (S depth) url u).
      { intros u0 p0 us us' E. rewrite Nat.add_1_r in E. by apply IH in E. }
      destruct (walk_links_spec _ _ _ _ _ _ Hself H) as (new & -> & Hnew).
      exists new. split; [done|]. intros u. rewrite Hnew. split.
      * intros (l & Hl & H1 & H2 & Hf). eapply found_below; eauto.
        apply list_elem_of_fmap in Hl as ([i l'] & -> & Hl). simpl.
        rewrite enumerate_from_0 in Hl. apply elem_of_enumerate_from in Hl as [_ Hl].
        apply list_elem_of_lookup. eauto.
      * inversion 1 as [|? ? links' l ? _ Hsite' Hl H1 H2 Hf]; subst; [congruence|].
        rewrite Hsite in Hsite'. simplify_eq. exists l. repeat split; try done.
        apply list_elem_of_lookup in Hl as [i Hl]. apply list_elem_of_fmap.
        exists (i, l). split; [done|]. rewrite enumerate_from_0.
        apply elem_of_enumerate_from. split; [lia|]. by rewrite Nat.sub_0_r.
    + intros [= <-]. exists [url]. split; [done|]. intros u.
      rewrite list_elem_of_singleton. split.
      * intros ->. by eapply found_here.
      * inversion 1; subst; [done|congruence].
Qed.

Lemma walk_links_total (self : string -> LexPath -> nat -> list string -> option (list string))
    (path : LexPath) (depth : nat) (items : list (nat * NodeLink)) (urls : list string) :
  (forall url p urls, is_Some (self url p (depth + 1) urls)) ->
  is_Some (walk_links self path depth items urls).
Proof.
  intros Hself. revert urls. induction items as [|[i link] items IH]; intros urls; simpl.
  - by eexists.
  - destruct (is_reserved_or_repealed (text link)); [apply IH|].
    destruct (malformed_href (href link)); [apply IH|].
    destruct (Hself (with_trailing_slash ("https://regulations.justia.com" +:+ href link))
                (path ++ [i]) urls) as [urls1 ->].
    apply IH.
Qed.

(** A budget of one call more than the levels left is enough. *)
Lemma _walk_total fuel max_depth url path depth urls :
  max_depth - depth < fuel -> is_Some (_walk site fuel max_depth url path depth urls).
Proof.
  revert url path depth urls.
  induction fuel as [|fuel IH]; intros url path depth urls Hfuel; [lia|].
  cbn -[Nat.leb]. destruct (Nat.leb_spec max_depth depth) as [Hd|Hd]; [by eexists|].
  destruct (site url) as [status|links|body]; [by eexists| |by eexists].
  apply walk_links_total. intros u p us. apply IH. lia.
Qed.

End WalkFacts.

(** X12. The walk of a section (lines 88-131) always ends, whatever the
    site links to (a budget of 21 nested calls is enough, the walk going no
    deeper than 20 levels), and it lists exactly the pages found: the
    pages that answer without a listing and lie less than 20 levels below
    the section along links that are neither excluded nor malformed.
    Every URL listed is the section URL itself or ends with a slash. *)
Theorem walk_section_spec {Up : Upper} (site : string -> Page) fuel section_url section_path :
  21 <= fuel ->
  exists urls,
    walk_section site fuel section_url section_path = Some urls
    /\ (forall u, u ∈ urls <-> found site 0 section_url u)
    /\ Forall (fun u => (exists body, site u = Regulation body)
                        /\ (u = section_url \/ Str.endswith "/" u = true)) urls.
Proof.
  intros Hfuel. unfold walk_section.
  destruct (_walk_total site fuel 20 section_url section_path 0 []) as [urls E]; [lia|].
  exists urls. split; [exact E|].
  apply _walk_spec in E as (new & -> & Hnew). simpl. split; [exact Hnew|].
  apply Forall_forall. intros u Hu. apply Hnew in Hu. clear Hnew.
  assert (Hgen : forall d url, found site d url u ->
            (exists body, site u = Regulation body)
            /\ (u = url \/ Str.endswith "/" u = true)).
  { clear. intros d url H. induction H as [d url body _ Hsite|d url links l u _ _ _ _ _ _ IH].
    - split; [by exists body|by left].
    - destruct IH as [Hb [->|He]]; (split; [done|right]); [|done].
      apply with_trailing_slash_ends. }
  by eapply Hgen.
Qed.

Lemma walk_section_spec_witness :
  exists urls,
    walk_section cyclic_site 21 (montana +:+ "d1/") [0] = Some urls
    /\ (forall u, u ∈ urls <-> found cyclic_site 0 (montana +:+ "d1/") u)
    /\ Forall (fun u => (exists body, cyclic_site u = Regulation body)
                        /\ (u = montana +:+ "d1/" \/ Str.endswith "/" u = true)) urls.
Proof. apply (walk_section_spec cyclic_site 21 (montana +:+ "d1/") [0]). lia. Defined.

(** ** When crawler and verifier agree *)

Lemma base_url_eq (state_name : string) :
  "https://regulations.justia.com/states/" +:+ state_name +:+ "/" = state_init_url state_name.
Proof. reflexivity. Qed.

Lemma filter_all {A} (P : A -> Prop) `{!forall x, Decision (P x)} (l : list A) :
  Forall P l -> filter P l = l.
Proof.
  induction 1 as [|x l Hx _ IH]; [done|]. rewrite filter_cons_True by done. by rewrite IH.
Qed.

Lemma mapM_all {A B} (f : A -> option B) (g : A -> B) (l : list A) :
  Forall (fun x => f x = Some (g x)) l -> mapM f l = Some (g <$> l).
Proof.
  induction 1 as [|x l Hx _ IH]; [done|]. simpl. rewrite Hx. simpl. by rewrite IH.
Qed.

Lemma elem_of_top_sections {Up : Upper} (links : list NodeLink) (s : TopSection) :
  s ∈ omap top_section (enumerate links) <->
  exists i l, links !! i = Some l
    /\ is_reserved_or_repealed (text l) = false /\ malformed_href (href l) = false
    /\ s = {| sec_name := text l;
              sec_url := with_trailing_slash ("https://regulations.justia.com" +:+ href l);
              sec_index := i |}.
Proof.
  rewrite list_elem_of_omap. split.
  - intros ([i l] & Hin & Hs). rewrite enumerate_from_0 in Hin.
    apply elem_of_enumerate_from in Hin as [_ Hl]. rewrite Nat.sub_0_r in Hl.
    simpl in Hs.
    destruct (is_reserved_or_repealed (text l)) eqn:E1; [done|].
    destruct (malformed_href (href l)) eqn:E2; [done|].
    exists i, l. by simplify_eq.
  - intros (i & l & Hl & E1 & E2 & ->). exists (i, l). split.
    + rewrite enumerate_from_0. apply elem_of_enumerate_from.
      split; [lia|]. by rewrite Nat.sub_0_r.
    + simpl. by rewrite E1, E2.
Qed.

Lemma found_depth {Up : Upper} site d url u : found site d url u -> d < 20.
Proof. by destruct 1. Qed.

Section Agreement.

Context {Up : Upper}.

Variable site : string -> Page.
Variable root : string.
Hypothesis Hslash : hrefs_end_in_slash site.

Lemma reaches_length p u : reaches site root p u -> 1 <= length p <= 20.
Proof.
  induction 1 as [links i link _ _|path url links i link _ IH Hd _ _ _ _]; [simpl; lia|].
  rewrite length_app. simpl. lia.
Qed.

Lemma child_url_fixed url links l :
  site url = Listing links -> l ∈ links ->
  with_trailing_slash ("https://regulations.justia.com" +:+ href l)
  = REGULATIONS_BASE_URL +:+ href l.
Proof.
  intros Hs Hl. apply with_trailing_slash_fixed, endswith_app_r. by eapply Hslash.
Qed.

(** What the walk finds below a page of the hierarchy lies in the
    hierarchy, below that page. *)
Lemma found_reaches d url u :
  found site d url u ->
  forall p, reaches site root p url -> length p = S d ->
  exists q body, reaches site root q u /\ p `prefix_of` q /\ site u = Regulation body.
Proof.
  induction 1 as [d url body Hd Hsite|d url links l u Hd Hsite Hl He Hm Hf IH];
    intros p Hp Hlen.
  - by exists p, body.
  - apply list_elem_of_lookup in Hl as [i Hi].
    assert (Hl : l ∈ links) by (apply list_elem_of_lookup; eauto).
    rewrite (child_url_fixed url links l Hsite Hl) in IH.
    apply found_depth in Hf.
    destruct (IH (p ++ [i])) as (q & body & Hq & Hpre & Hb).
    + eapply reach_child; eauto. lia.
    + rewrite length_app. simpl. lia.
    + exists q, body. repeat split; try done.
      etrans; [|exact Hpre]. by apply prefix_app_r.
Qed.

(** The walk finds every page of the hierarchy that answers without a
    listing. *)
Lemma reaches_found rest : forall p url u body,
  reaches site root p url -> reaches site root (p ++ rest) u -> site u = Regulation body ->
  found site (length p - 1) url u.
Proof.
  induction rest as [|i rest IH]; intros p url u body Hp Hq Hb.
  - rewrite app_nil_r in Hq. rewrite (reaches_functional _ _ _ _ _ Hp Hq).
    eapply found_here; [|exact Hb]. apply reaches_length in Hp. lia.
  - pose proof (reaches_length _ _ Hp) as Hlen.
    destruct (reaches_ancestor site root p i rest u Hq)
      as (up & links & l & Hup & Hd & Hs & Hi & He & Hm & Hchild);
      [by eapply reaches_nonempty|].
    rewrite (reaches_functional _ _ _ _ _ Hup Hp) in Hs.
    assert (Hl : l ∈ links) by (apply list_elem_of_lookup; eauto).
    eapply found_below; eauto; [lia|].
    rewrite (child_url_fixed url links l Hs Hl).
    replace (S (length p - 1)) with (length (p ++ [i]) - 1)
      by (rewrite length_app; simpl; lia).
    eapply IH; eauto. by rewrite <- app_assoc.
Qed.

End Agreement.

Section AgreementRun.

Context {Up : Upper}.

Variable site : string -> Page.
Variables state_abb state_name : string.
Hypothesis Hname : JUR_URL_MAP !! state_abb = Some state_name.
Hypothesis Hslash : hrefs_end_in_slash site.
Hypothesis Hextract : all_extracted site.
Hypothesis Htop : no_section_excluded site (state_init_url state_name).

(** One section, against the records of the leaves. *)
Lemma validate_one_clean fuel (records : list Rec) links section :
  21 <= fuel ->
  site (state_init_url state_name) = Listing links ->
  section ∈ omap top_section (enumerate links) ->
  StronglySorted rec_lt records ->
  (forall r, r ∈ records <->
     exists p u d, r = leaf_record state_abb u p d
       /\ leaf_at site (state_init_url state_name) p u d) ->
  validate_one site fuel (group_by_section records) section = Some (clean_report section).
Proof.
  intros Hfuel Hroot Hsec Hsorted Hrecs.
  apply elem_of_top_sections in Hsec as (i & l & Hi & He & Hm & ->).
  assert (Hl : l ∈ links) by (apply list_elem_of_lookup; eauto).
  unfold validate_one, walk_section. cbn [sec_url sec_index sec_name].
  rewrite (child_url_fixed site Hslash _ links l Hroot Hl).
  assert (Hreach : reaches site (state_init_url state_name) [i] (REGULATIONS_BASE_URL +:+ href l)).
  { eapply reach_section; [exact Hroot|]. by rewrite (filter_all _ _ (Htop _ Hroot)). }
  destruct (_walk_total site fuel 20 (REGULATIONS_BASE_URL +:+ href l) [i] 0 [])
    as [expected E]; [lia|].
  rewrite E. apply _walk_spec in E as (new & -> & Hnew). simpl in Hnew |- *.
  rewrite (proj1 (group_by_section_groups records i)).
  assert (Hset : (list_to_set new : gset string)
                 = list_to_set (rec_url <$> in_section i records)).
  { apply set_eq. intros u. rewrite !elem_of_list_to_set, Hnew, list_elem_of_fmap. split.
    - intros Hf.
      destruct (found_reaches site _ Hslash 0 _ u Hf [i] Hreach eq_refl)
        as (q & body & Hq & Hpre & Hb).
      destruct (Hextract u body Hb) as [d ->].
      exists (leaf_record state_abb u q d). split; [done|].
      unfold in_section. apply list_elem_of_filter. split.
      + simpl. destruct Hpre as [rest ->]. done.
      + apply Hrecs. exists q, u, d. by repeat split.
    - intros (r & -> & Hr). unfold in_section in Hr.
      apply list_elem_of_filter in Hr as [Hh Hr].
      apply Hrecs in Hr as (p & u' & d & -> & Hp & Hb). simpl in *.
      destruct p as [|j rest]; simplify_eq/=.
      apply (reaches_found site _ Hslash rest [i] _ u' (Extracted d) Hreach Hp Hb). }
  unfold validate_section_completeness. rewrite Hset.
  assert (Hempty : sorted (list_to_set (rec_url <$> in_section i records)
                           ∖ list_to_set (rec_url <$> in_section i records)) = []).
  { apply sorted_nil. apply set_eq. intros u. rewrite elem_of_difference.
    split; [by intros [? ?]|]. intros Hu. by apply not_elem_of_empty in Hu. }
  rewrite Hempty.
  assert (Hord : validate_section_order (in_section i records) = (true, []))
    by (by apply validate_section_order_sorted, StronglySorted_filter).
  unfold validate_section_order in Hord. injection Hord as _ Hord. by rewrite Hord.
Qed.

End AgreementRun.

(** A site given by pages that pass the check has links that end with a
    slash and regulation pages that are extracted. *)
Lemma pages_well_formed_spec (pages : list (string * Page)) :
  pages_well_formed pages = true ->
  hrefs_end_in_slash (site_of pages) /\ all_extracted (site_of pages).
Proof.
  intros Hwf. unfold pages_well_formed in Hwf. rewrite forallb_forall in Hwf.
  assert (Hentry : forall url pg, site_of pages url = pg -> pg = NoPage "404" \/ In (url, pg) pages).
  { intros url pg <-. unfold site_of.
    destruct ((list_to_map pages : gmap string Page) !! url) as [pg|] eqn:E; [|by left].
    right. apply elem_of_list_to_map_2 in E. by apply list_elem_of_In. }
  split.
  - intros url links l Hs Hl. apply Hentry in Hs as [Hs|Hs]; [done|].
    apply Hwf in Hs. simpl in Hs. rewrite forallb_forall in Hs.
    apply Hs. by apply list_elem_of_In.
  - intros u body Hs. apply Hentry in Hs as [Hs|Hs]; [done|].
    apply Hwf in Hs. simpl in Hs. destruct body; [by eexists|done|done].
Qed.

(** X13. Crawler and verifier agree on a well-formed site.  If no page is
    linked from two places, no link of the start page is excluded, every
    link of a listing ends with a slash and the extraction succeeds on
    every regulation page, then a run that does not resume is followed by
    a verification that reports every section complete, with nothing
    missing and nothing extra, and ordered: the file is reported valid. *)
Theorem verifier_agrees {Up : Upper} site loads n fuel state_abb state_name prior :
  JUR_URL_MAP !! state_abb = Some state_name ->
  tree_like site (state_init_url state_name) ->
  no_section_excluded site (state_init_url state_name) ->
  hrefs_end_in_slash site ->
  all_extracted site ->
  20 <= n -> 21 <= fuel ->
  exists st reports,
    collect_regulations_for_state site loads n state_abb false prior
    = Some (Finished Truncate None st)
    /\ validate_state site fuel state_name (jsonl st) = Some reports
    /\ reports = clean_report <$> get_top_level_sections site (state_init_url state_name)
    /\ all_good (totals reports) = true.
Proof.
  intros Hname Htree Htop Hslash Hextract Hn Hfuel.
  destruct (full_crawl_complete site loads n state_abb state_name prior Hname Htree Hn)
    as (st & Hrun & Hrecs).
  pose proof (collect_writes _ _ _ _ _ _ _ _ _ Hrun) as [Hsorted _].
  exists st, (clean_report <$> get_top_level_sections site (state_init_url state_name)).
  split; [exact Hrun|]. split; [|split; [done|]].
  - unfold validate_state. rewrite base_url_eq. apply mapM_all.
    rewrite get_top_level_sections_eq.
    destruct (site (state_init_url state_name)) as [status|links|body] eqn:Hroot;
      [constructor| |constructor].
    apply Forall_forall. intros section Hsec.
    by eapply validate_one_clean.
  - apply all_good_iff. apply Forall_fmap, Forall_forall. by intros section _.
Qed.

Lemma verifier_agrees_witness :
  exists st reports,
    collect_regulations_for_state four_titles (loads_const []) 20 "MT" false None
    = Some (Finished Truncate None st)
    /\ validate_state four_titles 21 "montana" (jsonl st) = Some reports
    /\ reports = clean_report <$> get_top_level_sections four_titles (state_init_url "montana")
    /\ all_good (totals reports) = true.
Proof.
  apply (verifier_agrees four_titles (loads_const []) 20 21 "MT" "montana" None).
  - reflexivity.
  - exact four_titles_tree_like.
  - intros links [= <-]. repeat constructor.
  - apply pages_well_formed_spec. reflexivity.
  - apply pages_well_formed_spec. reflexivity.
  - lia.
  - lia.
Defined.

(** ** Interrupting and resuming *)

Lemma rec_lt_asym r1 r2 : rec_lt r1 r2 -> rec_lt r2 r1 -> r1 = r2.
Proof.
  unfold rec_lt. intros H1 H2. exfalso. eapply lex_lt_irrefl, lex_lt_trans; eauto.
Qed.

(** Two lists in increasing path order with the same records are the
    same list. *)
Lemma sorted_records_eq (l1 l2 : list Rec) :
  StronglySorted rec_lt l1 -> StronglySorted rec_lt l2 ->
  (forall r, r ∈ l1 <-> r ∈ l2) -> l1 = l2.
Proof.
  intros H1 H2 Hin.
  apply (StronglySorted_unique_strong rec_lt); try done.
  - intros x1 x2 _ _. apply rec_lt_asym.
  - apply NoDup_Permutation; [| |done];
      (eapply StronglySorted_irrefl_NoDup; [|eassumption]); intros r; apply lex_lt_irrefl.
Qed.

(** In a list in increasing path order, the records behind position [k]
    are those with a path after that of record [k]. *)
Lemma sorted_drop (l : list Rec) k r :
  StronglySorted rec_lt l -> l !! k = Some r ->
  StronglySorted rec_lt (drop (S k) l)
  /\ forall r', r' ∈ drop (S k) l <-> r' ∈ l /\ rec_lt r r'.
Proof.
  intros Hs Hk.
  assert (Hl : l = take k l ++ r :: drop (S k) l) by (by rewrite take_drop_middle).
  rewrite Hl in Hs. apply StronglySorted_app in Hs as (H12 & Hs1 & Hs2).
  apply StronglySorted_inv in Hs2 as [Hs2 Hr]. split; [done|].
  intros r'. split.
  - intros Hr'. split; [rewrite Hl; apply elem_of_app; right; by right|].
    by apply (proj1 (Forall_forall _ _) Hr).
  - intros [Hin Hlt]. rewrite Hl in Hin.
    apply elem_of_app in Hin as [Hin|[->|Hin]%elem_of_cons]; [| |done].
    + exfalso. assert (rec_lt r' r) by (apply (H12 r' r); [done|left]).
      eapply lex_lt_irrefl, lex_lt_trans; eauto.
    + exfalso. by apply lex_lt_irrefl in Hlt.
Qed.

(** A resumed run whose cursor is the position of a regulation page. *)
Lemma resumed_run_records {Up : Upper} site loads n state_abb state_name prior c uc body :
  JUR_URL_MAP !! state_abb = Some state_name ->
  tree_like site (state_init_url state_name) ->
  reaches site (state_init_url state_name) c uc -> site uc = Regulation body ->
  resume_setup loads true prior = inl (Some c, Append) ->
  20 <= n ->
  exists st,
    collect_regulations_for_state site loads n state_abb true prior
    = Some (Finished Append (Some c) st)
    /\ forall r, r ∈ jsonl st <->
         exists p u d, r = leaf_record state_abb u p d
           /\ leaf_at site (state_init_url state_name) p u d /\ lex_lt c p.
Proof.
  intros Hname Htree Hc Hs Hsetup Hn.
  destruct (cursor_at_leaf _ _ _ _ _ Hc Hs) as [Hne Hcursor].
  destruct (collect_regulations_for_state_total site loads n state_abb true prior Hn)
    as [outcome E].
  assert (Hout : exists st, outcome = Finished Append (Some c) st).
  { revert E. unfold collect_regulations_for_state. rewrite Hname, Hsetup.
    unfold fetch_with_retry. fold (state_init_url state_name).
    destruct (site (state_init_url state_name));
      [|destruct (worker _ _ _ _ _); [|done]|]; intros [= <-]; eauto. }
  destruct Hout as [st ->]. exists st. split; [done|]. intros r.
  pose proof (collect_on_tree site loads n state_abb state_name true prior Append (Some c) st
                Hname Htree) as Hrec0.
  unfold records_of in Hrec0. rewrite Hrec0; [|by intros c' [= <-]|done]. clear Hname Hrec0.
  split; intros (p & u & d & -> & Hl & Ha); exists p, u, d;
    (split; [reflexivity|]); (split; [exact Hl|]).
  - by apply Ha.
  - by intros c' [= <-] _.
Qed.

(** X14. Interrupting and resuming loses nothing and repeats nothing.  On
    a site where no page is linked from two places, let a run that does not
    resume write the records [full].  A run that resumes from the lex_path
    of record number [k] of [full] (the last line of a file that holds the
    records up to that one) writes exactly the records of [full] behind
    position [k], in the same order: the file ends up as [full].  Resuming
    from the last record of [full] writes nothing. *)
Theorem resume_round_trip {Up : Upper} site loads n state_abb state_name prior prior' st1 k c :
  JUR_URL_MAP !! state_abb = Some state_name ->
  tree_like site (state_init_url state_name) ->
  20 <= n ->
  collect_regulations_for_state site loads n state_abb false prior
  = Some (Finished Truncate None st1) ->
  (rec_lex_path <$> jsonl st1) !! k = Some c ->
  resume_setup loads true prior' = inl (Some c, Append) ->
  exists st2,
    collect_regulations_for_state site loads n state_abb true prior'
    = Some (Finished Append (Some c) st2)
    /\ jsonl st2 = drop (S k) (jsonl st1)
    /\ take (S k) (jsonl st1) ++ jsonl st2 = jsonl st1
    /\ (S k = length (jsonl st1) -> jsonl st2 = []).
Proof.
  intros Hname Htree Hn Hrun1 Hk Hsetup.
  destruct (full_crawl_complete site loads n state_abb state_name prior Hname Htree Hn)
    as (st & Hrun & Hfull).
  rewrite Hrun1 in Hrun. injection Hrun as <-.
  pose proof (collect_writes _ _ _ _ _ _ _ _ _ Hrun1) as [Hsorted1 _].
  apply list_lookup_fmap_Some in Hk as (rk & -> & Hk).
  assert (Hrk : rk ∈ jsonl st1) by (apply list_elem_of_lookup; eauto).
  apply Hfull in Hrk as (pc & uc & dc & -> & Hreach & Hsite). simpl in Hsetup.
  destruct (resumed_run_records site loads n state_abb state_name prior' pc uc (Extracted dc)
              Hname Htree Hreach Hsite Hsetup Hn) as (st2 & Hrun2 & Hrec2).
  exists st2. split; [exact Hrun2|].
  pose proof (collect_writes _ _ _ _ _ _ _ _ _ Hrun2) as [Hsorted2 _].
  destruct (sorted_drop (jsonl st1) k _ Hsorted1 Hk) as [Hsorted3 Hdrop].
  assert (Heq : jsonl st2 = drop (S k) (jsonl st1)).
  { apply sorted_records_eq; try done. intros r. rewrite Hrec2, Hdrop, Hfull. split.
    - intros (p & u & d & -> & Hl & Hlt). split; [by exists p, u, d|done].
    - intros [(p & u & d & -> & Hl) Hlt]. by exists p, u, d. }
  split; [exact Heq|]. split; [by rewrite Heq, take_drop|].
  intros Hlast. rewrite Heq, Hlast. apply drop_all.
Qed.

Lemma resume_round_trip_witness :
  let st1 := default init_state (final_state
               (collect_regulations_for_state four_titles (loads_const [2; 1; 3]) 20 "MT"
                  false None)) in
  exists st2,
    collect_regulations_for_state four_titles (loads_const [2; 1; 3]) 20 "MT" true (Some "{}")
    = Some (Finished Append (Some [2; 1; 3]) st2)
    /\ jsonl st2 = drop 7 (jsonl st1)
    /\ take 7 (jsonl st1) ++ jsonl st2 = jsonl st1
    /\ (7 = length (jsonl st1) -> jsonl st2 = []).
Proof.
  intros st1.
  apply (resume_round_trip four_titles (loads_const [2; 1; 3]) 20 "MT" "montana"
           None (Some "{}") st1 6 [2; 1; 3]).
  - reflexivity.
  - exact four_titles_tree_like.
  - lia.
  - vm_compute. reflexivity.
  - vm_compute. reflexivity.
  - reflexivity.
Defined.

(** ** Malformed links and warnings *)

Section Careful.

Context {Up : Upper}.

Variable site : string -> Page.
Variables state_abb site_url : string.

Lemma justified_mono (known known' : string -> Prop) w :
  (forall p, known p -> known' p) ->
  justified site site_url known w -> justified site site_url known' w.
Proof.
  intros Hk. destruct w as [u|d u]; simpl.
  - intros (parent & links & l & Hp & H). exists parent, links, l. split; [auto|done].
  - intros (Hd & Hp & H). auto.
Qed.

Lemma careful_silent entry before st st' :
  requests st' = requests st -> warnings st' = warnings st ->
  careful site site_url entry before st st'.
Proof.
  intros Hr Hw. exists [], []. rewrite !app_nil_r. repeat split; try done; constructor.
Qed.

Lemma careful_trans (A B C X Y Z : string -> Prop) st st1 st2 :
  (forall u, A u -> C u) -> (forall u, B u -> C u) ->
  (forall u, X u -> Z u) -> (forall u, Y u -> Z u) ->
  careful site site_url A X st st1 -> careful site site_url B Y st1 st2 ->
  careful site site_url C Z st st2.
Proof.
  intros HA HB HX HY (r1 & w1 & Hr1 & Hw1 & Ho1 & Hj1) (r2 & w2 & Hr2 & Hw2 & Ho2 & Hj2).
  exists (r1 ++ r2), (w1 ++ w2).
  rewrite Hr2, Hr1, Hw2, Hw1, !app_assoc. repeat split; try done.
  - apply Forall_app. split.
    + eapply Forall_impl; [exact Ho1|]. intros r [H|(parent & Hp & Hfol)]; [left; auto|].
      right. exists parent. split; [|done]. apply elem_of_app. by left.
    + eapply Forall_impl; [exact Ho2|]. intros r [H|(parent & Hp & Hfol)]; [left; auto|].
      right. exists parent. split; [|done]. apply elem_of_app. by right.
  - apply Forall_app. split.
    + eapply Forall_impl; [exact Hj1|]. intros w. apply justified_mono.
      intros p [H|H]; [left; auto|right; apply elem_of_app; by left].
    + eapply Forall_impl; [exact Hj2|]. intros w. apply justified_mono.
      intros p [H|H]; [left; auto|right; apply elem_of_app; by right].
Qed.

(** A warning printed first. *)
Lemma careful_warned entry before w st st' :
  justified site site_url before w ->
  careful site site_url entry before (print_warning w st) st' ->
  careful site site_url entry before st st'.
Proof.
  intros Hw (reqs & warns & Hr & Hws & Ho & Hj).
  exists reqs, (w :: warns). simpl in Hr, Hws. rewrite Hr, Hws, <- app_assoc.
  repeat split; try done. constructor; [|done].
  eapply justified_mono; [|exact Hw]. by left.
Qed.

(** A page entered and dealt with on the spot. *)
Lemma careful_page url before st st' reqs :
  requests st' = requests st ++ (Classify, url) :: reqs ->
  Forall (fun r => r.2 = url) reqs ->
  warnings st' = warnings st ->
  careful site site_url (fun u => u = url) before st st'.
Proof.
  intros Hr Hreqs Hw. exists ((Classify, url) :: reqs), [].
  rewrite app_nil_r. repeat split; try done; try (by constructor).
  constructor; [by left|]. eapply Forall_impl; [exact Hreqs|]. intros r ->. by left.
Qed.

Lemma scrape_branch_careful n url path cf st st' :
  scrape_branch site state_abb site_url n url path cf st = Some st' ->
  length path <= 20 ->
  careful site site_url (fun u => u = url) (fun _ => False) st st'.
Proof.
  apply (scrape_branch_rule site state_abb site_url
           (fun url path _ st st' =>
              length path <= 20 ->
              careful site site_url (fun u => u = url) (fun _ => False) st st')
           (fun url path _ _ _ _ st st' =>
              length path <= 20 ->
              careful site site_url (followed_clean site site_url url) (fun p => p = url)
                st st')).
  - intros. by apply careful_silent.
  - intros u p c s status _ _ _. by apply (careful_page u _ _ _ []).
  - intros u p c s links s' _ Hsite HQ Hlen.
    destruct (HQ Hlen) as (reqs & warns & Hr & Hw & Ho & Hj).
    exists ((Classify, u) :: reqs), warns. simpl in Hr, Hw.
    rewrite Hr, Hw, <- app_assoc. repeat split; try done.
    + constructor; [by left|]. eapply Forall_impl; [exact Ho|].
      intros r [Hfol|(parent & Hp & Hfol)]; right.
      * exists u. split; [left | done].
      * exists parent. split; [by right | done].
    + eapply Forall_impl; [exact Hj|]. intros w. apply justified_mono.
      intros q [->|Hq]; right; [left|by right].
  - intros u p c s body _ _ _ _ _. by apply (careful_page u _ _ _ []).
  - intros u p c s d _ _ _ _. apply (careful_page u _ _ _ [(Extract, u)]); try done.
    + simpl. by rewrite <- app_assoc.
    + by repeat constructor.
  - intros u p c s e _ _ _ _. apply (careful_page u _ _ _ [(Extract, u)]); try done.
    + simpl. by rewrite <- app_assoc.
    + by repeat constructor.
  - intros u p c s status _ _ _ _. apply (careful_page u _ _ _ [(Extract, u)]); try done.
    + simpl. by rewrite <- app_assoc.
    + by repeat constructor.
  - intros. by apply careful_silent.
  - intros. auto.
  - intros. auto.
  - intros u p c s all k l links s0 s' Hsite Hdrop _ Hex Hmal HQ Hlen.
    apply (careful_warned _ _ (MalformedURL (site_url +:+ href l))); [|auto].
    exists u, all, l. repeat split; try done.
    apply list_elem_of_lookup. exists k. by eapply drop_cons_lookup.
  - intros u p c s all k l links s0 Hsite _ _ _ _ Hdeep Hlen.
    apply (careful_warned _ _ (ExcessiveDepth (length p) u)).
    + simpl. split; [lia|]. split; [done|by exists all].
    + by apply careful_silent.
  - intros u p c s all k l links s0 s1 s' Hsite Hdrop _ Hex Hmal Hd HP HQ Hlen.
    eapply careful_trans; [| | | |apply HP|apply HQ]; try done.
    + intros v ->. exists all, l. repeat split; try done.
      apply list_elem_of_lookup. exists k. by eapply drop_cons_lookup.
    + rewrite length_app. simpl. lia.
Qed.

End Careful.

Lemma worker_careful {Up : Upper} site state_abb root n cf links0 st st' :
  site root = Listing links0 ->
  worker site n state_abb
    (omap (enqueue_one cf (start_branch_index cf))
       (enumerate_from 0 (filter (fun l => is_reserved_or_repealed (text l) = false) links0)))
    st = Some st' ->
  careful site REGULATIONS_BASE_URL (followed site REGULATIONS_BASE_URL root) (fun _ => False)
    st st'.
Proof.
  intros Hroot.
  apply (worker_rule site state_abb cf
           (filter (fun l => is_reserved_or_repealed (text l) = false) links0)
           (fun url path _ st st' =>
              length path <= 20 ->
              careful site REGULATIONS_BASE_URL (fun u => u = url) (fun _ => False) st st')
           (fun _ _ st st' =>
              careful site REGULATIONS_BASE_URL (followed site REGULATIONS_BASE_URL root)
                (fun _ => False) st st'));
    [| | | |done].
  - intros. by apply careful_silent.
  - intros. done.
  - intros k l links s s1 s' Hdrop _ HP HW.
    eapply careful_trans; [| | | |apply HP|exact HW]; try done; [|simpl; lia].
    intros v ->. apply drop_cons_lookup in Hdrop.
    assert (Hin : l ∈ filter (fun l => is_reserved_or_repealed (text l) = false) links0)
      by (apply list_elem_of_lookup; eauto).
    apply list_elem_of_filter in Hin as [Hex Hin]. by exists links0, l.
  - intros u p c s s'. apply scrape_branch_careful.
Qed.

(** X15. Below the first level the malformed-link check holds, and every
    warning is justified.  In a run, every page requested is the start
    page, the target of a link of the start page that is not excluded (the
    first level, where hrefs are not checked), or the target of a link,
    neither excluded nor malformed, of a listing page that [scrape_branch]
    requested.  Every malformed-URL warning names a malformed link of a
    listing page requested, and every depth warning a listing page
    requested, at depth 20. *)
Theorem malformed_links_skipped {Up : Upper} site loads n state_abb state_name resume prior mode cf st :
  JUR_URL_MAP !! state_abb = Some state_name ->
  collect_regulations_for_state site loads n state_abb resume prior = Some (Finished mode cf st) ->
  (forall who u, (who, u) ∈ requests st ->
     (who = Startup /\ u = state_init_url state_name)
     \/ followed site REGULATIONS_BASE_URL (state_init_url state_name) u
     \/ exists parent, (Classify, parent) ∈ requests st
          /\ followed_clean site REGULATIONS_BASE_URL parent u)
  /\ Forall (justified site REGULATIONS_BASE_URL (fun p => (Classify, p) ∈ requests st))
       (warnings st).
Proof.
  intros Hname. unfold collect_regulations_for_state. rewrite Hname. clear Hname.
  destruct (resume_setup loads resume prior) as [[cf' m]|]; [|done].
  fold (state_init_url state_name). unfold fetch_with_retry.
  assert (Hstart : forall st',
            careful site REGULATIONS_BASE_URL
              (followed site REGULATIONS_BASE_URL (state_init_url state_name)) (fun _ => False)
              (note_request Startup (state_init_url state_name) init_state) st' ->
            (forall who u, (who, u) ∈ requests st' ->
               (who = Startup /\ u = state_init_url state_name)
               \/ followed site REGULATIONS_BASE_URL (state_init_url state_name) u
               \/ exists parent, (Classify, parent) ∈ requests st'
                    /\ followed_clean site REGULATIONS_BASE_URL parent u)
            /\ Forall (justified site REGULATIONS_BASE_URL
                         (fun p => (Classify, p) ∈ requests st')) (warnings st')).
  { intros st' (reqs & warns & Hr & Hw & Ho & Hj).
    simpl in Hr, Hw. rewrite Hr, Hw. split.
    - intros who u [Hu|Hu]%elem_of_cons; [left; by simplify_eq|]. right.
      apply (proj1 (Forall_forall _ _) Ho) in Hu as [Hfol|(parent & Hp & Hfol)]; [by left|].
      right. exists parent. split; [by right|done].
    - eapply Forall_impl; [exact Hj|]. intros w. apply justified_mono.
      intros p [[]|Hp]. by right. }
  destruct (site (state_init_url state_name)) as [status|links|body] eqn:Hroot.
  - intros [= <- <- <-]. apply Hstart. by apply careful_silent.
  - destruct (worker _ _ _ _ _) as [st'|] eqn:E; [|done]. intros [= <- <- <-].
    unfold enqueue_jobs in E. rewrite enumerate_from_0 in E.
    apply Hstart. by eapply worker_careful.
  - intros [= <- <- <-]. apply Hstart. by apply careful_silent.
Qed.

Lemma malformed_links_skipped_witness :
  let st := default init_state (final_state
              (collect_regulations_for_state malformed_top (loads_const []) 20 "MT" false None)) in
  (forall who u, (who, u) ∈ requests st ->
     (who = Startup /\ u = state_init_url "montana")
     \/ followed malformed_top REGULATIONS_BASE_URL (state_init_url "montana") u
     \/ exists parent, (Classify, parent) ∈ requests st
          /\ followed_clean malformed_top REGULATIONS_BASE_URL parent u)
  /\ Forall (justified malformed_top REGULATIONS_BASE_URL (fun p => (Classify, p) ∈ requests st))
       (warnings st).
Proof.
  intros st.
  apply (malformed_links_skipped malformed_top (loads_const []) 20 "MT" "montana" false None
           Truncate None st).
  - reflexivity.
  - vm_compute. reflexivity.
Defined.

(** ** The malformed-link test *)

Lemma endswith_spec p s : Str.endswith p s = true <-> exists pre, s = pre +:+ p.
Proof.
  induction s as [|c s IH]; simpl.
  - destruct (decide ("" = p)) as [<-|Hne].
    + split; [by exists ""|done].
    + split; [done|]. intros [pre H]. destruct pre; [done|]. by rewrite str_app_cons in H.
  - destruct (decide (String c s = p)) as [<-|Hne].
    + split; [by exists ""|done].
    + rewrite IH. split.
      * intros [pre ->]. by exists (String c pre).
      * intros [pre H]. destruct pre as [|c' pre]; [by rewrite str_app_nil in H|].
        rewrite str_app_cons in H. simplify_eq. by exists pre.
Qed.

Lemma contains_cons needle c s :
  Str.contains needle (String c s) = false -> Str.contains needle s = false.
Proof. simpl. by destruct (Str.startswith needle (String c s)). Qed.

(** Replacing what does not occur changes nothing. *)
Lemma replace_absent old new s : Str.contains old s = false -> Str.replace old new s = s.
Proof.
  unfold Str.replace. induction s as [|c s IH]; [done|]. intros H.
  pose proof (contains_cons _ _ _ H) as H'. simpl in H |- *.
  destruct (Str.startswith old (String c s)); [done|]. by rewrite IH.
Qed.

Lemma scheme_has_slashes s : Str.contains "://" s = true -> Str.contains "//" s = true.
Proof.
  rewrite !contains_spec. intros (pre & post & ->). exists (pre +:+ ":"), post.
  by rewrite str_app_assoc.
Qed.

Lemma endswith_contains p s : Str.endswith p s = true -> Str.contains p s = true.
Proof.
  rewrite endswith_spec, contains_spec. intros [pre ->]. exists pre, "".
  f_equal. clear. induction p as [|c p IH]; [done|]. by rewrite str_app_cons, <- IH.
Qed.

(** X16. The malformed-link test (lines 534, 72 and 117) skips only hrefs
    that contain a doubled slash, and for an href without "://" it is
    exactly the test for a doubled slash: a relative link is skipped if
    and only if "//" occurs in it. *)
Theorem malformed_href_spec (href : string) :
  (malformed_href href = true -> Str.contains "//" href = true)
  /\ (Str.contains "://" href = false -> malformed_href href = Str.contains "//" href).
Proof.
  assert (Hrel : Str.contains "://" href = false ->
                 malformed_href href = Str.contains "//" href).
  { intros Hno. unfold malformed_href. rewrite (replace_absent _ _ _ Hno).
    destruct (Str.endswith "//" href) eqn:E; [|done].
    apply endswith_contains in E. by rewrite E. }
  split; [|exact Hrel].
  intros Hmal. destruct (Str.contains "://" href) eqn:Hs.
  - by apply scheme_has_slashes.
  - by rewrite <- (Hrel eq_refl).
Qed.

Example malformed_href_ex :
  malformed_href "/states/montana//d1/" = true
  /\ malformed_href "/states/montana/d1//" = true
  /\ malformed_href "/states/montana/d1/" = false
  /\ malformed_href "https://regulations.justia.com/states/montana/" = false
  /\ malformed_href "https:///states/montana/" = false.
Proof. repeat split. Qed.

(** ** What the logs say is true of the site *)

Section Truthful.

Context {Up : Upper}.

Variable site : string -> Page.
Variables state_abb site_url : string.





End Truthful.




(** ** Records outside the sections *)

Lemma mapM_agree {A B} (f g : A -> option B) (l : list A) :
  (forall x, x ∈ l -> f x = g x) -> mapM f l = mapM g l.
Proof.
  induction l as [|x l IH]; intros H; [done|]. simpl.
  rewrite (H x) by left. rewrite IH; [done|]. intros y Hy. apply H. by right.
Qed.

Lemma validate_one_section {Up : Upper} site fuel (records1 records2 : list Rec) section :
  in_section (sec_index section) records1 = in_section (sec_index section) records2 ->
  validate_one site fuel (group_by_section records1) section
  = validate_one site fuel (group_by_section records2) section.
Proof.
  intros H. unfold validate_one.
  by rewrite (proj1 (group_by_section_groups records1 _)),
             (proj1 (group_by_section_groups records2 _)), H.
Qed.

(** X18. The verification looks at the records only through the sections
    it finds on the start page: two files that hold the same records,
    in the same order, for the index of every such section get the same
    reports.  In particular records whose lex_path is empty or starts
    with an index that is not that of a section (an excluded or malformed
    link, or no link at all) are not reported, neither as extra nor
    otherwise. *)
Theorem records_outside_sections_ignored {Up : Upper} site fuel state_name_lower
    (records1 records2 orphans : list Rec) :
  let sections :=
    get_top_level_sections site
      ("https://regulations.justia.com/states/" +:+ state_name_lower +:+ "/") in
  ((forall section, section ∈ sections ->
      in_section (sec_index section) records1 = in_section (sec_index section) records2) ->
   validate_state site fuel state_name_lower records1
   = validate_state site fuel state_name_lower records2)
  /\ (Forall (fun r => forall section, section ∈ sections ->
                head (rec_lex_path r) ≠ Some (sec_index section)) orphans ->
      validate_state site fuel state_name_lower (records1 ++ orphans)
      = validate_state site fuel state_name_lower records1).
Proof.
  cbn zeta.
  assert (Hsame : (forall section,
             section ∈ get_top_level_sections site
               ("https://regulations.justia.com/states/" +:+ state_name_lower +:+ "/") ->
             in_section (sec_index section) records1 = in_section (sec_index section) records2) ->
          validate_state site fuel state_name_lower records1
          = validate_state site fuel state_name_lower records2).
  { intros H. unfold validate_state. apply mapM_agree. intros section Hs.
    apply validate_one_section. by apply H. }
  split; [exact Hsame|]. clear Hsame. intros Horph.
  unfold validate_state. apply mapM_agree. intros section Hs.
  apply validate_one_section. unfold in_section. rewrite filter_app.
  assert (Hnone : filter (fun record => head (rec_lex_path record) = Some (sec_index section))
                    orphans = []).
  { clear -Horph Hs. induction Horph as [|r l Hr _ IH]; [done|].
    rewrite filter_cons_False by (by apply Hr). exact IH. }
  by rewrite Hnone, app_nil_r.
Qed.

(** On [reserved_first] the record the crawler writes, with lex_path
    [0; 0], lies outside the one section the verifier finds, with index 1:
    the reports are those for an empty file. *)
Example orphan_record_ex :
  (final_state (collect_regulations_for_state reserved_first (loads_const []) 20 "MT" false None)
     ≫= fun st => validate_state reserved_first 21 "montana" (jsonl st))
  = validate_state reserved_first 21 "montana" [].
Proof. vm_compute. reflexivity. Qed.

Lemma records_outside_sections_ignored_witness :
  validate_state reserved_first 21 "montana" ([] ++ [bare_record [0; 0]; bare_record []])
  = validate_state reserved_first 21 "montana" [].
Proof.
  apply (proj2 (records_outside_sections_ignored reserved_first 21 "montana" [] []
                  [bare_record [0; 0]; bare_record []])).
  assert (Hsec : get_top_level_sections reserved_first
                   ("https://regulations.justia.com/states/" +:+ "montana" +:+ "/")
                 = [{| sec_name := "Title 2"; sec_url := montana +:+ "t2/"; sec_index := 1 |}])
    by (vm_compute; reflexivity).
  rewrite Hsec.
  repeat constructor; intros section Hs; apply list_elem_of_singleton in Hs; by subst.
Defined.
